(** * FlowTask: the dependency-graph engine and its task store

    A shallow embedding of [flowtask/graph.py] and of the store operations of
    [flowtask/db.py] that the specification talks about, with the properties
    of the specification stated and proved over it.

    Python's [int] is [Z]; a [Dict[int, Set[int]]] is a [gmap Z (gset Z)];
    a [set] is a [gset].  The order in which Python iterates over a set is
    not fixed by the language, so the graph engine is developed in a section
    over an arbitrary enumeration [set_iter] of a set's elements. *)

From Stdlib Require Import ZArith List Lia Ascii String.
From stdpp Require Import base decidable option list sorting gmap sets strings relations.

#[local] Set Warnings "-clear-no-such-hyp,-level-tolerance".

Open Scope Z_scope.

(** ** Edges *)

(** [Edge = Tuple[int, int]]: [(task_id, depends_on_id)]. *)
Abbreviation Edge := (Z * Z)%type.

(** ** Results of a call

    A call returns a value or raises; [OutOfFuel] is the model's own
    outcome for a loop that was given too few iterations, and is shown not
    to occur. *)

Inductive exn : Type :=
  | ValueError
  | KeyError
  | IntegrityError
  | OverflowError.

Inductive res (A : Type) : Type :=
  | Ok (a : A)
  | Raise (e : exn)
  | OutOfFuel.
Arguments Ok {A} a.
Arguments Raise {A} e.
Arguments OutOfFuel {A}.

#[global] Instance res_bind : MBind res := λ A B f r,
  match r with
  | Ok a => f a
  | Raise e => Raise e
  | OutOfFuel => OutOfFuel
  end.

(** [d[k]] on a plain [dict]: a missing key raises [KeyError]. *)
Definition dict_get {V : Type} (d : gmap Z V) (k : Z) : res V :=
  match d !! k with
  | Some v => Ok v
  | None => Raise KeyError
  end.

(** ** Graph engine *)

Module Graph.

(** [adj[task_id].add(prereq_id)] on a [defaultdict(set)]: the entry is
    created empty when missing, then the element is added. *)
Definition adj_add (adj : gmap Z (gset Z)) (task_id prereq_id : Z) : gmap Z (gset Z) :=
  <[task_id := default ∅ (adj !! task_id) ∪ {[prereq_id]}]> adj.

(** [if prereq_id not in adj: adj[prereq_id] = adj[prereq_id]]: reading the
    missing key of a [defaultdict] creates it with the empty set. *)
Definition adj_touch (adj : gmap Z (gset Z)) (prereq_id : Z) : gmap Z (gset Z) :=
  match adj !! prereq_id with
  | Some _ => adj
  | None => <[prereq_id := ∅]> adj
  end.

Definition build_adjacency_step (adj : gmap Z (gset Z)) (e : Edge) : gmap Z (gset Z) :=
  adj_touch (adj_add adj e.1 e.2) e.2.

Definition build_adjacency (edges : list Edge) : gmap Z (gset Z) :=
  foldl build_adjacency_step ∅ edges.

(** *** Reachability search *)

(** What the [for nxt in adj.get(node, set())] loop of [has_path] does:
    it either hits [return True] or falls through with the stack it has
    grown. *)
Inductive scan_result : Type :=
  | Found
  | Continue (stack : list Z).

(** The body of that [for] loop.  The Python list [stack] is used as a
    stack through [append] and [pop]; its top is the head of the list here. *)
Fixpoint scan_neighbours (target : Z) (visited : gset Z)
    (nbrs : list Z) (stack : list Z) : scan_result :=
  match nbrs with
  | [] => Continue stack
  | nxt :: rest =>
      if decide (nxt = target) then Found
      else if decide (nxt ∈ visited) then scan_neighbours target visited rest stack
      else scan_neighbours target visited rest (nxt :: stack)
  end.

(** *** Topological sort *)

(** One round of the [for task, prereq in edges] loop of [topo_sort], on
    the pair [(prereq_to_dependents, indegree)]. *)
Definition record_edge (tasks_set : gset Z)
    (st : gmap Z (gset Z) * gmap Z Z) (e : Edge) : res (gmap Z (gset Z) * gmap Z Z) :=
  let '(task, prereq) := e in
  if decide (task ∉ tasks_set ∨ prereq ∉ tasks_set) then Ok st
  else
    let prereq_to_dependents :=
      <[prereq := default ∅ (st.1 !! prereq) ∪ {[task]}]> st.1 in
    d ← dict_get st.2 task;
    Ok (prereq_to_dependents, <[task := d + 1]> st.2).

Fixpoint record_edges (tasks_set : gset Z)
    (st : gmap Z (gset Z) * gmap Z Z) (edges : list Edge)
    : res (gmap Z (gset Z) * gmap Z Z) :=
  match edges with
  | [] => Ok st
  | e :: rest => st' ← record_edge tasks_set st e; record_edges tasks_set st' rest
  end.

(** The [for dep in prereq_to_dependents.get(n, set())] loop, on the pair
    [(indegree, q)]; the deque [q] has its left end at the head. *)
Fixpoint relax (deps : list Z) (indegree : gmap Z Z) (q : list Z)
    : res (gmap Z Z * list Z) :=
  match deps with
  | [] => Ok (indegree, q)
  | dep :: rest =>
      d ← dict_get indegree dep;
      let indegree' := <[dep := d - 1]> indegree in
      if decide (d - 1 = 0) then relax rest indegree' (q ++ [dep])
      else relax rest indegree' q
  end.

Section Engine.

(** The order in which a [for] loop visits the elements of a set. *)
Context (set_iter : gset Z → list Z).

(** The [while stack:] loop of [has_path]; [None] when the fuel runs out. *)
Fixpoint has_path_loop (fuel : nat) (adj : gmap Z (gset Z)) (target : Z)
    (stack : list Z) (visited : gset Z) : option bool :=
  match fuel with
  | O => None
  | S fuel' =>
      match stack with
      | [] => Some false
      | node :: stack' =>
          if decide (node ∈ visited) then
            has_path_loop fuel' adj target stack' visited
          else
            let visited' := visited ∪ {[node]} in
            match scan_neighbours target visited'
                    (set_iter (default ∅ (adj !! node))) stack' with
            | Found => Some true
            | Continue stack'' => has_path_loop fuel' adj target stack'' visited'
            end
      end
  end.

(** The nodes that a run of the [while] loop expands (the ones it adds
    to [visited] before scanning their neighbours), in order.  This only
    observes [has_path_loop]; the program does not compute it. *)
Fixpoint has_path_expansions (fuel : nat) (adj : gmap Z (gset Z)) (target : Z)
    (stack : list Z) (visited : gset Z) : list Z :=
  match fuel with
  | O => []
  | S fuel' =>
      match stack with
      | [] => []
      | node :: stack' =>
          if decide (node ∈ visited) then
            has_path_expansions fuel' adj target stack' visited
          else
            let visited' := visited ∪ {[node]} in
            node ::
            match scan_neighbours target visited'
                    (set_iter (default ∅ (adj !! node))) stack' with
            | Found => []
            | Continue stack'' => has_path_expansions fuel' adj target stack'' visited'
            end
      end
  end.

Definition has_path_fuel (fuel : nat) (adj : gmap Z (gset Z)) (start target : Z)
    : option bool :=
  if decide (start = target) then Some true
  else has_path_loop fuel adj target [start] ∅.

(** What expanding node [k] can cost: one iteration for the node and one
    for each neighbour it may push. *)
Definition expand_cost (adj : gmap Z (gset Z)) (visited : gset Z) (k : Z) : nat :=
  if decide (k ∈ visited) then 0%nat else S (size (default ∅ (adj !! k))).

(** Iterations still ahead of the loop: the stack, and what the unvisited
    keys of [adj] may still push. *)
Definition loop_budget (adj : gmap Z (gset Z)) (stack : list Z) (visited : gset Z) : nat :=
  (length stack + sum_list_with (expand_cost adj visited) (elements (dom adj)))%nat.

(** Enough iterations for any start node. *)
Definition has_path_bound (adj : gmap Z (gset Z)) : nat :=
  S (loop_budget adj [0] ∅).

Definition has_path (adj : gmap Z (gset Z)) (start target : Z) : option bool :=
  has_path_fuel (has_path_bound adj) adj start target.

Definition would_create_cycle (edges : list Edge) (task_id prereq_id : Z) : option bool :=
  if decide (task_id = prereq_id) then Some true
  else has_path (build_adjacency edges) prereq_id task_id.

(** The [while q:] loop of [topo_sort]; it returns [out]. *)
Fixpoint kahn_loop (fuel : nat) (prereq_to_dependents : gmap Z (gset Z))
    (indegree : gmap Z Z) (q out : list Z) : res (list Z) :=
  match fuel with
  | O => OutOfFuel
  | S fuel' =>
      match q with
      | [] => Ok out
      | n :: q' =>
          '(indegree', q'') ←
            relax (set_iter (default ∅ (prereq_to_dependents !! n))) indegree q';
          kahn_loop fuel' prereq_to_dependents indegree' q'' (out ++ [n])
      end
  end.

(** [topo_sort] up to the end of its [while] loop: the list [out] that the
    final length test is applied to.  The dict [indegree] gets its keys from
    the comprehension over [tasks_set] and never gains or loses one
    afterwards, so [indegree.items()] lists them in the order the set was
    iterated in. *)
Definition topo_sort_out (tasks : list Z) (edges : list Edge) : res (list Z) :=
  let tasks_set : gset Z := list_to_set tasks in
  '(prereq_to_dependents, indegree) ←
    record_edges tasks_set (∅, gset_to_gmap 0 tasks_set) edges;
  let q := filter (λ t, indegree !! t = Some 0) (set_iter tasks_set) in
  kahn_loop (S (size tasks_set)) prereq_to_dependents indegree q [].

(** [topo_sort]: the loops, then
    [if len(out) != len(tasks_set): raise ValueError(...)]. *)
Definition topo_sort (tasks : list Z) (edges : list Edge) : res (list Z) :=
  let tasks_set : gset Z := list_to_set tasks in
  out ← topo_sort_out tasks edges;
  if decide (length out ≠ size tasks_set) then Raise ValueError else Ok out.

End Engine.

End Graph.

(** ** Task store *)

Module Db.

(** *** Dates and timestamps as text

    [date.isoformat], [datetime.isoformat] and their [fromisoformat]
    inverses belong to Python's library.  The formatters are modelled as
    documented.  The parsers are modelled on the texts that the formatters
    emit, [YYYY-MM-DD] and [YYYY-MM-DD*HH:MM:SS[.fff[fff]][+HH:MM]] with
    any one character for [*]; on these they give the value that the library
    gives.  The library reads further forms (dates without dashes, week
    dates, times without seconds, offsets with seconds, depending on its
    version), which the model does not read: it answers [None] there, so
    [_row_to_task] ends with [ValueError] in the model on a text of such a
    form, whatever the library does.  Every statement about reading rows is
    therefore made for stores whose texts have the forms that are modelled,
    and says so in its hypotheses. *)

Definition digit_char (d : Z) : ascii := ascii_of_nat (48 + Z.to_nat (d mod 10)).

Definition digit_val (c : ascii) : option Z :=
  let n := Z.of_nat (nat_of_ascii c) in
  if decide (48 ≤ n ≤ 57) then Some (n - 48) else None.

(** ["%02d"], ["%04d"] and ["%06d"] on numbers that fit. *)
Definition pad2 (n : Z) : string :=
  String (digit_char (n / 10)) (String (digit_char n) EmptyString).

Definition pad4 (n : Z) : string :=
  String (digit_char (n / 1000)) (String (digit_char (n / 100)) (pad2 n)).

Definition pad6 (n : Z) : string :=
  String (digit_char (n / 100000)) (String (digit_char (n / 10000)) (pad4 n)).

Definition val2 (c1 c0 : ascii) : option Z :=
  d1 ← digit_val c1; d0 ← digit_val c0; Some (10 * d1 + d0).

Definition val3 (c2 c1 c0 : ascii) : option Z :=
  d2 ← digit_val c2; r ← val2 c1 c0; Some (100 * d2 + r).

Definition val4 (c3 c2 c1 c0 : ascii) : option Z :=
  h ← val2 c3 c2; l ← val2 c1 c0; Some (100 * h + l).

Record date : Type := mkDate { year : Z; month : Z; day : Z }.

Definition is_leap (y : Z) : bool :=
  bool_decide (y mod 4 = 0) && (negb (bool_decide (y mod 100 = 0)) || bool_decide (y mod 400 = 0)).

Definition days_in_month (y m : Z) : Z :=
  if decide (m = 2) then (if is_leap y then 29 else 28)
  else if decide (m = 4 ∨ m = 6 ∨ m = 9 ∨ m = 11) then 30
  else 31.

(** The values a [date] object can hold. *)
Definition valid_date (d : date) : Prop :=
  1 ≤ year d ≤ 9999 ∧ 1 ≤ month d ≤ 12 ∧ 1 ≤ day d ≤ days_in_month (year d) (month d).

Definition date_isoformat (d : date) : string :=
  pad4 (year d) +:+ "-" +:+ pad2 (month d) +:+ "-" +:+ pad2 (day d).

Definition date_fromisoformat (s : string) : option date :=
  match s with
  | String y3 (String y2 (String y1 (String y0 (String c4
    (String m1 (String m0 (String c7 (String d1 (String d0 EmptyString))))))))) =>
      if decide (c4 = "-"%char ∧ c7 = "-"%char) then
        y ← val4 y3 y2 y1 y0; m ← val2 m1 m0; d ← val2 d1 d0;
        let r := mkDate y m d in
        if decide (valid_date r) then Some r else None
      else None
  | _ => None
  end.

(** A [datetime]; [tzinfo] is the UTC offset in minutes of an aware value
    and [None] for a naive one. *)
Record datetime : Type := mkDatetime {
  dt_date : date; hour : Z; minute : Z; second : Z; microsecond : Z;
  tzinfo : option Z
}.

Definition valid_datetime (t : datetime) : Prop :=
  valid_date (dt_date t) ∧ 0 ≤ hour t ≤ 23 ∧ 0 ≤ minute t ≤ 59 ∧ 0 ≤ second t ≤ 59 ∧
  0 ≤ microsecond t ≤ 999999 ∧
  match tzinfo t with None => True | Some off => -1440 < off < 1440 end.

Definition offset_isoformat (off : Z) : string :=
  (if decide (off < 0) then "-" else "+") +:+
  pad2 (Z.abs off / 60) +:+ ":" +:+ pad2 (Z.abs off mod 60).

Definition datetime_isoformat (t : datetime) : string :=
  date_isoformat (dt_date t) +:+ "T" +:+
  pad2 (hour t) +:+ ":" +:+ pad2 (minute t) +:+ ":" +:+ pad2 (second t) +:+
  (if decide (microsecond t = 0) then "" else "." +:+ pad6 (microsecond t)) +:+
  match tzinfo t with None => "" | Some off => offset_isoformat off end.

Definition offset_fromisoformat (s : string) : option (option Z) :=
  match s with
  | EmptyString => Some None
  | String sign (String h1 (String h0 (String ":" (String m1 (String m0 EmptyString))))) =>
      h ← val2 h1 h0; m ← val2 m1 m0;
      if decide (h ≤ 23 ∧ m ≤ 59) then
        if decide (sign = "+"%char) then Some (Some (60 * h + m))
        else if decide (sign = "-"%char) then Some (Some (- (60 * h + m)))
        else None
      else None
  | _ => None
  end.

(** The fraction of a second, if any, and what follows it. *)
Definition fraction_fromisoformat (s : string) : option (Z * string) :=
  match s with
  | String "." (String f5 (String f4 (String f3 rest))) =>
      ms ← val3 f5 f4 f3;
      match rest with
      | String f2 (String f1 (String f0 rest')) =>
          match val3 f2 f1 f0 with
          | Some us => Some (1000 * ms + us, rest')
          | None => Some (1000 * ms, rest)
          end
      | _ => Some (1000 * ms, rest)
      end
  | String "." _ => None
  | _ => Some (0, s)
  end.

Definition datetime_fromisoformat (s : string) : option datetime :=
  match s with
  | String y3 (String y2 (String y1 (String y0 (String c4
    (String m1 (String m0 (String c7 (String d1 (String d0 (String _
    (String H1 (String H0 (String ":" (String M1 (String M0 (String ":"
    (String S1 (String S0 rest)))))))))))))))))) =>
      d ← date_fromisoformat
             (String y3 (String y2 (String y1 (String y0 (String c4
             (String m1 (String m0 (String c7 (String d1 (String d0 EmptyString))))))))));
      h ← val2 H1 H0; m ← val2 M1 M0; sec ← val2 S1 S0;
      '(us, rest') ← fraction_fromisoformat rest;
      tz ← offset_fromisoformat rest';
      if decide (h ≤ 23 ∧ m ≤ 59 ∧ sec ≤ 59) then Some (mkDatetime d h m sec us tz)
      else None
  | _ => None
  end.

(** [s.replace("Z", "+00:00")]. *)
Fixpoint replace_Z (s : string) : string :=
  match s with
  | EmptyString => EmptyString
  | String c s' =>
      if decide (c = "Z"%char) then "+00:00" +:+ replace_Z s'
      else String c (replace_Z s')
  end.

(** *** Rows, tasks and the database *)

(** A row of the [tasks] table; [due] is a nullable [TEXT] column. *)
Record Row : Type := mkRow {
  row_id : Z; row_title : string; row_description : string; row_priority : Z;
  row_due : option string; row_status : string; row_tags : string;
  row_created_at : string; row_updated_at : string
}.

(** The [Task] dataclass of [models.py]. *)
Record Task : Type := mkTask {
  id : Z; title : string; description : string; priority : Z;
  due : option date; status : string; tags : string;
  created_at : datetime; updated_at : datetime
}.

(** The two tables, each in the order its rows were inserted. *)
Record database : Type := mkDatabase {
  tasks : list Row;
  deps : list (Z * Z)
}.

Definition res_of_option {A} (o : option A) : res A :=
  match o with
  | Some a => Ok a
  | None => Raise ValueError
  end.

Definition _parse_due (due_text : option string) : res (option date) :=
  match due_text with
  | None => Ok None
  | Some s => d ← res_of_option (date_fromisoformat s); Ok (Some d)
  end.

Definition _row_to_task (row : Row) : res Task :=
  d ← _parse_due (row_due row);
  c ← res_of_option (datetime_fromisoformat (replace_Z (row_created_at row)));
  u ← res_of_option (datetime_fromisoformat (replace_Z (row_updated_at row)));
  Ok (mkTask (row_id row) (row_title row) (row_description row) (row_priority row)
        d (row_status row) (row_tags row) c u).

(** [[_row_to_task(r) for r in rows]]. *)
Fixpoint rows_to_tasks (rows : list Row) : res (list Task) :=
  match rows with
  | [] => Ok []
  | r :: rest => t ← _row_to_task r; ts ← rows_to_tasks rest; Ok (t :: ts)
  end.

(** [ORDER BY id ASC]. *)
Definition by_id (a b : Row) : Prop := row_id a ≤ row_id b.

#[global] Instance by_id_dec a b : Decision (by_id a b).
Proof. unfold by_id. apply _. Defined.

Definition list_tasks (db : database) (status : option string) : res (list Task) :=
  let rows :=
    match status with
    | Some st =>
        if decide (st = EmptyString) then tasks db
        else filter (λ r, row_status r = st) (tasks db)
    | None => tasks db
    end in
  rows_to_tasks (merge_sort by_id rows).

Definition get_dependencies (db : database) : list (Z * Z) := deps db.

(** The sub-query of [ready_tasks]: some row [d] of [deps] for this task
    joins a row [prereq] of [tasks] whose status is not ['done']. *)
Definition has_unmet_prereq (db : database) (t : Row) : Prop :=
  Exists (λ d : Z * Z,
    Exists (λ prereq, row_id prereq = d.2 ∧ d.1 = row_id t ∧ row_status prereq ≠ "done")
      (tasks db))
    (deps db).

(** How SQLite orders two values of a nullable [TEXT] column: [NULL] first,
    then byte-wise. *)
Definition text_compare (a b : option string) : comparison :=
  match a, b with
  | None, None => Eq
  | None, Some _ => Lt
  | Some _, None => Gt
  | Some x, Some y => String.compare x y
  end.

Definition then_compare (c : comparison) (d : comparison) : comparison :=
  match c with
  | Eq => d
  | _ => c
  end.

(** The [ORDER BY] clause of [ready_tasks], key by key. *)
Definition ready_compare (a b : Row) : comparison :=
  then_compare
    (Z.compare (if row_due a is None then 1 else 0) (if row_due b is None then 1 else 0))
  (then_compare (text_compare (row_due a) (row_due b))
  (then_compare (Z.compare (row_priority b) (row_priority a))
    (Z.compare (row_id a) (row_id b)))).

Definition ready_order (a b : Row) : Prop := ready_compare a b ≠ Gt.

#[global] Instance comparison_eq_dec : EqDecision comparison.
Proof. solve_decision. Defined.

#[global] Instance ready_order_dec a b : Decision (ready_order a b).
Proof. unfold ready_order. apply _. Defined.

#[global] Instance has_unmet_prereq_dec db t : Decision (has_unmet_prereq db t).
Proof. unfold has_unmet_prereq. apply _. Defined.

Definition ready_tasks (db : database) : res (list Task) :=
  let rows :=
    filter (λ t, row_status t = "todo" ∧ ¬ has_unmet_prereq db t) (tasks db) in
  rows_to_tasks (merge_sort ready_order rows).

(** *** Interchange document *)

(** A task object of the document.  [None] in an optional field is a key
    that is missing (or, for [j_due], also a [null]). *)
Record json_task : Type := mkJsonTask {
  j_id : Z; j_title : string; j_description : option string; j_priority : option Z;
  j_due : option string; j_status : option string; j_tags : option string;
  j_created_at : option string; j_updated_at : option string
}.

Record document : Type := mkDocument {
  doc_tasks : list json_task;
  doc_deps : list (Z * Z)
}.

Definition task_to_dict (t : Task) : json_task :=
  mkJsonTask (id t) (title t) (Some (description t)) (Some (priority t))
    (date_isoformat <$> due t) (Some (status t)) (Some (tags t))
    (Some (datetime_isoformat (created_at t))) (Some (datetime_isoformat (updated_at t))).

Definition export_json (db : database) : res document :=
  tasks ← list_tasks db None;
  let deps := get_dependencies db in
  Ok (mkDocument (task_to_dict <$> tasks) deps).

(** What SQLite stores in an [INTEGER] column. *)
Definition sqlite_int (z : Z) : Prop := - 2 ^ 63 ≤ z < 2 ^ 63.

(** [INSERT INTO tasks (id, ...)]: the primary key must be new. *)
Definition insert_task (rows : list Row) (r : Row) : res (list Row) :=
  if decide (sqlite_int (row_id r) ∧ sqlite_int (row_priority r)) then
    if decide (row_id r ∈ row_id <$> rows) then Raise IntegrityError
    else Ok (rows ++ [r])
  else Raise OverflowError.

(** [INSERT INTO deps]: the pair must be new and, with [foreign_keys = ON],
    both ends must be ids of [tasks]. *)
Definition insert_dep (rows : list Row) (ds : list (Z * Z)) (d : Z * Z)
    : res (list (Z * Z)) :=
  if decide (sqlite_int d.1 ∧ sqlite_int d.2) then
    if decide (d ∈ ds) then Raise IntegrityError
    else if decide (d.1 ∈ row_id <$> rows ∧ d.2 ∈ row_id <$> rows) then Ok (ds ++ [d])
    else Raise IntegrityError
  else Raise OverflowError.

Section Importing.

(** [clock n] is what the [n]-th call of [_iso_now] returns. *)
Context (clock : nat → string).

(** The tuple bound to the [INSERT] for the [i]-th task object; both
    defaults of the timestamps are evaluated, whether used or not. *)
Definition row_of_json (i : nat) (t : json_task) : Row :=
  mkRow (j_id t) (j_title t) (default "" (j_description t)) (default 0 (j_priority t))
    (j_due t) (default "todo" (j_status t)) (default "" (j_tags t))
    (default (clock (2 * i)) (j_created_at t))
    (default (clock (2 * i + 1)) (j_updated_at t)).

Fixpoint insert_tasks (i : nat) (rows : list Row) (ts : list json_task) : res (list Row) :=
  match ts with
  | [] => Ok rows
  | t :: rest =>
      rows' ← insert_task rows (row_of_json i t); insert_tasks (S i) rows' rest
  end.

Fixpoint insert_deps (rows : list Row) (ds : list (Z * Z)) (pairs : list (Z * Z))
    : res (list (Z * Z)) :=
  match pairs with
  | [] => Ok ds
  | d :: rest => ds' ← insert_dep rows ds d; insert_deps rows ds' rest
  end.

(** [import_json]: the new state of the database.  When an [INSERT] raises,
    the connection is closed without a commit and the database keeps its
    prior state. *)
Definition import_json (db : database) (data : document) : res database :=
  let db := mkDatabase (tasks db) [] in
  let db := mkDatabase [] (deps db) in
  rows ← insert_tasks 0 (tasks db) (doc_tasks data);
  ds ← insert_deps rows (deps db) (doc_deps data);
  Ok (mkDatabase rows ds).

End Importing.

(** *** The other store operations *)

(** [_iso_now]; [utcnow] is what [datetime.utcnow()] reads. *)
Definition _iso_now (utcnow : datetime) : string :=
  datetime_isoformat
    (mkDatetime (dt_date utcnow) (hour utcnow) (minute utcnow) (second utcnow) 0
       (tzinfo utcnow)) +:+ "Z".

(** [get_task]: [fetchone] on [SELECT * FROM tasks WHERE id = ?]. *)
Definition get_task (db : database) (task_id : Z) : res (option Task) :=
  if decide (sqlite_int task_id) then
    match list_find (λ r, row_id r = task_id) (tasks db) with
    | Some (_, row) => t ← _row_to_task row; Ok (Some t)
    | None => Ok None
    end
  else Raise OverflowError.

(** [mark_done]: the [UPDATE], and whether [rowcount > 0]. *)
Definition mark_done (db : database) (utcnow : datetime) (task_id : Z)
    : res (bool * database) :=
  let now := _iso_now utcnow in
  if decide (sqlite_int task_id) then
    let rows :=
      (λ r, if decide (row_id r = task_id)
            then mkRow (row_id r) (row_title r) (row_description r) (row_priority r)
                   (row_due r) "done" (row_tags r) (row_created_at r) now
            else r) <$> tasks db in
    let rowcount := length (filter (λ r, row_id r = task_id) (tasks db)) in
    Ok (bool_decide (0 < rowcount)%nat, mkDatabase rows (deps db))
  else Raise OverflowError.

(** [add_dependency]: [INSERT OR IGNORE] skips a pair that is already
    there; the foreign keys are checked for a pair that is inserted. *)
Definition add_dependency (db : database) (task_id depends_on_id : Z) : res database :=
  if decide (sqlite_int task_id ∧ sqlite_int depends_on_id) then
    if decide ((task_id, depends_on_id) ∈ deps db) then Ok db
    else if decide (task_id ∈ row_id <$> tasks db ∧ depends_on_id ∈ row_id <$> tasks db)
    then Ok (mkDatabase (tasks db) (deps db ++ [(task_id, depends_on_id)]))
    else Raise IntegrityError
  else Raise OverflowError.

(** How an [INSERT] without an id ends on the [AUTOINCREMENT] table. *)
Inductive add_result : Type :=
  | Added (task_id : Z) (db : database)
  | AddRaises (e : exn)
  | TableFull.

(** The id that [AUTOINCREMENT] hands out: one more than the largest id
    in the table and than [seq], the largest id the table ever held
    (SQLite's [sqlite_sequence] counter, which is never negative). *)
Definition next_id (seq : Z) (rows : list Row) : Z :=
  Z.max seq (foldr Z.max 0 (row_id <$> rows)) + 1.

(** [add_task]. *)
Definition add_task (db : database) (seq : Z) (utcnow : datetime)
    (title description : string) (priority : Z) (due : option date) (tags : string)
    : add_result :=
  let now := _iso_now utcnow in
  let due_text := date_isoformat <$> due in
  if decide (sqlite_int priority) then
    let new_id := next_id seq (tasks db) in
    if decide (sqlite_int new_id) then
      Added new_id
        (mkDatabase
           (tasks db ++ [mkRow new_id title description priority due_text "todo" tags now now])
           (deps db))
    else TableFull
  else AddRaises OverflowError.

End Db.

Arguments Db.digit_char : simpl never.

(** ** Command layer *)

Module Cli.

Section Commands.

Context (set_iter : gset Z → list Z).

(** [cmd_depend], on the ids that [int(ns.task_id)] and
    [int(ns.prereq_id)] give: the exit code and the new state of the
    database.  What the command prints is left out. *)
Definition cmd_depend (db : Db.database) (task_id prereq_id : Z)
    : res (Z * Db.database) :=
  t ← Db.get_task db task_id;
  match t with
  | None => Ok (1, db)
  | Some _ =>
      p ← Db.get_task db prereq_id;
      match p with
      | None => Ok (1, db)
      | Some _ =>
          let edges := Db.get_dependencies db in
          match Graph.would_create_cycle set_iter edges task_id prereq_id with
          | None => OutOfFuel
          | Some true => Ok (1, db)
          | Some false => db' ← Db.add_dependency db task_id prereq_id; Ok (0, db')
          end
      end
  end.

(** [cmd_done]. *)
Definition cmd_done (db : Db.database) (utcnow : Db.datetime) (task_id : Z)
    : res (Z * Db.database) :=
  Db.mark_done db utcnow task_id ≫= λ r : bool * Db.database,
  if r.1 then Ok (0, r.2) else Ok (1, r.2).

End Commands.

End Cli.

(** * Specification vocabulary *)

(** The nodes that occur as an endpoint of some edge. *)
Definition endpoints (edges : list Edge) : gset Z :=
  list_to_set (edges.*1) ∪ list_to_set (edges.*2).

(** The out-edges recorded by an adjacency mapping. *)
Definition adj_edge (adj : gmap Z (gset Z)) (u v : Z) : Prop :=
  ∃ s, adj !! u = Some s ∧ v ∈ s.

(** The depends-on edges of an edge list. *)
Definition depends_on (edges : list Edge) (u v : Z) : Prop := (u, v) ∈ edges.

(** What holds of the stack and the visited set each time the [while]
    condition is tested, for a search from [start] with [start ≠ target]. *)
Record dfs_inv (adj : gmap Z (gset Z)) (start target : Z)
    (stack : list Z) (visited : gset Z) : Prop := {
  inv_reach : ∀ x, x ∈ stack ∨ x ∈ visited → rtc (adj_edge adj) start x;
  inv_target_stack : target ∉ stack;
  inv_target_visited : target ∉ visited;
  inv_closed : ∀ v w, v ∈ visited → adj_edge adj v w → w ∈ visited ∨ w ∈ stack;
  inv_start : start ∈ visited ∨ start ∈ stack
}.

(** The edges of [edges] with both endpoints in the node set: the ones
    that [topo_sort] does not skip. *)
Definition restrict (tasks_set : gset Z) (edges : list Edge) : list Edge :=
  filter (λ e, e.1 ∈ tasks_set ∧ e.2 ∈ tasks_set) edges.

(** The graph of [edges] restricted to the node set. *)
Definition edge_within (tasks_set : gset Z) (edges : list Edge) (task prereq : Z) : Prop :=
  (task, prereq) ∈ edges ∧ task ∈ tasks_set ∧ prereq ∈ tasks_set.

Definition has_cycle (tasks_set : gset Z) (edges : list Edge) : Prop :=
  ∃ x, tc (edge_within tasks_set edges) x x.

(** [x] stands at a strictly smaller position than [y] in [out]. *)
Definition before (out : list Z) (x y : Z) : Prop :=
  ∃ i j : nat, out !! i = Some x ∧ out !! j = Some y ∧ (i < j)%nat.

(** How many times [t] occurs as the dependent of an edge. *)
Definition mult (G : list Edge) (t : Z) : nat :=
  length (filter (λ e, e.1 = t) G).

(** How many edge occurrences of [t] point to a prerequisite that is not
    in [out] yet. *)
Definition pending (G : list Edge) (out : list Z) (t : Z) : nat :=
  length (filter (λ e, e.1 = t ∧ e.2 ∉ out) G).

(** What holds each time the [while q:] condition of [topo_sort] is tested. *)
Record kahn_inv (tasks_set : gset Z) (G : list Edge)
    (indegree : gmap Z Z) (q out : list Z) : Prop := {
  k_dom : dom indegree = tasks_set;
  k_nodup : NoDup (out ++ q);
  k_sub : ∀ x, x ∈ out ++ q → x ∈ tasks_set;
  k_deg : ∀ t, t ∈ tasks_set →
      ∃ d, indegree !! t = Some d ∧ Z.of_nat (pending G out t) ≤ d ∧
           (NoDup G → d = Z.of_nat (pending G out t));
  k_zero : ∀ t, t ∈ tasks_set → (t ∈ out ++ q ↔ indegree !! t = Some 0);
  k_order : ∀ t p, (t, p) ∈ G → t ∈ out → before out p t
}.

(** A document that [import_json] accepts: task ids and dependency pairs
    are listed once, every pair joins listed tasks, and the integers fit
    the columns. *)
Record wf_document (data : Db.document) : Prop := {
  wf_ids : NoDup (Db.j_id <$> Db.doc_tasks data);
  wf_pairs : NoDup (Db.doc_deps data);
  wf_refs : ∀ d, d ∈ Db.doc_deps data →
      d.1 ∈ Db.j_id <$> Db.doc_tasks data ∧ d.2 ∈ Db.j_id <$> Db.doc_tasks data;
  wf_ints : ∀ t, t ∈ Db.doc_tasks data →
      Db.sqlite_int (Db.j_id t) ∧ Db.sqlite_int (default 0 (Db.j_priority t))
}.

(** The last character of a text. *)
Fixpoint last_char (s : string) : option ascii :=
  match s with
  | EmptyString => None
  | String c EmptyString => Some c
  | String _ s' => last_char s'
  end.








(** The rows that [list_tasks] selects for a status argument. *)
Definition has_status (status : option string) (r : Db.Row) : Prop :=
  match status with
  | Some st => st = EmptyString ∨ Db.row_status r = st
  | None => True
  end.

#[global] Instance has_status_dec status r : Decision (has_status status r).
Proof. destruct status; simpl; apply _. Defined.

(** Every character of a text satisfies [P]. *)
Fixpoint all_chars (P : ascii → Prop) (s : string) : Prop :=
  match s with
  | EmptyString => True
  | String c s' => P c ∧ all_chars P s'
  end.




(** The row is ['todo'] and every row that it depends on is ['done']. *)
Definition is_ready (db : Db.database) (r : Db.Row) : Prop :=
  Db.row_status r = "todo" ∧
  ∀ prereq, prereq ∈ Db.tasks db → (Db.row_id r, Db.row_id prereq) ∈ Db.deps db →
            Db.row_status prereq = "done".

(** A store snapshot as the store itself keeps it: ids are a primary key,
    due dates are [YYYY-MM-DD] texts of calendar dates, and the timestamps
    can be read back. *)
Record wf_database (db : Db.database) : Prop := {
  wf_primary_key : NoDup (Db.row_id <$> Db.tasks db);
  wf_due : ∀ r s, r ∈ Db.tasks db → Db.row_due r = Some s →
      ∃ d, Db.valid_date d ∧ s = Db.date_isoformat d;
  wf_created_at : ∀ r, r ∈ Db.tasks db →
      is_Some (Db.datetime_fromisoformat (Db.replace_Z (Db.row_created_at r)));
  wf_updated_at : ∀ r, r ∈ Db.tasks db →
      is_Some (Db.datetime_fromisoformat (Db.replace_Z (Db.row_updated_at r)))
}.

(** No task depends, directly or through other tasks, on itself. *)
Definition edges_acyclic (edges : list Edge) : Prop :=
  ¬ ∃ x, tc (depends_on edges) x x.

(** How many prerequisites of [t] are in [out]. *)
Definition resolved (G : list Edge) (out : list Z) (t : Z) : nat :=
  length (filter (λ p, (t, p) ∈ G) out).

(** The counter [indegree[t]] is the number of listed edges of [t] less the
    number of its prerequisites that were output. *)
Definition kahn_count (tasks_set : gset Z) (G : list Edge)
    (indegree : gmap Z Z) (out : list Z) : Prop :=
  ∀ t, t ∈ tasks_set →
    indegree !! t = Some (Z.of_nat (mult G t) - Z.of_nat (resolved G out t)).

(** The state the command layer keeps the store in: ids are a primary
    key and fit an [INTEGER], rows can be read back, dependency pairs are
    listed once and join existing tasks, and no task depends on itself
    through any chain. *)
Record store_ok (db : Db.database) : Prop := {
  ok_primary_key : NoDup (Db.row_id <$> Db.tasks db);
  ok_ints : ∀ r, r ∈ Db.tasks db → Db.sqlite_int (Db.row_id r);
  ok_readable : ∀ r, r ∈ Db.tasks db → ∃ t, Db._row_to_task r = Ok t;
  ok_pairs : NoDup (Db.deps db);
  ok_refs : ∀ d, d ∈ Db.deps db →
      d.1 ∈ Db.row_id <$> Db.tasks db ∧ d.2 ∈ Db.row_id <$> Db.tasks db;
  ok_acyclic : edges_acyclic (Db.deps db)
}.

(** What [mark_done] makes of a row. *)
Definition done_row (now : string) (r : Db.Row) : Db.Row :=
  Db.mkRow (Db.row_id r) (Db.row_title r) (Db.row_description r) (Db.row_priority r)
    (Db.row_due r) "done" (Db.row_tags r) (Db.row_created_at r) now.

(** ** Example data *)

(** The two nodes of this graph depend on each other. *)
Definition two_cycle : gmap Z (gset Z) := {[ 1 := {[ 2 ]}; 2 := {[ 1 ]} ]}.

(** Tasks A and B, where B depends on A, and a third task with a due date;
    the timestamps are as [_iso_now] writes them. *)
Definition example_db : Db.database :=
  Db.mkDatabase
    [ Db.mkRow 1 "A" "" 1 None "todo" "" "2024-01-05T10:00:00Z" "2024-01-05T10:00:00Z";
      Db.mkRow 2 "B" "" 1 None "todo" "" "2024-01-05T10:00:01Z" "2024-01-05T10:00:01Z";
      Db.mkRow 3 "C" "" 0 (Some "2024-02-29") "todo" "school"
        "2024-01-05T10:00:02Z" "2024-01-06T09:30:00Z" ]
    [ (2, 1) ].

(** What [export_json] makes of [example_db]. *)
Definition example_export : Db.document :=
  Eval vm_compute in
    match Db.export_json example_db with
    | Ok doc => doc
    | _ => Db.mkDocument [] []
    end.

(** A clock that stands still. *)
Definition example_clock : nat → string := λ _, "2024-03-01T00:00:00Z".

(** A reading of the clock, microseconds included. *)
Definition example_now : Db.datetime :=
  Db.mkDatetime (Db.mkDate 2024 3 1) 12 0 0 123456 None.

(** [example_db] after [mark_done] on task 1. *)
Definition example_db_done : Db.database :=
  Eval vm_compute in
    match Db.mark_done example_db example_now 1 with
    | Ok r => r.2
    | _ => example_db
    end.

(** What [list_tasks] with status ['todo'] gives on [example_db_done]. *)
Definition example_todo : list Db.Task :=
  Eval vm_compute in
    match Db.list_tasks example_db_done (Some "todo") with
    | Ok ts => ts
    | _ => []
    end.

(** [example_db] after [add_task], when the largest id that the table
    ever held is 5. *)
Definition example_db_added : Db.database :=
  Eval vm_compute in
    match Db.add_task example_db 5 example_now "D" "" 2 (Some (Db.mkDate 2024 12 24)) "home" with
    | Db.Added _ db' => db'
    | _ => example_db
    end.

(** * Adjacency construction *)

Import Graph.

Lemma elem_of_endpoints edges k :
  k ∈ endpoints edges ↔ ∃ e, e ∈ edges ∧ (e.1 = k ∨ e.2 = k).
Proof.
  unfold endpoints. rewrite elem_of_union, !elem_of_list_to_set, !list_elem_of_fmap.
  naive_solver.
Qed.

Lemma build_adjacency_snoc edges e :
  build_adjacency (edges ++ [e]) = build_adjacency_step (build_adjacency edges) e.
Proof. unfold build_adjacency. by rewrite foldl_app. Qed.

Lemma adj_touch_lookup adj p k :
  adj_touch adj p !! k =
    if decide (k = p) then Some (default ∅ (adj !! p)) else adj !! k.
Proof.
  unfold adj_touch. destruct (adj !! p) as [s|] eqn:Hp; case_decide; subst; simpl;
    try done.
  - by rewrite lookup_insert_eq.
  - by rewrite lookup_insert_ne.
Qed.

Lemma adj_add_lookup adj t p k :
  adj_add adj t p !! k =
    if decide (k = t) then Some (default ∅ (adj !! t) ∪ {[p]}) else adj !! k.
Proof.
  unfold adj_add. case_decide; subst.
  - by rewrite lookup_insert_eq.
  - by rewrite lookup_insert_ne.
Qed.

Lemma build_adjacency_step_lookup adj t p k :
  build_adjacency_step adj (t, p) !! k =
    if decide (k = t) then Some (default ∅ (adj !! t) ∪ {[p]})
    else if decide (k = p) then Some (default ∅ (adj !! p))
    else adj !! k.
Proof.
  unfold build_adjacency_step. simpl. rewrite adj_touch_lookup, !adj_add_lookup.
  repeat case_decide; subst; simpl; congruence.
Qed.

(** The entry of [k] after the whole loop, described edge by edge. *)
Lemma build_adjacency_lookup edges k :
  (k ∉ endpoints edges ∧ build_adjacency edges !! k = None) ∨
  (k ∈ endpoints edges ∧
   ∃ s, build_adjacency edges !! k = Some s ∧ ∀ p, p ∈ s ↔ (k, p) ∈ edges).
Proof.
  induction edges as [|[t p] edges IH] using rev_ind.
  - left. split; [|done]. rewrite elem_of_endpoints. intros (e & He & _).
    by apply not_elem_of_nil in He.
  - rewrite build_adjacency_snoc, build_adjacency_step_lookup.
    assert (Hend : k ∈ endpoints (edges ++ [(t, p)]) ↔
                   k ∈ endpoints edges ∨ k = t ∨ k = p).
    { rewrite !elem_of_endpoints. setoid_rewrite elem_of_app.
      setoid_rewrite list_elem_of_singleton. split.
      - intros (e & [He | ->] & Hk); [left; eauto | right; simpl in Hk; naive_solver].
      - intros [(e & He & Hk) | Hk]; [eauto |].
        exists (t, p). simpl. naive_solver. }
    assert (Hfresh : ∀ q, k ∉ endpoints edges → (k, q) ∉ edges).
    { intros q Hk Hq. apply Hk, elem_of_endpoints. exists (k, q). auto. }
    setoid_rewrite elem_of_app. setoid_rewrite list_elem_of_singleton.
    destruct IH as [[Hk Hnone] | [Hk (s & Hs & Hmem)]].
    + destruct (decide (k = t)) as [-> | Hkt]; [| destruct (decide (k = p)) as [-> | Hkp]].
      * right. split; [apply Hend; auto |]. rewrite Hnone. simpl.
        eexists; split; [done |]. intros q. specialize (Hfresh q Hk).
        rewrite elem_of_union, elem_of_singleton. split.
        -- intros [Hq | ->]; [set_solver | auto].
        -- intros [Hq | Hq]; [done | right; congruence].
      * right. split; [apply Hend; auto |]. rewrite Hnone. simpl.
        eexists; split; [done |]. intros q. specialize (Hfresh q Hk).
        split; [set_solver |]. intros [Hq | Hq]; [done | congruence].
      * left. split; [rewrite Hend; naive_solver | done].
    + right. split; [apply Hend; auto |].
      destruct (decide (k = t)) as [-> | Hkt]; [| destruct (decide (k = p)) as [-> | Hkp]];
        rewrite Hs; simpl; (eexists; split; [done |]); intros q;
        rewrite ?elem_of_union, ?elem_of_singleton, Hmem.
      * split; [intros [? | ->]; auto | intros [? | ?]; [auto | right; congruence]].
      * split; [auto | intros [? | ?]; [done | congruence]].
      * split; [auto | intros [? | ?]; [done | congruence]].
Qed.

(** C6.  The keys of [build_adjacency edges] are exactly the nodes that
    are an endpoint of some edge; the entry of a key [task] is exactly the
    set of the [prereq] with [(task, prereq)] among the edges; a node that
    occurs only as a prerequisite is a key with the empty set; and two edge
    lists with the same members, in whatever order and multiplicity, give
    the same mapping. *)
Theorem build_adjacency_spec (edges : list Edge) :
  (∀ k, k ∈ dom (build_adjacency edges) ↔
        ∃ e, e ∈ edges ∧ (e.1 = k ∨ e.2 = k)) ∧
  (∀ task s, build_adjacency edges !! task = Some s →
        ∀ prereq, prereq ∈ s ↔ (task, prereq) ∈ edges) ∧
  (∀ k, (∃ task, (task, k) ∈ edges) → (∀ prereq, (k, prereq) ∉ edges) →
        build_adjacency edges !! k = Some ∅) ∧
  (∀ edges', (∀ e, e ∈ edges ↔ e ∈ edges') →
        build_adjacency edges' = build_adjacency edges).
Proof.
  split; [| split; [| split]].
  - intros k. rewrite <- elem_of_endpoints, elem_of_dom.
    destruct (build_adjacency_lookup edges k) as [[Hk Hnone] | [Hk (s & Hs & _)]].
    + rewrite Hnone. split; [by intros [? ?] | done].
    + rewrite Hs. split; [done | eauto].
  - intros task s Hs.
    destruct (build_adjacency_lookup edges task) as [[_ Hnone] | [_ (s' & Hs' & Hmem)]];
      [congruence |].
    by replace s with s' by congruence.
  - intros k [task Htk] Hno.
    destruct (build_adjacency_lookup edges k) as [[Hk _] | [_ (s & Hs & Hmem)]].
    + exfalso. apply Hk, elem_of_endpoints. exists (task, k). auto.
    + rewrite Hs. f_equal. apply set_eq. intros p. rewrite Hmem.
      split; [by intros ?%Hno | set_solver].
  - intros edges' Hsame. apply map_eq. intros k.
    assert (Hends : k ∈ endpoints edges' ↔ k ∈ endpoints edges).
    { rewrite !elem_of_endpoints. by setoid_rewrite Hsame. }
    destruct (build_adjacency_lookup edges k) as [[Hk ->] | [Hk (s & -> & Hmem)]];
      destruct (build_adjacency_lookup edges' k) as [[Hk' ->] | [Hk' (s' & -> & Hmem')]];
      try done; try tauto.
    f_equal. apply set_eq. intros p. by rewrite Hmem, Hmem', Hsame.
Qed.

(** * Reachability search *)

Section EngineFacts.

Context (set_iter : gset Z → list Z).
Hypothesis set_iter_perm : ∀ X, set_iter X ≡ₚ elements X.

Local Abbreviation has_path_loop := (Graph.has_path_loop set_iter).
Local Abbreviation has_path_expansions := (Graph.has_path_expansions set_iter).
Local Abbreviation has_path_fuel := (Graph.has_path_fuel set_iter).
Local Abbreviation has_path := (Graph.has_path set_iter).
Local Abbreviation would_create_cycle := (Graph.would_create_cycle set_iter).


Lemma elem_of_set_iter X x : x ∈ set_iter X ↔ x ∈ X.
Proof. by rewrite set_iter_perm, elem_of_elements. Qed.

Lemma length_set_iter X : length (set_iter X) = size X.
Proof. by rewrite set_iter_perm. Qed.

Lemma NoDup_set_iter X : NoDup (set_iter X).
Proof. rewrite set_iter_perm. apply NoDup_elements. Qed.

Lemma elem_of_neighbours adj node x :
  x ∈ set_iter (default ∅ (adj !! node)) ↔ adj_edge adj node x.
Proof.
  rewrite elem_of_set_iter. unfold adj_edge.
  destruct (adj !! node) as [s|]; simpl; [naive_solver | set_solver].
Qed.

Lemma scan_neighbours_spec target visited nbrs stack :
  match scan_neighbours target visited nbrs stack with
  | Found => target ∈ nbrs
  | Continue stack' =>
      target ∉ nbrs ∧
      (∀ x, x ∈ stack' ↔ x ∈ stack ∨ (x ∈ nbrs ∧ x ∉ visited)) ∧
      (length stack' ≤ length stack + length nbrs)%nat
  end.
Proof.
  revert stack. induction nbrs as [|nxt rest IH]; intros stack; simpl.
  - split; [apply not_elem_of_nil |]. split; [| lia].
    intros x. rewrite elem_of_nil. naive_solver.
  - destruct (decide (nxt = target)) as [-> | Hne]; [apply list_elem_of_here |].
    destruct (decide (nxt ∈ visited)) as [Hin | Hnin].
    + specialize (IH stack). destruct (scan_neighbours _ _ rest stack).
      * by apply list_elem_of_further.
      * destruct IH as (Ht & Hmem & Hlen). split; [|split].
        -- rewrite elem_of_cons. naive_solver.
        -- intros x. rewrite Hmem, elem_of_cons. naive_solver.
        -- lia.
    + specialize (IH (nxt :: stack)). destruct (scan_neighbours _ _ rest (nxt :: stack)).
      * by apply list_elem_of_further.
      * destruct IH as (Ht & Hmem & Hlen). split; [|split].
        -- rewrite elem_of_cons. naive_solver.
        -- intros x. rewrite Hmem, !elem_of_cons. naive_solver.
        -- simpl in Hlen. lia.
Qed.

Lemma dfs_inv_init adj start target :
  start ≠ target → dfs_inv adj start target [start] ∅.
Proof.
  intros Hne. split.
  - intros x [Hx | Hx]; [| set_solver]. apply list_elem_of_singleton in Hx as ->. done.
  - rewrite list_elem_of_singleton. congruence.
  - set_solver.
  - set_solver.
  - right. apply list_elem_of_here.
Qed.

Lemma dfs_inv_skip adj start target node stack visited :
  dfs_inv adj start target (node :: stack) visited → node ∈ visited →
  dfs_inv adj start target stack visited.
Proof.
  intros [Hreach Hts Htv Hcl Hst] Hin. split; auto.
  - intros x [Hx | Hx]; apply Hreach; [left; by apply list_elem_of_further | by right].
  - intros Ht. apply Hts. by apply list_elem_of_further.
  - intros v w Hv Hvw. destruct (Hcl v w Hv Hvw) as [? | Hw]; [by left |].
    apply elem_of_cons in Hw as [-> | Hw]; auto.
  - destruct Hst as [? | Hs]; [by left |].
    apply elem_of_cons in Hs as [-> | Hs]; auto.
Qed.

Lemma dfs_inv_expand adj start target node stack stack' visited :
  dfs_inv adj start target (node :: stack) visited → node ∉ visited →
  scan_neighbours target (visited ∪ {[node]})
    (set_iter (default ∅ (adj !! node))) stack = Continue stack' →
  dfs_inv adj start target stack' (visited ∪ {[node]}).
Proof.
  intros [Hreach Hts Htv Hcl Hst] Hnin Hscan.
  pose proof (scan_neighbours_spec target (visited ∪ {[node]})
                (set_iter (default ∅ (adj !! node))) stack) as Hspec.
  rewrite Hscan in Hspec. destruct Hspec as (Ht & Hmem & _).
  assert (Hnode : rtc (adj_edge adj) start node).
  { apply Hreach. left. apply list_elem_of_here. }
  split.
  - intros x [Hx | Hx].
    + apply Hmem in Hx as [Hx | [Hx _]].
      * apply Hreach. left. by apply list_elem_of_further.
      * apply elem_of_neighbours in Hx. by eapply rtc_r.
    + apply elem_of_union in Hx as [Hx | Hx]; [apply Hreach; by right |].
      by apply elem_of_singleton in Hx as ->.
  - rewrite Hmem. intros [Hx | [Hx _]]; [| done].
    apply Hts. by apply list_elem_of_further.
  - rewrite elem_of_union, elem_of_singleton. intros [? | ->]; [done |].
    apply Hts. apply list_elem_of_here.
  - intros v w Hv Hvw. rewrite Hmem.
    destruct (decide (w ∈ visited ∪ {[node]})) as [? | Hw]; [by left | right].
    apply elem_of_union in Hv as [Hv | Hv].
    + destruct (Hcl v w Hv Hvw) as [? | Hin]; [set_solver |].
      apply elem_of_cons in Hin as [-> | Hin]; [set_solver | by left].
    + apply elem_of_singleton in Hv as ->. right. split; [| done].
      by apply elem_of_neighbours.
  - destruct Hst as [? | Hs]; [left; set_solver |].
    apply elem_of_cons in Hs as [-> | Hs]; [left; set_solver |].
    right. apply Hmem. by left.
Qed.

(** A set of nodes that is closed under the out-edges holds everything
    reachable from its members. *)
Lemma closed_rtc adj (visited : gset Z) u v :
  (∀ x y, x ∈ visited → adj_edge adj x y → y ∈ visited) →
  rtc (adj_edge adj) u v → u ∈ visited → v ∈ visited.
Proof. intros Hcl Hrtc. induction Hrtc; eauto. Qed.

Lemma has_path_loop_correct adj start target fuel stack visited b :
  dfs_inv adj start target stack visited →
  has_path_loop fuel adj target stack visited = Some b →
  b = true ↔ rtc (adj_edge adj) start target.
Proof.
  revert stack visited. induction fuel as [|fuel IH]; intros stack visited Hinv; [done |].
  simpl. destruct stack as [|node stack].
  - intros [= <-]. split; [done |]. intros Hrtc. exfalso.
    destruct Hinv as [_ _ Htv Hcl Hst].
    assert (Hs : start ∈ visited).
    { destruct Hst as [? | Hs]; [done | by apply not_elem_of_nil in Hs]. }
    apply Htv. eapply closed_rtc; [| done | done].
    intros x y Hx Hxy. destruct (Hcl x y Hx Hxy) as [? | Hy]; [done |].
    by apply not_elem_of_nil in Hy.
  - destruct (decide (node ∈ visited)) as [Hin | Hnin].
    + apply IH. by eapply dfs_inv_skip.
    + destruct (scan_neighbours _ _ _ stack) as [|stack'] eqn:Hscan.
      * intros [= <-]. split; [intros _ | done].
        pose proof (scan_neighbours_spec target (visited ∪ {[node]})
                      (set_iter (default ∅ (adj !! node))) stack) as Hspec.
        rewrite Hscan in Hspec. apply elem_of_neighbours in Hspec.
        eapply rtc_r; [| done]. apply (inv_reach _ _ _ _ _ Hinv).
        left. apply list_elem_of_here.
      * apply IH. by eapply dfs_inv_expand.
Qed.


(** **** Termination of the search *)

Lemma expand_cost_mono adj visited node k :
  (expand_cost adj (visited ∪ {[node]}) k ≤ expand_cost adj visited k)%nat.
Proof.
  unfold expand_cost. repeat case_decide; try lia. set_solver.
Qed.

Lemma sum_expand_cost_mono adj visited node (l : list Z) :
  (sum_list_with (expand_cost adj (visited ∪ {[node]})) l
   ≤ sum_list_with (expand_cost adj visited) l)%nat.
Proof.
  induction l as [|k l IH]; simpl; [lia |].
  pose proof (expand_cost_mono adj visited node k). lia.
Qed.

(** Visiting an unvisited key of [adj] pays for its whole neighbour set. *)
Lemma sum_expand_cost_visit adj visited node (l : list Z) :
  node ∉ visited → node ∈ l →
  (sum_list_with (expand_cost adj (visited ∪ {[node]})) l
   + S (size (default ∅ (adj !! node)))
   ≤ sum_list_with (expand_cost adj visited) l)%nat.
Proof.
  intros Hnin. induction l as [|k l IH]; intros Hin; [by apply not_elem_of_nil in Hin |].
  simpl. destruct (decide (k = node)) as [-> | Hne].
  - pose proof (sum_expand_cost_mono adj visited node l).
    unfold expand_cost at 1 3.
    rewrite decide_True by set_solver. rewrite decide_False by done. lia.
  - apply elem_of_cons in Hin as [-> | Hin]; [done |].
    pose proof (expand_cost_mono adj visited node k). specialize (IH Hin). lia.
Qed.

Lemma loop_budget_skip adj node stack visited :
  (loop_budget adj stack visited < loop_budget adj (node :: stack) visited)%nat.
Proof. unfold loop_budget. simpl. lia. Qed.

Lemma loop_budget_expand adj target node stack stack' visited :
  node ∉ visited →
  scan_neighbours target (visited ∪ {[node]})
    (set_iter (default ∅ (adj !! node))) stack = Continue stack' →
  (loop_budget adj stack' (visited ∪ {[node]})
   < loop_budget adj (node :: stack) visited)%nat.
Proof.
  intros Hnin Hscan.
  pose proof (scan_neighbours_spec target (visited ∪ {[node]})
                (set_iter (default ∅ (adj !! node))) stack) as Hspec.
  rewrite Hscan in Hspec. destruct Hspec as (_ & _ & Hlen).
  rewrite length_set_iter in Hlen. unfold loop_budget. simpl.
  destruct (adj !! node) as [s|] eqn:Hnode.
  - assert (Hin : node ∈ elements (dom adj)).
    { apply elem_of_elements, elem_of_dom. eauto. }
    pose proof (sum_expand_cost_visit adj visited node _ Hnin Hin) as Hsum.
    rewrite Hnode in Hsum. simpl in *. lia.
  - pose proof (sum_expand_cost_mono adj visited node (elements (dom adj))).
    change (size (default ∅ None)) with (size (∅ : gset Z)) in Hlen.
    rewrite size_empty in Hlen. lia.
Qed.

(** The loop returns whenever its fuel exceeds its budget. *)
Lemma has_path_loop_terminates adj target fuel stack visited :
  (loop_budget adj stack visited < fuel)%nat →
  is_Some (has_path_loop fuel adj target stack visited).
Proof.
  revert stack visited. induction fuel as [|fuel IH]; intros stack visited Hlt; [lia |].
  simpl. destruct stack as [|node stack]; [eauto |].
  destruct (decide (node ∈ visited)) as [Hin | Hnin].
  - apply IH. pose proof (loop_budget_skip adj node stack visited). lia.
  - destruct (scan_neighbours _ _ _ stack) as [|stack'] eqn:Hscan; [eauto |].
    apply IH. pose proof (loop_budget_expand _ _ _ _ _ _ Hnin Hscan). lia.
Qed.

(** More fuel never changes a result. *)
Lemma has_path_loop_fuel_mono adj target fuel fuel' stack visited b :
  (fuel ≤ fuel')%nat →
  has_path_loop fuel adj target stack visited = Some b →
  has_path_loop fuel' adj target stack visited = Some b.
Proof.
  revert fuel' stack visited. induction fuel as [|fuel IH]; intros fuel' stack visited Hle; [done |].
  destruct fuel' as [|fuel']; [lia |]. simpl.
  destruct stack as [|node stack]; [done |].
  destruct (decide (node ∈ visited)); [apply IH; lia |].
  destruct (scan_neighbours _ _ _ stack); [done | apply IH; lia].
Qed.

Lemma loop_budget_start adj start :
  loop_budget adj [start] ∅ = loop_budget adj [0] ∅.
Proof. done. Qed.

Lemma has_path_fuel_terminates adj start target fuel :
  (has_path_bound adj ≤ fuel)%nat →
  is_Some (has_path_fuel fuel adj start target).
Proof.
  intros Hle. unfold has_path_fuel. case_decide; [eauto |].
  apply has_path_loop_terminates. rewrite (loop_budget_start adj start).
  unfold has_path_bound in Hle. lia.
Qed.

Lemma has_path_fuel_correct adj start target fuel b :
  has_path_fuel fuel adj start target = Some b →
  b = true ↔ rtc (adj_edge adj) start target.
Proof.
  unfold has_path_fuel. case_decide as Heq.
  - intros [= <-]. by subst.
  - apply has_path_loop_correct. by apply dfs_inv_init.
Qed.

Lemma has_path_returns adj start target :
  ∃ b, ∀ fuel, (has_path_bound adj ≤ fuel)%nat →
    has_path_fuel fuel adj start target = Some b.
Proof.
  destruct (has_path_fuel_terminates adj start target (has_path_bound adj))
    as [b Hb]; [lia |].
  exists b. intros fuel Hle. revert Hb. unfold Graph.has_path_fuel.
  case_decide; [done |]. intros Hb. by eapply has_path_loop_fuel_mono.
Qed.

Lemma adj_edge_build_adjacency edges u v :
  adj_edge (build_adjacency edges) u v ↔ depends_on edges u v.
Proof.
  unfold adj_edge, depends_on.
  destruct (build_adjacency_lookup edges u) as [[Hu Hnone] | [Hu (s & Hs & Hmem)]].
  - rewrite Hnone. split; [naive_solver |]. intros Huv. exfalso.
    apply Hu, elem_of_endpoints. exists (u, v). auto.
  - rewrite Hs. split.
    + intros (s' & [= <-] & Hv). by apply Hmem.
    + intros Huv. exists s. split; [done | by apply Hmem].
Qed.

Lemma rtc_depends_on_build_adjacency edges u v :
  rtc (adj_edge (build_adjacency edges)) u v ↔ rtc (depends_on edges) u v.
Proof.
  split; intros Hrtc; induction Hrtc; try done;
    (eapply rtc_l; [| done]); by apply adj_edge_build_adjacency.
Qed.

(** A path of at least one hop, for distinct end points, is any path. *)
Lemma rtc_ne_nsteps_S {A} (R : relation A) (x y : A) :
  x ≠ y → rtc R x y ↔ ∃ n, nsteps R (S n) x y.
Proof.
  intros Hne. split.
  - intros Hrtc. apply rtc_nsteps in Hrtc as [[|n] Hn]; [| eauto].
    inversion Hn; by subst.
  - intros [n Hn]. by eapply rtc_nsteps_2.
Qed.

(** C5.  [has_path adj start target] returns, and it returns [True] exactly
    when some path of zero or more hops along the out-edges of [adj] leads
    from [start] to [target]; a path of zero hops is the one from a node to
    itself, so [has_path adj a a] is [True] for every [a], whether or not
    [a] is a key of [adj]. *)
Theorem has_path_reachable (adj : gmap Z (gset Z)) (start target : Z) :
  (∃ b, has_path adj start target = Some b ∧
        (b = true ↔ ∃ hops : nat, nsteps (adj_edge adj) hops start target)) ∧
  (nsteps (adj_edge adj) 0 start target ↔ start = target) ∧
  (∀ a, has_path adj a a = Some true).
Proof.
  split; [| split].
  - destruct (has_path_fuel_terminates adj start target (has_path_bound adj))
      as [b Hb]; [lia |].
    exists b. split; [done |].
    rewrite <- rtc_nsteps. by eapply has_path_fuel_correct.
  - split; [by inversion 1 | intros ->; constructor].
  - intros a. unfold Graph.has_path, Graph.has_path_fuel. by rewrite decide_True.
Qed.

(** C1.  [would_create_cycle edges task_id prereq_id] returns; the result
    is [True] when [task_id = prereq_id], whatever the edges, and otherwise
    it is [True] exactly when a path of one or more depends-on hops leads
    from [prereq_id] to [task_id] in the graph of [edges], and [False] if
    there is none. *)
Theorem would_create_cycle_spec (edges : list Edge) (task_id prereq_id : Z) :
  ∃ b, would_create_cycle edges task_id prereq_id = Some b ∧
       (task_id = prereq_id → b = true) ∧
       (task_id ≠ prereq_id →
          (b = true ↔ ∃ n, nsteps (depends_on edges) (S n) prereq_id task_id)).
Proof.
  unfold Graph.would_create_cycle. case_decide as Heq.
  - exists true. by repeat split.
  - destruct (has_path_fuel_terminates (build_adjacency edges) prereq_id task_id
                (has_path_bound (build_adjacency edges))) as [b Hb]; [lia |].
    exists b. split; [done |]. split; [done |]. intros _.
    rewrite <- rtc_ne_nsteps_S by congruence.
    rewrite <- rtc_depends_on_build_adjacency.
    by eapply has_path_fuel_correct.
Qed.

Lemma has_path_expansions_fresh adj target fuel stack visited x :
  x ∈ has_path_expansions fuel adj target stack visited → x ∉ visited.
Proof.
  revert stack visited. induction fuel as [|fuel IH]; intros stack visited; simpl.
  { by intros ?%not_elem_of_nil. }
  destruct stack as [|node stack]; [by intros ?%not_elem_of_nil |].
  destruct (decide (node ∈ visited)) as [Hin | Hnin]; [apply IH |].
  intros Hx. apply elem_of_cons in Hx as [-> | Hx]; [done |].
  destruct (scan_neighbours _ _ _ stack); [by apply not_elem_of_nil in Hx |].
  apply IH in Hx. set_solver.
Qed.

Lemma has_path_expansions_NoDup adj target fuel stack visited :
  NoDup (has_path_expansions fuel adj target stack visited).
Proof.
  revert stack visited. induction fuel as [|fuel IH]; intros stack visited; simpl.
  { constructor. }
  destruct stack as [|node stack]; [constructor |].
  destruct (decide (node ∈ visited)) as [Hin | Hnin]; [apply IH |].
  constructor.
  - destruct (scan_neighbours _ _ _ stack); [apply not_elem_of_nil |].
    intros Hx%has_path_expansions_fresh. set_solver.
  - destruct (scan_neighbours _ _ _ stack); [constructor | apply IH].
Qed.

(** C10.  [has_path] returns for every adjacency mapping and every pair of
    nodes, with no assumption that the graph is acyclic: [has_path_bound adj]
    iterations of the loop are always enough, and more change nothing.  The
    reason is the visited set: no run of the loop expands a node twice. *)
Theorem has_path_terminates (adj : gmap Z (gset Z)) (start target : Z) :
  (∃ b, has_path adj start target = Some b ∧
        ∀ fuel, (has_path_bound adj ≤ fuel)%nat →
                has_path_fuel fuel adj start target = Some b) ∧
  (∀ fuel, NoDup (has_path_expansions fuel adj target [start] ∅)).
Proof.
  split.
  - destruct (has_path_returns adj start target) as [b Hb].
    exists b. split; [apply Hb; unfold Graph.has_path; lia | done].
  - intros fuel. apply has_path_expansions_NoDup.
Qed.

End EngineFacts.

(** * Topological sort *)

Lemma elem_of_restrict tasks_set edges t p :
  (t, p) ∈ restrict tasks_set edges ↔ edge_within tasks_set edges t p.
Proof. unfold restrict, edge_within. rewrite list_elem_of_filter. simpl. tauto. Qed.

Lemma restrict_cons tasks_set e edges :
  restrict tasks_set (e :: edges) =
    if decide (e.1 ∈ tasks_set ∧ e.2 ∈ tasks_set)
    then e :: restrict tasks_set edges else restrict tasks_set edges.
Proof. unfold restrict. by rewrite filter_cons. Qed.

Lemma mult_cons e G t :
  mult (e :: G) t = ((if decide (e.1 = t) then 1 else 0) + mult G t)%nat.
Proof. unfold mult. rewrite filter_cons. by case_decide. Qed.

Lemma pending_nil G t : pending G [] t = mult G t.
Proof.
  unfold pending, mult. f_equal. apply list_filter_iff.
  intros e. rewrite elem_of_nil. tauto.
Qed.

(** Edges are skipped by the loop exactly when [restrict] drops them. *)
Lemma record_edges_restrict tasks_set st edges :
  record_edges tasks_set st edges = record_edges tasks_set st (restrict tasks_set edges).
Proof.
  revert st. induction edges as [|[t p] edges IH]; intros st; [done |].
  rewrite restrict_cons. simpl.
  destruct (decide (t ∈ tasks_set ∧ p ∈ tasks_set)) as [Hin | Hout].
  - simpl. rewrite decide_False by tauto.
    destruct (dict_get st.2 t) as [d | e |]; simpl; [apply IH | done | done].
  - rewrite decide_True; [apply IH |].
    destruct (decide (t ∈ tasks_set)); [| by left].
    destruct (decide (p ∈ tasks_set)); [tauto | by right].
Qed.

Lemma record_edges_spec tasks_set edges st :
  dom st.2 = tasks_set →
  ∃ st', record_edges tasks_set st edges = Ok st' ∧
    dom st'.2 = tasks_set ∧
    (∀ t p, t ∈ default ∅ (st'.1 !! p) ↔
            t ∈ default ∅ (st.1 !! p) ∨ (t, p) ∈ restrict tasks_set edges) ∧
    (∀ t, st'.2 !! t =
          (λ d, d + Z.of_nat (mult (restrict tasks_set edges) t)) <$> st.2 !! t).
Proof.
  revert st. induction edges as [|[t p] edges IH]; intros st Hdom.
  - exists st. split; [done |]. split; [done |]. split.
    + intros t p. unfold restrict. rewrite filter_nil, elem_of_nil. tauto.
    + intros t. unfold restrict, mult. rewrite !filter_nil. simpl.
      destruct (st.2 !! t); simpl; [f_equal; lia | done].
  - rewrite restrict_cons. simpl.
    destruct (decide (t ∈ tasks_set ∧ p ∈ tasks_set)) as [Hin | Hout].
    + rewrite decide_False by tauto. destruct Hin as [Ht Hp].
      assert (is_Some (st.2 !! t)) as [d Hd] by (apply elem_of_dom; by rewrite Hdom).
      unfold dict_get. rewrite Hd. simpl.
      destruct (IH (<[p := default ∅ (st.1 !! p) ∪ {[t]}]> st.1, <[t := d + 1]> st.2))
        as (st' & Hrun & Hdom' & Hdeps & Hdeg).
      { simpl. rewrite dom_insert_L, Hdom. set_solver. }
      exists st'. split; [done |]. split; [done |]. simpl in *. split.
      * intros t' p'. rewrite Hdeps, elem_of_cons.
        destruct (decide (p' = p)) as [-> | Hne].
        -- rewrite lookup_insert_eq. simpl. rewrite elem_of_union, elem_of_singleton.
           naive_solver.
        -- rewrite lookup_insert_ne by done. naive_solver.
      * intros t'. rewrite Hdeg, mult_cons. simpl.
        destruct (decide (t = t')) as [<- | Hne].
        -- rewrite lookup_insert_eq, Hd. simpl. f_equal. lia.
        -- rewrite lookup_insert_ne by done.
           destruct (st.2 !! t'); simpl; [f_equal; lia | done].
    + assert (Hskip : t ∉ tasks_set ∨ p ∉ tasks_set).
      { destruct (decide (t ∈ tasks_set)); [| by left].
        destruct (decide (p ∈ tasks_set)); [tauto | by right]. }
      rewrite decide_True by done. apply IH. done.
Qed.

(** How many times the edge [(t, n)] occurs. *)
Lemma pending_snoc G out n t :
  n ∉ out →
  (pending G (out ++ [n]) t + length (filter (λ e, e = (t, n)) G) = pending G out t)%nat.
Proof.
  intros Hn. unfold pending. induction G as [|e G IH]; [done |].
  rewrite !filter_cons.
  destruct (decide (e = (t, n))) as [-> | Hne].
  - rewrite decide_False.
    2:{ intros [_ Hp]. apply Hp. apply elem_of_app. right. apply list_elem_of_here. }
    rewrite decide_True by (by split). cbn [length]. lia.
  - destruct (decide (e.1 = t ∧ e.2 ∉ out)) as [[Ht Hp] | Hno].
    + rewrite decide_True; [cbn [length]; lia |]. split; [done |].
      rewrite elem_of_app, list_elem_of_singleton. intros [? | Heq]; [done |].
      apply Hne. destruct e; simpl in *; congruence.
    + rewrite decide_False; [done |]. intros [Ht Hp]. apply Hno. split; [done |].
      intros Hin. apply Hp. apply elem_of_app. by left.
Qed.

Lemma occurrences_pos (G : list Edge) e :
  e ∈ G → (1 ≤ length (filter (λ e', e' = e) G))%nat.
Proof.
  intros Hin. induction G as [|e' G IH]; [by apply not_elem_of_nil in Hin |].
  rewrite filter_cons. case_decide as Heq; [simpl; lia |].
  apply elem_of_cons in Hin as [-> | Hin]; [done | by apply IH].
Qed.

Lemma occurrences_zero (G : list Edge) e :
  e ∉ G → length (filter (λ e', e' = e) G) = 0%nat.
Proof.
  intros Hin. induction G as [|e' G IH]; [done |].
  rewrite filter_cons. apply not_elem_of_cons in Hin as [Hne Hin].
  rewrite decide_False by congruence. by apply IH.
Qed.

Lemma occurrences_NoDup (G : list Edge) e :
  NoDup G → (length (filter (λ e', e' = e) G) ≤ 1)%nat.
Proof.
  induction 1 as [|e' G Hnin Hnd IH]; [simpl; lia |].
  rewrite filter_cons. case_decide as Heq; [| done].
  subst. cbn [length]. rewrite occurrences_zero by done. lia.
Qed.

Lemma pending_zero G out t p :
  pending G out t = 0%nat → (t, p) ∈ G → p ∈ out.
Proof.
  unfold pending. intros Hz Hin.
  destruct (decide (p ∈ out)) as [? | Hp]; [done | exfalso].
  assert (Hf : (t, p) ∈ filter (λ e, e.1 = t ∧ e.2 ∉ out) G).
  { apply list_elem_of_filter. by repeat split. }
  apply length_zero_iff_nil in Hz. rewrite Hz in Hf. by apply not_elem_of_nil in Hf.
Qed.

Lemma pending_pos G out t p :
  (t, p) ∈ G → p ∉ out → (1 ≤ pending G out t)%nat.
Proof.
  intros Hin Hp. destruct (pending G out t) as [|k] eqn:Hk; [| lia].
  exfalso. apply Hp. by eapply pending_zero.
Qed.

Lemma before_snoc out n x y : before out x y → before (out ++ [n]) x y.
Proof.
  intros (i & j & Hi & Hj & Hlt). exists i, j.
  split; [by apply lookup_app_l_Some |]. split; [by apply lookup_app_l_Some | done].
Qed.

Lemma before_snoc_last out n x : x ∈ out → before (out ++ [n]) x n.
Proof.
  intros (i & Hi)%list_elem_of_lookup. exists i, (length out).
  split; [by apply lookup_app_l_Some |]. split.
  - by rewrite list_lookup_middle.
  - by eapply lookup_lt_Some.
Qed.

Lemma before_trans out x y z :
  NoDup out → before out x y → before out y z → before out x z.
Proof.
  intros Hnd (i & j & Hi & Hj & Hlt) (j' & k & Hj' & Hk & Hlt').
  assert (j = j') as <- by (by eapply NoDup_lookup).
  exists i, k. repeat split; try done. lia.
Qed.

Lemma before_irrefl out x : NoDup out → ¬ before out x x.
Proof.
  intros Hnd (i & j & Hi & Hj & Hlt).
  assert (i = j) by (by eapply NoDup_lookup). lia.
Qed.

Lemma filter_ext_elem_of {A} (P Q : A → Prop)
    `{!∀ x, Decision (P x), !∀ x, Decision (Q x)} (l : list A) :
  (∀ x, x ∈ l → P x ↔ Q x) → filter P l = filter Q l.
Proof.
  induction l as [|a l IH]; intros Hext; [done |].
  rewrite !filter_cons.
  rewrite IH by (intros x Hx; apply Hext; by apply list_elem_of_further).
  destruct (decide (P a)) as [HP | HP].
  - rewrite decide_True; [done |]. apply Hext; [apply list_elem_of_here | done].
  - rewrite decide_False; [done |]. intros HQ. apply HP.
    apply Hext; [apply list_elem_of_here | done].
Qed.

(** The [for dep in ...] loop over distinct keys of [indegree]: every one
    of them is decremented once, and those that reach zero are appended to
    the queue in order. *)
Lemma relax_spec deps indegree q :
  NoDup deps → (∀ x, x ∈ deps → is_Some (indegree !! x)) →
  ∃ indegree',
    relax deps indegree q =
      Ok (indegree', q ++ filter (λ t, indegree !! t = Some 1) deps) ∧
    dom indegree' = dom indegree ∧
    ∀ t, indegree' !! t =
         if decide (t ∈ deps) then (λ d, d - 1) <$> indegree !! t else indegree !! t.
Proof.
  intros Hnd. revert indegree q.
  induction Hnd as [|dep rest Hnin Hnd IH]; intros indegree q Hkeys.
  - exists indegree. simpl. rewrite filter_nil, app_nil_r. repeat split; try done.
  - destruct (Hkeys dep) as [d Hd]; [apply list_elem_of_here |].
    simpl. unfold dict_get. rewrite Hd. simpl.
    assert (Hkeys' : ∀ x, x ∈ rest → is_Some (<[dep := d - 1]> indegree !! x)).
    { intros x Hx. rewrite lookup_insert_ne by (intros ->; done).
      apply Hkeys. by apply list_elem_of_further. }
    assert (Hfilter : filter (λ t, <[dep := d - 1]> indegree !! t = Some 1) rest
                      = filter (λ t, indegree !! t = Some 1) rest).
    { apply filter_ext_elem_of. intros x Hx.
      rewrite lookup_insert_ne by (intros ->; done). done. }
    assert (Hlookup : ∀ indegree' : gmap Z Z,
      (∀ t, indegree' !! t =
            if decide (t ∈ rest) then (λ d, d - 1) <$> <[dep := d - 1]> indegree !! t
            else <[dep := d - 1]> indegree !! t) →
      ∀ t, indegree' !! t =
           if decide (t ∈ dep :: rest) then (λ d, d - 1) <$> indegree !! t
           else indegree !! t).
    { intros indegree' Hl t. rewrite Hl. destruct (decide (t = dep)) as [-> | Hne].
      - rewrite decide_False by done. rewrite lookup_insert_eq.
        rewrite decide_True by apply list_elem_of_here. by rewrite Hd.
      - rewrite lookup_insert_ne by done.
        destruct (decide (t ∈ rest)) as [Hin | Hout].
        + rewrite decide_True by (by apply list_elem_of_further). done.
        + rewrite decide_False; [done |]. rewrite elem_of_cons. tauto. }
    rewrite filter_cons.
    destruct (decide (d - 1 = 0)) as [Hz | Hnz].
    + destruct (IH (<[dep := d - 1]> indegree) (q ++ [dep]) Hkeys')
        as (indegree' & Hrun & Hdom & Hl).
      exists indegree'. rewrite Hrun, Hfilter.
      rewrite decide_True by (rewrite Hd; f_equal; lia).
      rewrite <- app_assoc. simpl. split; [done |]. split; [| by apply Hlookup].
      rewrite Hdom, dom_insert_L. apply elem_of_dom_2 in Hd. set_solver.
    + destruct (IH (<[dep := d - 1]> indegree) q Hkeys')
        as (indegree' & Hrun & Hdom & Hl).
      exists indegree'. rewrite Hrun, Hfilter.
      rewrite decide_False by (rewrite Hd; intros [= ?]; lia).
      split; [done |]. split; [| by apply Hlookup].
      rewrite Hdom, dom_insert_L. apply elem_of_dom_2 in Hd. set_solver.
Qed.

Lemma NoDup_length_le_size (l : list Z) (X : gset Z) :
  NoDup l → (∀ x, x ∈ l → x ∈ X) → (length l ≤ size X)%nat.
Proof.
  intros Hnd Hsub. unfold size, set_size. simpl.
  apply submseteq_length, NoDup_submseteq; [done |].
  intros x Hx. apply elem_of_elements. by apply Hsub.
Qed.

Section KahnFacts.

Context (set_iter : gset Z → list Z).
Hypothesis set_iter_perm : ∀ X, set_iter X ≡ₚ elements X.

Context (tasks_set : gset Z) (G : list Edge) (prereq_to_dependents : gmap Z (gset Z)).
Hypothesis G_within : ∀ t p, (t, p) ∈ G → t ∈ tasks_set ∧ p ∈ tasks_set.
Hypothesis dependents_spec :
  ∀ t p, t ∈ default ∅ (prereq_to_dependents !! p) ↔ (t, p) ∈ G.

Local Abbreviation kahn_loop := (Graph.kahn_loop set_iter).
Local Abbreviation dependents n := (set_iter (default ∅ (prereq_to_dependents !! n))).

Lemma elem_of_dependents t n : t ∈ dependents n ↔ (t, n) ∈ G.
Proof. by rewrite (elem_of_set_iter set_iter set_iter_perm), dependents_spec. Qed.

(** One round of the [while] loop keeps the invariant. *)
Lemma kahn_step indegree n q out :
  kahn_inv tasks_set G indegree (n :: q) out →
  ∃ indegree' q',
    relax (dependents n) indegree q = Ok (indegree', q') ∧
    kahn_inv tasks_set G indegree' q' (out ++ [n]).
Proof.
  intros [Hdom Hnd Hsub Hdeg Hzero Hord].
  (* what is known of [n] *)
  assert (Hn_T : n ∈ tasks_set).
  { apply Hsub. apply elem_of_app. right. apply list_elem_of_here. }
  apply NoDup_app in Hnd as (Hnd_out & Hdisj & Hnd_q).
  apply NoDup_cons in Hnd_q as [Hn_q Hnd_q].
  assert (Hn_out : n ∉ out).
  { intros Hin. apply (Hdisj n Hin), list_elem_of_here. }
  assert (Hn_zero : indegree !! n = Some 0).
  { apply Hzero; [done |]. apply elem_of_app. right. apply list_elem_of_here. }
  assert (Hn_pre : ∀ p, (n, p) ∈ G → p ∈ out).
  { intros p Hp. destruct (Hdeg n Hn_T) as (d & Hd & Hle & _).
    eapply pending_zero; [| done]. rewrite Hn_zero in Hd. injection Hd as <-. lia. }
  (* what is known of the dependents of [n] *)
  assert (Hds_pos : ∀ t, t ∈ dependents n →
            t ∈ tasks_set ∧ ∃ d, indegree !! t = Some d ∧ 1 ≤ d).
  { intros t Ht%elem_of_dependents. destruct (G_within _ _ Ht) as [Ht_T _].
    split; [done |]. destruct (Hdeg t Ht_T) as (d & Hd & Hle & _).
    exists d. split; [done |]. pose proof (pending_pos G out t n Ht Hn_out). lia. }
  assert (Hds_fresh : ∀ t, t ∈ dependents n → t ∉ out ++ n :: q).
  { intros t Ht Hin. destruct (Hds_pos t Ht) as (Ht_T & d & Hd & Hpos).
    apply Hzero in Hin; [| done]. rewrite Hd in Hin. injection Hin as ->. lia. }
  destruct (relax_spec (dependents n) indegree q) as (indegree' & Hrun & Hdom' & Hl).
  { apply (NoDup_set_iter set_iter set_iter_perm). }
  { intros t Ht. destruct (Hds_pos t Ht) as (_ & d & Hd & _). eauto. }
  exists indegree', (q ++ filter (λ t, indegree !! t = Some 1) (dependents n)).
  split; [done |]. split.
  - by rewrite Hdom'.
  - rewrite <- app_assoc. simpl. rewrite app_comm_cons, app_assoc.
    apply NoDup_app. split; [| split].
    + apply NoDup_app. split; [done |]. split; [done |]. by apply NoDup_cons.
    + intros x Hx Hf. apply list_elem_of_filter in Hf as [_ Hds]. by apply (Hds_fresh x).
    + apply NoDup_filter, (NoDup_set_iter set_iter set_iter_perm).
  - intros x. rewrite <- app_assoc. simpl. rewrite app_comm_cons, app_assoc.
    rewrite elem_of_app. intros [Hx | [_ Hds]%list_elem_of_filter]; [by apply Hsub |].
    by apply Hds_pos.
  - intros t Ht_T. destruct (Hdeg t Ht_T) as (d & Hd & Hle & Heq).
    pose proof (pending_snoc G out n t Hn_out) as Hsnoc.
    rewrite Hl. destruct (decide (t ∈ dependents n)) as [Ht | Ht].
    + apply elem_of_dependents in Ht.
      pose proof (occurrences_pos G (t, n) Ht) as Hocc.
      rewrite Hd. simpl. eexists; split; [done |]. split; [lia |].
      intros HndG. pose proof (occurrences_NoDup G (t, n) HndG). specialize (Heq HndG). lia.
    + rewrite elem_of_dependents in Ht.
      rewrite (occurrences_zero G (t, n) Ht) in Hsnoc.
      exists d. split; [done |]. split; [lia |]. intros HndG. specialize (Heq HndG). lia.
  - intros t Ht_T. rewrite Hl.
    replace ((out ++ [n]) ++ q ++ filter (λ t, indegree !! t = Some 1) (dependents n))
      with ((out ++ n :: q) ++ filter (λ t, indegree !! t = Some 1) (dependents n))
      by (by rewrite <- !app_assoc).
    rewrite elem_of_app, list_elem_of_filter.
    destruct (decide (t ∈ dependents n)) as [Ht | Ht].
    + destruct (Hds_pos t Ht) as (_ & d & Hd & Hpos). rewrite Hd. simpl. split.
      * intros [Hin | [[= ->] _]]; [by apply Hds_fresh in Hin | done].
      * intros [= Hz]. right. split; [f_equal; lia | done].
    + rewrite <- Hzero by done. tauto.
  - intros t p Htp Hin. apply elem_of_app in Hin as [Hin | Hin].
    + apply before_snoc. by apply Hord.
    + apply list_elem_of_singleton in Hin as ->. apply before_snoc_last. by apply Hn_pre.
Qed.

Lemma kahn_loop_spec fuel indegree q out :
  kahn_inv tasks_set G indegree q out →
  (size tasks_set - length out < fuel)%nat →
  ∃ indegree' out',
    kahn_loop fuel prereq_to_dependents indegree q out = Ok out' ∧
    kahn_inv tasks_set G indegree' [] out'.
Proof.
  revert indegree q out. induction fuel as [|fuel IH]; intros indegree q out Hinv Hfuel; [lia |].
  simpl. destruct q as [|n q]; [eauto |].
  assert (Hlen : (length (out ++ n :: q) ≤ size tasks_set)%nat).
  { apply NoDup_length_le_size; [apply (k_nodup _ _ _ _ _ Hinv) | apply (k_sub _ _ _ _ _ Hinv)]. }
  rewrite length_app in Hlen. simpl in Hlen.
  destruct (kahn_step indegree n q out Hinv) as (indegree' & q' & Hrun & Hinv').
  rewrite Hrun. simpl. apply (IH _ _ _ Hinv'). rewrite length_app. simpl. lia.
Qed.

End KahnFacts.

(** **** Cycles in a finite graph *)

Lemma tc_contract (R : relation Z) (a x y : Z) :
  tc (λ x y, R x y ∨ (R x a ∧ R a y)) x y → tc R x y.
Proof.
  induction 1 as [x y [Hxy | [Hxa Hay]] | x y z [Hxy | [Hxa Hay]] _ IH].
  - by apply tc_once.
  - eapply tc_l; [done | by apply tc_once].
  - by eapply tc_l.
  - eapply tc_l; [done |]. by eapply tc_l.
Qed.

(** In a finite non-empty set of nodes each of which has a successor in the
    set, some node lies on a cycle. *)
Lemma finite_successor_cycle (n : nat) :
  ∀ (R : relation Z) (S : gset Z),
    size S = n → S ≠ ∅ → (∀ x, x ∈ S → ∃ y, y ∈ S ∧ R x y) → ∃ x, tc R x x.
Proof.
  induction n as [|n IH]; intros R S Hsize Hne Hsucc.
  - by apply size_empty_iff in Hsize as ->%leibniz_equiv.
  - apply set_choose_L in Hne as [a Ha].
    destruct (Hsucc a Ha) as (b & Hb & Hab).
    destruct (decide (b = a)) as [-> | Hba]; [exists a; by apply tc_once |].
    destruct (IH (λ x y, R x y ∨ (R x a ∧ R a y)) (S ∖ {[a]})) as [x Hx].
    + rewrite size_difference by set_solver. rewrite size_singleton. lia.
    + assert (b ∈ S ∖ {[a]}) by set_solver. set_solver.
    + intros x Hx. destruct (Hsucc x) as (y & Hy & Hxy); [set_solver |].
      destruct (decide (y = a)) as [-> | Hya].
      * exists b. split; [set_solver | by right].
      * exists y. split; [set_solver | by left].
    + exists x. by eapply tc_contract.
Qed.

Section TopoSortFacts.

Context (set_iter : gset Z → list Z).
Hypothesis set_iter_perm : ∀ X, set_iter X ≡ₚ elements X.

Local Abbreviation topo_sort_out := (Graph.topo_sort_out set_iter).
Local Abbreviation topo_sort := (Graph.topo_sort set_iter).

(** [topo_sort] runs its two loops to their end without a [KeyError], and
    the invariant holds of the [out] they leave, with an empty queue. *)
Lemma topo_sort_out_run (tasks : list Z) (edges : list Edge) :
  let tasks_set : gset Z := list_to_set tasks in
  ∃ indegree out,
    topo_sort_out tasks edges = Ok out ∧
    kahn_inv tasks_set (restrict tasks_set edges) indegree [] out.
Proof.
  intros tasks_set. unfold Graph.topo_sort_out. fold tasks_set.
  destruct (record_edges_spec tasks_set edges (∅, gset_to_gmap 0 tasks_set))
    as ([p2d indegree] & Hrun & Hdom & Hdeps & Hdeg).
  { simpl. apply dom_gset_to_gmap. }
  rewrite Hrun. cbn [mbind res_bind]. simpl in Hdom, Hdeps, Hdeg.
  set (G := restrict tasks_set edges) in *.
  set (q := filter (λ t, indegree !! t = Some 0) (set_iter tasks_set)).
  assert (Hinit : kahn_inv tasks_set G indegree q []).
  { split.
    - done.
    - simpl. apply NoDup_filter, (NoDup_set_iter set_iter set_iter_perm).
    - simpl. intros x [_ Hx]%list_elem_of_filter.
      by apply (elem_of_set_iter set_iter set_iter_perm) in Hx.
    - intros t Ht. rewrite Hdeg.
      rewrite (proj2 (lookup_gset_to_gmap_Some 0 tasks_set t 0)) by done. simpl.
      rewrite pending_nil. eexists; split; [done |]. split; [lia | intros _; lia].
    - intros t Ht. simpl. unfold q. rewrite list_elem_of_filter.
      rewrite (elem_of_set_iter set_iter set_iter_perm). tauto.
    - intros t p _ Hin. by apply not_elem_of_nil in Hin. }
  destruct (kahn_loop_spec set_iter set_iter_perm tasks_set G p2d) with
    (fuel := S (size tasks_set)) (indegree := indegree) (q := q) (out := @nil Z)
    as (indegree' & out & Hloop & Hinv).
  - intros t p Htp. apply elem_of_restrict in Htp. unfold edge_within in Htp. tauto.
  - intros t p. rewrite Hdeps, lookup_empty. simpl. set_solver.
  - done.
  - simpl. lia.
  - exists indegree', out. by split.
Qed.

(** A duplicate-free list within a set that is as long as the set is large
    holds every element of the set. *)
Lemma NoDup_full (l : list Z) (X : gset Z) :
  NoDup l → (∀ x, x ∈ l → x ∈ X) → length l = size X → ∀ x, x ∈ X → x ∈ l.
Proof.
  intros Hnd Hsub Hlen x Hx.
  assert (Hperm : l ≡ₚ elements X).
  { apply submseteq_length_Permutation.
    - apply NoDup_submseteq; [done |]. intros y Hy. apply elem_of_elements. by apply Hsub.
    - unfold size, set_size in Hlen. simpl in Hlen. lia. }
  rewrite Hperm. by apply elem_of_elements.
Qed.

Section Exit.

Context (tasks_set : gset Z) (edges : list Edge) (indegree : gmap Z Z) (out : list Z).
Hypothesis Hinv : kahn_inv tasks_set (restrict tasks_set edges) indegree [] out.

Lemma kahn_exit_NoDup : NoDup out.
Proof. pose proof (k_nodup _ _ _ _ _ Hinv) as Hnd. by rewrite app_nil_r in Hnd. Qed.

Lemma kahn_exit_sub x : x ∈ out → x ∈ tasks_set.
Proof. intros Hx. apply (k_sub _ _ _ _ _ Hinv). by rewrite app_nil_r. Qed.

Lemma kahn_exit_length : (length out ≤ size tasks_set)%nat.
Proof. apply NoDup_length_le_size; [apply kahn_exit_NoDup | apply kahn_exit_sub]. Qed.

(** Every edge whose dependent was output has its prerequisite earlier. *)
Lemma kahn_exit_order t p : edge_within tasks_set edges t p → t ∈ out → before out p t.
Proof. intros Htp%elem_of_restrict. by apply (k_order _ _ _ _ _ Hinv). Qed.

(** A full output rules out a cycle: along a cycle the positions would
    decrease strictly all the way round. *)
Lemma kahn_full_no_cycle :
  length out = size tasks_set → ¬ has_cycle tasks_set edges.
Proof.
  intros Hlen [x Hx].
  pose proof (NoDup_full out tasks_set kahn_exit_NoDup kahn_exit_sub Hlen) as Hfull.
  assert (Hbefore : ∀ u v, tc (edge_within tasks_set edges) u v → before out v u).
  { induction 1 as [u v Huv | u v w Huv _ IH].
    - apply kahn_exit_order; [done |]. apply Hfull. unfold edge_within in Huv. tauto.
    - eapply before_trans; [apply kahn_exit_NoDup | done |].
      apply kahn_exit_order; [done |]. apply Hfull. unfold edge_within in Huv. tauto. }
  by eapply before_irrefl; [apply kahn_exit_NoDup | apply Hbefore].
Qed.

(** When no edge within the node set is listed twice, a node that was not
    output still has a prerequisite that was not output, so the nodes left
    out hold a cycle. *)
Lemma kahn_short_cycle :
  NoDup (restrict tasks_set edges) → length out ≠ size tasks_set →
  has_cycle tasks_set edges.
Proof.
  intros HndG Hlen.
  set (left_out := tasks_set ∖ list_to_set out : gset Z).
  apply (finite_successor_cycle (size left_out) _ left_out); [done | |].
  - intros Hempty. apply Hlen. apply Nat.le_antisymm; [apply kahn_exit_length |].
    unfold size at 1, set_size. simpl.
    apply submseteq_length, NoDup_submseteq; [apply NoDup_elements |].
    intros x Hx%elem_of_elements.
    destruct (decide (x ∈ out)) as [? | Hout]; [done |].
    assert (x ∈ left_out) by (unfold left_out; set_solver). set_solver.
  - intros t Ht. unfold left_out in Ht.
    apply elem_of_difference in Ht as [Ht_T Ht_out]. rewrite elem_of_list_to_set in Ht_out.
    destruct (k_deg _ _ _ _ _ Hinv t Ht_T) as (d & Hd & _ & Heq). specialize (Heq HndG).
    assert (Hnz : d ≠ 0).
    { intros ->. apply Ht_out. rewrite <- (app_nil_r out).
      by apply (k_zero _ _ _ _ _ Hinv). }
    assert (Hex : ∃ e, e ∈ filter (λ e, e.1 = t ∧ e.2 ∉ out) (restrict tasks_set edges)).
    { unfold pending in Heq.
      destruct (filter (λ e, e.1 = t ∧ e.2 ∉ out) (restrict tasks_set edges)) as [|e l];
        [simpl in Heq; lia |]. exists e. apply list_elem_of_here. }
    destruct Hex as ([t' p] & [[Ht' Hp] Hin]%list_elem_of_filter). simpl in *. subst t'.
    apply elem_of_restrict in Hin. exists p. split; [| done].
    unfold left_out, edge_within in *. rewrite elem_of_difference, elem_of_list_to_set. tauto.
Qed.

End Exit.

(** How [topo_sort] ends, in terms of the [out] its loops leave. *)
Lemma topo_sort_cases (tasks : list Z) (edges : list Edge) :
  ∃ indegree out,
    topo_sort_out tasks edges = Ok out ∧
    kahn_inv (list_to_set tasks) (restrict (list_to_set tasks) edges) indegree [] out ∧
    ((length out = size (list_to_set tasks : gset Z) ∧ topo_sort tasks edges = Ok out) ∨
     (length out ≠ size (list_to_set tasks : gset Z) ∧
      topo_sort tasks edges = Raise ValueError)).
Proof.
  destruct (topo_sort_out_run tasks edges) as (indegree & out & Hrun & Hinv).
  exists indegree, out. split; [done |]. split; [done |].
  unfold Graph.topo_sort. rewrite Hrun. cbn [mbind res_bind].
  destruct (decide (length out ≠ size (list_to_set tasks : gset Z))) as [Hne | Heq].
  - by right.
  - left. split; [| done].
    destruct (decide (length out = size (list_to_set tasks : gset Z))); [done | tauto].
Qed.

(** Whatever the edge list, a returned sequence lists every node once and
    every prerequisite before its dependents. *)
Lemma topo_sort_Ok_sorted (tasks : list Z) (edges : list Edge) (out : list Z) :
  topo_sort tasks edges = Ok out →
  NoDup out ∧ (∀ x, x ∈ out ↔ x ∈ tasks) ∧
  (∀ task prereq, (task, prereq) ∈ edges → task ∈ tasks → prereq ∈ tasks →
     before out prereq task).
Proof.
  destruct (topo_sort_cases tasks edges)
    as (indegree & out' & _ & Hinv & [[Hlen ->] | [_ ->]]); [| done].
  intros [= <-].
  pose proof (kahn_exit_NoDup _ _ _ _ Hinv) as Hnd.
  pose proof (NoDup_full out' _ Hnd (kahn_exit_sub _ _ _ _ Hinv) Hlen) as Hfull.
  split; [done |]. split.
  - intros x. split.
    + intros Hx%(kahn_exit_sub _ _ _ _ Hinv). by apply elem_of_list_to_set in Hx.
    + intros Hx. apply Hfull. by apply elem_of_list_to_set.
  - intros task prereq Hin Ht Hp. apply (kahn_exit_order _ _ _ _ Hinv).
    + unfold edge_within. by rewrite !elem_of_list_to_set.
    + apply Hfull. by apply elem_of_list_to_set.
Qed.

(** Whatever the edge list, a cycle within the node set makes [topo_sort]
    raise. *)
Lemma topo_sort_cycle_raises (tasks : list Z) (edges : list Edge) :
  has_cycle (list_to_set tasks) edges → topo_sort tasks edges = Raise ValueError.
Proof.
  intros Hcyc. destruct (topo_sort_cases tasks edges)
    as (indegree & out & _ & Hinv & [[Hlen _] | [_ ->]]); [| done].
  by destruct (kahn_full_no_cycle _ _ _ _ Hinv Hlen).
Qed.

(** C2, amended.  When no edge with both endpoints in the node set is
    listed twice and the edges within the node set form no cycle,
    [topo_sort] returns a sequence that holds every node of the set exactly
    once, and in which, for every edge [(task, prereq)] with both endpoints
    in the set, [prereq] stands at a strictly smaller position than [task]. *)
Theorem topo_sort_acyclic (tasks : list Z) (edges : list Edge) :
  NoDup (restrict (list_to_set tasks) edges) →
  ¬ has_cycle (list_to_set tasks) edges →
  ∃ out, topo_sort tasks edges = Ok out ∧
    NoDup out ∧ (∀ x, x ∈ out ↔ x ∈ tasks) ∧
    (∀ task prereq, (task, prereq) ∈ edges → task ∈ tasks → prereq ∈ tasks →
       before out prereq task).
Proof.
  intros HndG Hacyc.
  destruct (topo_sort_cases tasks edges)
    as (indegree & out & _ & Hinv & [[Hlen Hok] | [Hlen _]]).
  - exists out. split; [done |]. by apply topo_sort_Ok_sorted.
  - destruct Hacyc. by eapply kahn_short_cycle.
Qed.

(** C4, amended.  When no edge with both endpoints in the node set is
    listed twice, the loops of [topo_sort] leave fewer outputs than there
    are nodes exactly when the edges within the node set hold a cycle, and
    [topo_sort] raises [ValueError] exactly then; otherwise it returns that
    output. *)
Theorem topo_sort_raises_iff_cycle (tasks : list Z) (edges : list Edge) :
  NoDup (restrict (list_to_set tasks) edges) →
  ∃ out, topo_sort_out tasks edges = Ok out ∧
    ((length out < size (list_to_set tasks : gset Z))%nat ↔
       has_cycle (list_to_set tasks) edges) ∧
    (topo_sort tasks edges = Raise ValueError ↔ has_cycle (list_to_set tasks) edges) ∧
    (topo_sort tasks edges = Ok out ↔ ¬ has_cycle (list_to_set tasks) edges).
Proof.
  intros HndG.
  destruct (topo_sort_cases tasks edges)
    as (indegree & out & Hout & Hinv & [[Hlen Hok] | [Hlen Herr]]);
    exists out; (split; [done |]).
  - pose proof (kahn_full_no_cycle _ _ _ _ Hinv Hlen) as Hacyc.
    rewrite Hok. split; [| split]; split; try done; try lia.
  - pose proof (kahn_short_cycle _ _ _ _ Hinv HndG Hlen) as Hcyc.
    pose proof (kahn_exit_length _ _ _ _ Hinv).
    rewrite Herr. split; [| split]; split; try done; try lia.
Qed.

(** C7.  [topo_sort] gives the same result, sequence or error, on an edge
    list and on what is left of it once every edge with an endpoint outside
    the node set is removed. *)
Theorem topo_sort_ignores_stale_edges (tasks : list Z) (edges : list Edge) :
  topo_sort tasks edges = topo_sort tasks (restrict (list_to_set tasks) edges).
Proof.
  unfold Graph.topo_sort, Graph.topo_sort_out.
  by rewrite <- record_edges_restrict.
Qed.

End TopoSortFacts.

(** * Dates and timestamps as text *)

Lemma nat_of_digit_char d :
  nat_of_ascii (Db.digit_char d) = (48 + Z.to_nat (d mod 10))%nat.
Proof.
  unfold Db.digit_char. apply nat_ascii_embedding.
  pose proof (Z.mod_pos_bound d 10). lia.
Qed.

Lemma digit_val_digit_char d : Db.digit_val (Db.digit_char d) = Some (d mod 10).
Proof.
  unfold Db.digit_val. rewrite nat_of_digit_char.
  pose proof (Z.mod_pos_bound d 10).
  rewrite decide_True by lia. f_equal. lia.
Qed.


(** A digit is none of the other characters of a timestamp. *)
Lemma digit_char_ne d (c : ascii) :
  (nat_of_ascii c < 48 ∨ 57 < nat_of_ascii c)%nat → Db.digit_char d ≠ c.
Proof.
  intros Hc Heq. apply (f_equal nat_of_ascii) in Heq. rewrite nat_of_digit_char in Heq.
  pose proof (Z.mod_pos_bound d 10). lia.
Qed.

Lemma val2_pad n :
  0 ≤ n < 100 → Db.val2 (Db.digit_char (n / 10)) (Db.digit_char n) = Some n.
Proof.
  intros Hn. unfold Db.val2. rewrite !digit_val_digit_char. simpl. f_equal.
  rewrite (Z.mod_small (n / 10)) by (split; [apply Z.div_pos; lia | apply Z.div_lt_upper_bound; lia]).
  pose proof (Z.div_mod n 10). lia.
Qed.

Lemma val4_pad n :
  0 ≤ n < 10000 →
  Db.val4 (Db.digit_char (n / 1000)) (Db.digit_char (n / 100))
          (Db.digit_char (n / 10)) (Db.digit_char n) = Some n.
Proof.
  intros Hn. unfold Db.val4, Db.val2. rewrite !digit_val_digit_char. simpl. f_equal.
  Z.div_mod_to_equations. lia.
Qed.


Lemma last_char_app_nonempty s c s' :
  last_char (s +:+ String c s') = last_char (String c s').
Proof.
  induction s as [|a s IH]; [done |]. simpl.
  destruct (s +:+ String c s') eqn:Hs; [by destruct s | done].
Qed.

Lemma last_char_pad2 n : ∃ d, last_char (Db.pad2 n) = Some (Db.digit_char d).
Proof. by exists n. Qed.





Lemma all_chars_app P s1 s2 :
  all_chars P s1 → all_chars P s2 → all_chars P (s1 +:+ s2).
Proof. induction s1 as [|c s1 IH]; simpl; [done |]. intros [? ?] ?. auto. Qed.

Lemma replace_Z_id s : all_chars (λ c, c ≠ "Z"%char) s → Db.replace_Z s = s.
Proof.
  induction s as [|c s IH]; simpl; [done |]. intros [Hc Hs].
  rewrite decide_False by done. by rewrite IH.
Qed.

Lemma replace_Z_app s1 s2 :
  Db.replace_Z (s1 +:+ s2) = Db.replace_Z s1 +:+ Db.replace_Z s2.
Proof.
  induction s1 as [|c s1 IH]; simpl; [done |].
  destruct (decide (c = "Z"%char)); simpl; by rewrite IH.
Qed.

Lemma digit_char_not_Z d : Db.digit_char d ≠ "Z"%char.
Proof. apply digit_char_ne. vm_compute. lia. Qed.

Lemma no_Z_pad2 n : all_chars (λ c, c ≠ "Z"%char) (Db.pad2 n).
Proof. simpl. auto using digit_char_not_Z. Qed.

Lemma no_Z_pad4 n : all_chars (λ c, c ≠ "Z"%char) (Db.pad4 n).
Proof. simpl. auto using digit_char_not_Z. Qed.

Lemma no_Z_pad6 n : all_chars (λ c, c ≠ "Z"%char) (Db.pad6 n).
Proof. simpl. auto 10 using digit_char_not_Z. Qed.

Lemma no_Z_date_isoformat d : all_chars (λ c, c ≠ "Z"%char) (Db.date_isoformat d).
Proof.
  unfold Db.date_isoformat.
  repeat apply all_chars_app; auto using no_Z_pad2, no_Z_pad4; by simpl.
Qed.

Lemma no_Z_offset_isoformat off : all_chars (λ c, c ≠ "Z"%char) (Db.offset_isoformat off).
Proof.
  unfold Db.offset_isoformat.
  repeat apply all_chars_app; auto using no_Z_pad2; [| by simpl].
  by destruct (decide (off < 0)).
Qed.

Lemma no_Z_datetime_isoformat t :
  all_chars (λ c, c ≠ "Z"%char) (Db.datetime_isoformat t).
Proof.
  unfold Db.datetime_isoformat.
  repeat apply all_chars_app;
    auto using no_Z_pad2, no_Z_pad4, no_Z_date_isoformat; try (by simpl).
  - destruct (decide (Db.microsecond t = 0)); [done |].
    apply all_chars_app; [by simpl | apply no_Z_pad6].
  - destruct (Db.tzinfo t); [apply no_Z_offset_isoformat | done].
Qed.

(** What [_row_to_task] hands to the parser for a timestamp that the store
    wrote itself. *)
Lemma replace_Z_stamp t :
  Db.replace_Z (Db.datetime_isoformat t +:+ "Z") = Db.datetime_isoformat t +:+ "+00:00".
Proof.
  rewrite replace_Z_app, replace_Z_id by apply no_Z_datetime_isoformat. done.
Qed.

Lemma days_in_month_le y m : Db.days_in_month y m ≤ 31.
Proof. unfold Db.days_in_month. repeat case_decide; destruct (Db.is_leap y); lia. Qed.

(** The ten characters of a date, and what the parser computes from ten
    characters of that shape. *)
Lemma date_isoformat_chars y m d :
  Db.date_isoformat (Db.mkDate y m d) =
    String (Db.digit_char (y / 1000)) (String (Db.digit_char (y / 100))
   (String (Db.digit_char (y / 10)) (String (Db.digit_char y) (String "-"
   (String (Db.digit_char (m / 10)) (String (Db.digit_char m) (String "-"
   (String (Db.digit_char (d / 10)) (String (Db.digit_char d) EmptyString))))))))).
Proof. reflexivity. Qed.

Lemma date_fromisoformat_chars y3 y2 y1 y0 m1 m0 d1 d0 :
  Db.date_fromisoformat
    (String y3 (String y2 (String y1 (String y0 (String "-"
    (String m1 (String m0 (String "-" (String d1 (String d0 EmptyString)))))))))) =
  y ← Db.val4 y3 y2 y1 y0; m ← Db.val2 m1 m0; d ← Db.val2 d1 d0;
  let r := Db.mkDate y m d in
  if decide (Db.valid_date r) then Some r else None.
Proof. reflexivity. Qed.

Lemma date_fromisoformat_isoformat d :
  Db.valid_date d → Db.date_fromisoformat (Db.date_isoformat d) = Some d.
Proof.
  intros Hd. destruct d as [y m dd]. pose proof Hd as (Hy & Hm & Hdd).
  simpl in Hy, Hm, Hdd.
  pose proof (days_in_month_le y m) as Hdim.
  rewrite date_isoformat_chars, date_fromisoformat_chars.
  rewrite val4_pad by lia. rewrite !val2_pad by lia.
  cbn [mbind option_bind]. by rewrite decide_True.
Qed.

(** The characters of a naive timestamp without microseconds, followed by
    [suffix], and what the parser computes from nineteen characters of that
    shape and a rest. *)
Lemma datetime_isoformat_chars y m d h mi sec suffix :
  Db.datetime_isoformat (Db.mkDatetime (Db.mkDate y m d) h mi sec 0 None) +:+ suffix =
    String (Db.digit_char (y / 1000)) (String (Db.digit_char (y / 100))
   (String (Db.digit_char (y / 10)) (String (Db.digit_char y) (String "-"
   (String (Db.digit_char (m / 10)) (String (Db.digit_char m) (String "-"
   (String (Db.digit_char (d / 10)) (String (Db.digit_char d) (String "T"
   (String (Db.digit_char (h / 10)) (String (Db.digit_char h) (String ":"
   (String (Db.digit_char (mi / 10)) (String (Db.digit_char mi) (String ":"
   (String (Db.digit_char (sec / 10)) (String (Db.digit_char sec)
     suffix)))))))))))))))))).
Proof. reflexivity. Qed.

Lemma datetime_fromisoformat_chars
    y3 y2 y1 y0 c4 m1 m0 c7 d1 d0 sep H1 H0 M1 M0 S1 S0 rest :
  Db.datetime_fromisoformat
    (String y3 (String y2 (String y1 (String y0 (String c4
    (String m1 (String m0 (String c7 (String d1 (String d0 (String sep
    (String H1 (String H0 (String ":" (String M1 (String M0 (String ":"
    (String S1 (String S0 rest))))))))))))))))))) =
  d ← Db.date_fromisoformat
         (String y3 (String y2 (String y1 (String y0 (String c4
         (String m1 (String m0 (String c7 (String d1 (String d0 EmptyString))))))))));
  h ← Db.val2 H1 H0; m ← Db.val2 M1 M0; sec ← Db.val2 S1 S0;
  '(us, rest') ← Db.fraction_fromisoformat rest;
  tz ← Db.offset_fromisoformat rest';
  if decide (h ≤ 23 ∧ m ≤ 59 ∧ sec ≤ 59) then Some (Db.mkDatetime d h m sec us tz)
  else None.
Proof. reflexivity. Qed.

Lemma fraction_fromisoformat_utc :
  Db.fraction_fromisoformat "+00:00" = Some (0, "+00:00"%string).
Proof. reflexivity. Qed.

Lemma offset_fromisoformat_utc : Db.offset_fromisoformat "+00:00" = Some (Some 0).
Proof. by vm_compute. Qed.

(** The aware timestamp that a naive one denotes once ["+00:00"] stands
    behind its text. *)
Lemma datetime_fromisoformat_stamp t :
  Db.valid_datetime t → Db.microsecond t = 0 → Db.tzinfo t = None →
  Db.datetime_fromisoformat (Db.datetime_isoformat t +:+ "+00:00") =
    Some (Db.mkDatetime (Db.dt_date t) (Db.hour t) (Db.minute t) (Db.second t) 0 (Some 0)).
Proof.
  destruct t as [[y m dd] h mi sec us tz].
  cbn [Db.dt_date Db.hour Db.minute Db.second Db.microsecond Db.tzinfo].
  intros (Hd & Hh & Hmi & Hsec & _) -> ->.
  cbn [Db.dt_date Db.hour Db.minute Db.second] in *.
  rewrite datetime_isoformat_chars, datetime_fromisoformat_chars.
  rewrite <- date_isoformat_chars, date_fromisoformat_isoformat by done.
  rewrite !val2_pad by lia.
  rewrite fraction_fromisoformat_utc. cbn [mbind option_bind].
  rewrite offset_fromisoformat_utc. cbn [mbind option_bind].
  by rewrite decide_True by lia.
Qed.

(** **** Timestamps read back from their own text *)

Lemma digit_val_range c d : Db.digit_val c = Some d → 0 ≤ d ≤ 9.
Proof. unfold Db.digit_val. case_decide; [| done]. intros [= <-]. lia. Qed.

Lemma val2_range c1 c0 n : Db.val2 c1 c0 = Some n → 0 ≤ n ≤ 99.
Proof.
  unfold Db.val2.
  destruct (Db.digit_val c1) as [d1|] eqn:H1; cbn [mbind option_bind]; [| done].
  destruct (Db.digit_val c0) as [d0|] eqn:H0; cbn [mbind option_bind]; [| done].
  apply digit_val_range in H1, H0. intros [= <-]. lia.
Qed.

Lemma val3_range c2 c1 c0 n : Db.val3 c2 c1 c0 = Some n → 0 ≤ n ≤ 999.
Proof.
  unfold Db.val3.
  destruct (Db.digit_val c2) as [d2|] eqn:H2; cbn [mbind option_bind]; [| done].
  destruct (Db.val2 c1 c0) as [r|] eqn:Hr; cbn [mbind option_bind]; [| done].
  apply digit_val_range in H2. apply val2_range in Hr. intros [= <-]. lia.
Qed.

Lemma val3_pad n :
  0 ≤ n < 1000 →
  Db.val3 (Db.digit_char (n / 100)) (Db.digit_char (n / 10)) (Db.digit_char n) = Some n.
Proof.
  intros Hn. unfold Db.val3, Db.val2. rewrite !digit_val_digit_char. simpl. f_equal.
  Z.div_mod_to_equations. lia.
Qed.

Lemma val3_pad_high n :
  0 ≤ n < 1000000 →
  Db.val3 (Db.digit_char (n / 100000)) (Db.digit_char (n / 10000))
          (Db.digit_char (n / 1000)) = Some (n / 1000).
Proof.
  intros Hn. unfold Db.val3, Db.val2. rewrite !digit_val_digit_char. simpl. f_equal.
  Z.div_mod_to_equations. lia.
Qed.

Lemma val3_pad_low n :
  0 ≤ n →
  Db.val3 (Db.digit_char (n / 100)) (Db.digit_char (n / 10)) (Db.digit_char n)
    = Some (n mod 1000).
Proof.
  intros Hn. unfold Db.val3, Db.val2. rewrite !digit_val_digit_char. simpl. f_equal.
  Z.div_mod_to_equations. lia.
Qed.

(** The characters of any timestamp, what the parser makes of a fraction
    of six digits, and what it makes of an offset, sign by sign. *)
Lemma datetime_isoformat_chars_full y m d h mi sec us tz :
  Db.datetime_isoformat (Db.mkDatetime (Db.mkDate y m d) h mi sec us tz) =
    String (Db.digit_char (y / 1000)) (String (Db.digit_char (y / 100))
   (String (Db.digit_char (y / 10)) (String (Db.digit_char y) (String "-"
   (String (Db.digit_char (m / 10)) (String (Db.digit_char m) (String "-"
   (String (Db.digit_char (d / 10)) (String (Db.digit_char d) (String "T"
   (String (Db.digit_char (h / 10)) (String (Db.digit_char h) (String ":"
   (String (Db.digit_char (mi / 10)) (String (Db.digit_char mi) (String ":"
   (String (Db.digit_char (sec / 10)) (String (Db.digit_char sec)
     ((if decide (us = 0) then EmptyString else "." +:+ Db.pad6 us) +:+
      match tz with None => EmptyString | Some off => Db.offset_isoformat off end
     ))))))))))))))))))).
Proof. reflexivity. Qed.

Lemma fraction_fromisoformat_chars f5 f4 f3 f2 f1 f0 rest :
  Db.fraction_fromisoformat
    (String "." (String f5 (String f4 (String f3 (String f2 (String f1 (String f0 rest))))))) =
  ms ← Db.val3 f5 f4 f3;
  match Db.val3 f2 f1 f0 with
  | Some us => Some (1000 * ms + us, rest)
  | None => Some (1000 * ms, String f2 (String f1 (String f0 rest)))
  end.
Proof. reflexivity. Qed.

Lemma fraction_fromisoformat_plus rest :
  Db.fraction_fromisoformat (String "+" rest) = Some (0, String "+" rest).
Proof. reflexivity. Qed.

Lemma fraction_fromisoformat_minus rest :
  Db.fraction_fromisoformat (String "-" rest) = Some (0, String "-" rest).
Proof. reflexivity. Qed.

Lemma offset_fromisoformat_plus h1 h0 m1 m0 :
  Db.offset_fromisoformat
    (String "+" (String h1 (String h0 (String ":" (String m1 (String m0 EmptyString)))))) =
  h ← Db.val2 h1 h0; m ← Db.val2 m1 m0;
  if decide (h ≤ 23 ∧ m ≤ 59) then Some (Some (60 * h + m)) else None.
Proof. reflexivity. Qed.

Lemma offset_fromisoformat_minus h1 h0 m1 m0 :
  Db.offset_fromisoformat
    (String "-" (String h1 (String h0 (String ":" (String m1 (String m0 EmptyString)))))) =
  h ← Db.val2 h1 h0; m ← Db.val2 m1 m0;
  if decide (h ≤ 23 ∧ m ≤ 59) then Some (Some (- (60 * h + m))) else None.
Proof. reflexivity. Qed.

Lemma offset_fromisoformat_isoformat off :
  -1440 < off < 1440 →
  Db.offset_fromisoformat (Db.offset_isoformat off) = Some (Some off).
Proof.
  intros Hoff. unfold Db.offset_isoformat.
  assert (0 ≤ Z.abs off / 60 ≤ 23) by (Z.div_mod_to_equations; lia).
  assert (0 ≤ Z.abs off mod 60 ≤ 59) by (Z.div_mod_to_equations; lia).
  pose proof (Z.div_mod (Z.abs off) 60).
  destruct (decide (off < 0)).
  - change (Db.offset_fromisoformat
      (String "-" (String (Db.digit_char (Z.abs off / 60 / 10))
        (String (Db.digit_char (Z.abs off / 60)) (String ":"
        (String (Db.digit_char (Z.abs off mod 60 / 10))
        (String (Db.digit_char (Z.abs off mod 60)) EmptyString)))))) = Some (Some off)).
    rewrite offset_fromisoformat_minus, !val2_pad by lia. cbn [mbind option_bind].
    rewrite decide_True by lia. do 2 f_equal. lia.
  - change (Db.offset_fromisoformat
      (String "+" (String (Db.digit_char (Z.abs off / 60 / 10))
        (String (Db.digit_char (Z.abs off / 60)) (String ":"
        (String (Db.digit_char (Z.abs off mod 60 / 10))
        (String (Db.digit_char (Z.abs off mod 60)) EmptyString)))))) = Some (Some off)).
    rewrite offset_fromisoformat_plus, !val2_pad by lia. cbn [mbind option_bind].
    rewrite decide_True by lia. do 2 f_equal. lia.
Qed.

(** After the seconds: the fraction, if there is one, and the offset. *)
Lemma tail_fromisoformat_isoformat us tz :
  0 ≤ us ≤ 999999 →
  match tz with None => True | Some off => -1440 < off < 1440 end →
  ('(us', rest') ← Db.fraction_fromisoformat
      ((if decide (us = 0) then EmptyString else "." +:+ Db.pad6 us) +:+
       match tz with None => EmptyString | Some off => Db.offset_isoformat off end);
   tz' ← Db.offset_fromisoformat rest'; Some (us', tz')) = Some (us, tz).
Proof.
  intros Hus Htz.
  set (tail := match tz with None => EmptyString | Some off => Db.offset_isoformat off end).
  assert (Htail : Db.offset_fromisoformat tail = Some tz).
  { unfold tail. destruct tz as [off|]; [by apply offset_fromisoformat_isoformat | done]. }
  destruct (decide (us = 0)) as [-> | Hne].
  - change (EmptyString +:+ tail) with tail.
    assert (Hfrac : Db.fraction_fromisoformat tail = Some (0, tail)).
    { unfold tail. destruct tz as [off|]; [| done].
      unfold Db.offset_isoformat. destruct (decide (off < 0)).
      - apply fraction_fromisoformat_minus.
      - apply fraction_fromisoformat_plus. }
    rewrite Hfrac. cbn [mbind option_bind]. by rewrite Htail.
  - change (("." +:+ Db.pad6 us) +:+ tail) with
      (String "." (String (Db.digit_char (us / 100000)) (String (Db.digit_char (us / 10000))
        (String (Db.digit_char (us / 1000)) (String (Db.digit_char (us / 100))
        (String (Db.digit_char (us / 10)) (String (Db.digit_char us) tail))))))).
    rewrite fraction_fromisoformat_chars, val3_pad_high, val3_pad_low by lia.
    cbn [mbind option_bind]. rewrite Htail. cbn [mbind option_bind].
    do 2 f_equal. Z.div_mod_to_equations. lia.
Qed.

Lemma datetime_fromisoformat_isoformat t :
  Db.valid_datetime t → Db.datetime_fromisoformat (Db.datetime_isoformat t) = Some t.
Proof.
  destruct t as [[y m dd] h mi sec us tz].
  intros (Hd & Hh & Hmi & Hsec & Hus & Htz).
  cbn [Db.dt_date Db.hour Db.minute Db.second Db.microsecond Db.tzinfo] in *.
  rewrite datetime_isoformat_chars_full, datetime_fromisoformat_chars.
  rewrite <- date_isoformat_chars, date_fromisoformat_isoformat by done.
  rewrite !val2_pad by lia. cbn [mbind option_bind].
  pose proof (tail_fromisoformat_isoformat us tz Hus Htz) as Htail.
  destruct (Db.fraction_fromisoformat _) as [[us' rest']|]; cbn [mbind option_bind] in *;
    [| done].
  destruct (Db.offset_fromisoformat rest') as [tz'|]; cbn [mbind option_bind] in *; [| done].
  injection Htail as -> ->. by rewrite decide_True by lia.
Qed.

(** * Reading rows *)

Lemma _row_to_task_Ok r t :
  Db._row_to_task r = Ok t →
  ∃ c u,
    Db.datetime_fromisoformat (Db.replace_Z (Db.row_created_at r)) = Some c ∧
    Db.datetime_fromisoformat (Db.replace_Z (Db.row_updated_at r)) = Some u ∧
    Db._parse_due (Db.row_due r) = Ok (Db.due t) ∧
    t = Db.mkTask (Db.row_id r) (Db.row_title r) (Db.row_description r)
          (Db.row_priority r) (Db.due t) (Db.row_status r) (Db.row_tags r) c u.
Proof.
  unfold Db._row_to_task.
  destruct (Db._parse_due (Db.row_due r)) as [d | |]; [| done | done].
  destruct (Db.datetime_fromisoformat (Db.replace_Z (Db.row_created_at r))) as [c|]; [| done].
  destruct (Db.datetime_fromisoformat (Db.replace_Z (Db.row_updated_at r))) as [u|]; [| done].
  simpl. intros [= <-]. by exists c, u.
Qed.

Lemma _parse_due_Ok text d :
  Db._parse_due text = Ok d →
  match text, d with
  | None, None => True
  | Some s, Some d' => Db.date_fromisoformat s = Some d'
  | _, _ => False
  end.
Proof.
  unfold Db._parse_due. destruct text as [s|]; [| by intros [= <-]].
  destruct (Db.date_fromisoformat s) as [d'|]; simpl; [| done]. by intros [= <-].
Qed.

Lemma date_fromisoformat_valid s d :
  Db.date_fromisoformat s = Some d → Db.valid_date d.
Proof.
  unfold Db.date_fromisoformat.
  destruct s as [|y3 s]; [done |]. destruct s as [|y2 s]; [done |].
  destruct s as [|y1 s]; [done |]. destruct s as [|y0 s]; [done |].
  destruct s as [|c4 s]; [done |]. destruct s as [|m1 s]; [done |].
  destruct s as [|m0 s]; [done |]. destruct s as [|c7 s]; [done |].
  destruct s as [|d1 s]; [done |]. destruct s as [|d0 s]; [done |].
  destruct s; [| done]. case_decide; [| done].
  destruct (Db.val4 y3 y2 y1 y0) as [y|]; cbn [mbind option_bind]; [| done].
  destruct (Db.val2 m1 m0) as [m|]; cbn [mbind option_bind]; [| done].
  destruct (Db.val2 d1 d0) as [dd|]; cbn [mbind option_bind]; [| done].
  case_decide; [| done]. by intros [= <-].
Qed.

Lemma rows_to_tasks_Ok rows ts :
  Db.rows_to_tasks rows = Ok ts → Forall2 (λ r t, Db._row_to_task r = Ok t) rows ts.
Proof.
  revert ts. induction rows as [|r rows IH]; intros ts; simpl.
  - intros [= <-]. constructor.
  - destruct (Db._row_to_task r) as [t | |] eqn:Ht; [| done | done]. simpl.
    destruct (Db.rows_to_tasks rows) as [ts' | |]; [| done | done]. simpl.
    intros [= <-]. constructor; auto.
Qed.

Lemma rows_to_tasks_all rows :
  Forall (λ r, ∃ t, Db._row_to_task r = Ok t) rows →
  ∃ ts, Db.rows_to_tasks rows = Ok ts.
Proof.
  induction 1 as [|r rows [t Ht] _ [ts Hts]]; simpl; [eauto |].
  rewrite Ht, Hts. simpl. eauto.
Qed.


(** * Export *)








(** * Ready tasks *)

(** **** Text order and date order *)











(** **** The order of the query *)





(** Consecutive elements of a sorted list without repeated keys differ. *)
Lemma Sorted_distinct {A B} (R : relation A) (f : A → B) (l : list A) :
  NoDup (f <$> l) → Sorted R l → Sorted (λ a b, R a b ∧ f a ≠ f b) l.
Proof.
  intros Hnd Hs. induction Hs as [|a l Hs IH Hhd]; [constructor |].
  rewrite fmap_cons in Hnd. apply NoDup_cons in Hnd as [Ha Hnd].
  constructor; [by apply IH |].
  destruct Hhd as [|b l Hab]; constructor. split; [done |].
  intros Heq. apply Ha. rewrite Heq, fmap_cons. apply list_elem_of_here.
Qed.

(** Sortedness carries over along an element-wise correspondence. *)
Lemma Sorted_Forall2 {A B} (Q : A → B → Prop) (R1 : relation A) (R2 : relation B)
    (l : list A) (k : list B) :
  (∀ a b a' b', Q a a' → Q b b' → R1 a b → R2 a' b') →
  Forall2 Q l k → Sorted R1 l → Sorted R2 k.
Proof.
  intros Himp HQ. induction HQ as [|a a' l k Ha HQ IH]; intros Hs; [constructor |].
  apply Sorted_inv in Hs as [Hs Hhd]. constructor; [by apply IH |].
  destruct HQ as [|b b' l k Hb HQ]; constructor.
  apply HdRel_inv in Hhd. by eapply Himp.
Qed.

(** **** The order of the result *)




(** **** The filter of the query *)

Lemma ready_filter_iff db r :
  Db.row_status r = "todo" ∧ ¬ Db.has_unmet_prereq db r ↔ is_ready db r.
Proof.
  unfold is_ready, Db.has_unmet_prereq. apply and_iff_compat_l. split.
  - intros Hno prereq Hin Hedge.
    destruct (decide (Db.row_status prereq = "done")) as [? | Hnd]; [done |].
    destruct Hno. apply Exists_exists. exists (Db.row_id r, Db.row_id prereq).
    split; [done |]. apply Exists_exists. by exists prereq.
  - intros Hall ([t p] & Hd & Hex)%Exists_exists.
    apply Exists_exists in Hex as (prereq & Hin & Hid & Ht & Hnd). simpl in *. subst.
    by apply Hnd, Hall.
Qed.

(** **** Rows of a well-formed store *)

Lemma wf_row_to_task db r :
  wf_database db → r ∈ Db.tasks db →
  ∃ t, Db._row_to_task r = Ok t.
Proof.
  intros [_ Hdue Hc Hu] Hr.
  destruct (Hc r Hr) as [c Hc']. destruct (Hu r Hr) as [u Hu'].
  unfold Db._row_to_task, Db._parse_due. rewrite Hc', Hu'.
  destruct (Db.row_due r) as [s|] eqn:Hs; simpl; [| eauto].
  destruct (Hdue r s Hr Hs) as (d & Hd & ->).
  rewrite date_fromisoformat_isoformat by done. simpl. eauto.
Qed.


Lemma _row_to_task_fields r t :
  Db._row_to_task r = Ok t →
  Db.id t = Db.row_id r ∧ Db.priority t = Db.row_priority r ∧
  Db.status t = Db.row_status r.
Proof.
  intros Ht. destruct (_row_to_task_Ok r t Ht) as (c & u & _ & _ & _ & ->). done.
Qed.



(** * Import *)

Section ImportFacts.

Context (clock : nat → string).

Lemma row_of_json_id i t : Db.row_id (Db.row_of_json clock i t) = Db.j_id t.
Proof. done. Qed.

Lemma insert_tasks_spec (ts : list Db.json_task) (i : nat) (rows : list Db.Row) :
  NoDup ((Db.row_id <$> rows) ++ (Db.j_id <$> ts)) →
  (∀ t, t ∈ ts → Db.sqlite_int (Db.j_id t) ∧ Db.sqlite_int (default 0 (Db.j_priority t))) →
  Db.insert_tasks clock i rows ts =
    Ok (rows ++ imap (λ k, Db.row_of_json clock (i + k)) ts).
Proof.
  revert i rows. induction ts as [|t ts IH]; intros i rows Hnd Hints.
  - simpl. by rewrite app_nil_r.
  - simpl. unfold Db.insert_task.
    rewrite decide_True by (apply Hints, list_elem_of_here).
    simpl in Hnd. apply NoDup_app in Hnd as (Hrows & Hdisj & Hts).
    rewrite decide_False.
    2:{ intros Hin. apply (Hdisj _ Hin). simpl. apply list_elem_of_here. }
    cbn [mbind res_bind]. rewrite IH.
    + rewrite <- app_assoc. simpl. rewrite Nat.add_0_r. do 3 f_equal.
      apply imap_ext. intros k x _. simpl. f_equal. lia.
    + rewrite fmap_app. simpl. rewrite <- app_assoc. simpl.
      apply NoDup_app. split; [done |]. split; [| done].
      intros x Hx. by apply Hdisj.
    + intros t' Ht'. apply Hints. by apply list_elem_of_further.
Qed.

Lemma insert_deps_spec (rows : list Db.Row) (pairs ds : list (Z * Z)) :
  NoDup (ds ++ pairs) →
  (∀ d, d ∈ pairs →
     d.1 ∈ Db.row_id <$> rows ∧ d.2 ∈ Db.row_id <$> rows ∧
     Db.sqlite_int d.1 ∧ Db.sqlite_int d.2) →
  Db.insert_deps rows ds pairs = Ok (ds ++ pairs).
Proof.
  revert ds. induction pairs as [|d pairs IH]; intros ds Hnd Hrefs.
  - simpl. by rewrite app_nil_r.
  - simpl. unfold Db.insert_dep.
    destruct (Hrefs d) as (H1 & H2 & Hi1 & Hi2); [apply list_elem_of_here |].
    rewrite decide_True by done.
    apply NoDup_app in Hnd as (Hds & Hdisj & Hpairs).
    rewrite decide_False.
    2:{ intros Hin. apply (Hdisj _ Hin), list_elem_of_here. }
    rewrite decide_True by done. cbn [mbind res_bind]. rewrite IH.
    + by rewrite <- app_assoc.
    + rewrite <- app_assoc. simpl. apply NoDup_app. split; [done |]. split; [| done].
      intros x Hx. by apply Hdisj.
    + intros d' Hd'. apply Hrefs. by apply list_elem_of_further.
Qed.

Lemma fmap_imap_row_of_json (i : nat) (ts : list Db.json_task) :
  Db.row_id <$> imap (λ k, Db.row_of_json clock (i + k)) ts = Db.j_id <$> ts.
Proof.
  revert i. induction ts as [|t ts IH]; intros i; [done |].
  rewrite imap_cons, !fmap_cons. f_equal. rewrite <- (IH (S i)). f_equal.
  apply imap_ext. intros k x _. simpl. f_equal. lia.
Qed.

(** C8.  On a well-formed document [import_json] succeeds whatever the prior
    state of the database, and leaves exactly one row for each listed task
    object, in the order of the document: the row has the id and the title
    of the object and its description, priority, due date, status, tags and
    timestamps, where an absent description or tags is stored as the empty
    text, an absent priority as [0], an absent status as ['todo'] and an
    absent timestamp as the reading of the clock at that point.  The stored
    dependency pairs are exactly the listed ones, and the result is the same
    from any prior state. *)
Theorem import_json_replaces (db : Db.database) (data : Db.document) :
  wf_document data →
  ∃ db', Db.import_json clock db data = Ok db' ∧
    length (Db.tasks db') = length (Db.doc_tasks data) ∧
    (∀ (i : nat) t, Db.doc_tasks data !! i = Some t →
       ∃ r, Db.tasks db' !! i = Some r ∧
         Db.row_id r = Db.j_id t ∧
         Db.row_title r = Db.j_title t ∧
         Db.row_description r = default EmptyString (Db.j_description t) ∧
         Db.row_priority r = default 0 (Db.j_priority t) ∧
         Db.row_due r = Db.j_due t ∧
         Db.row_status r = default "todo"%string (Db.j_status t) ∧
         Db.row_tags r = default EmptyString (Db.j_tags t) ∧
         Db.row_created_at r = default (clock (2 * i)%nat) (Db.j_created_at t) ∧
         Db.row_updated_at r = default (clock (2 * i + 1)%nat) (Db.j_updated_at t)) ∧
    Db.row_id <$> Db.tasks db' = Db.j_id <$> Db.doc_tasks data ∧
    Db.deps db' = Db.doc_deps data ∧
    ∀ prior, Db.import_json clock prior data = Ok db'.
Proof.
  intros [Hids Hpairs Hrefs Hints].
  assert (Hrun : ∀ prior, Db.import_json clock prior data =
    Ok (Db.mkDatabase (imap (Db.row_of_json clock) (Db.doc_tasks data)) (Db.doc_deps data))).
  { intros prior. unfold Db.import_json. simpl.
    rewrite insert_tasks_spec by done. cbn [mbind res_bind]. simpl.
    rewrite insert_deps_spec; [done | done |].
    intros d Hd. rewrite (fmap_imap_row_of_json 0).
    destruct (Hrefs d Hd) as [H1 H2]. split; [done |]. split; [done |]. split.
    - apply list_elem_of_fmap in H1 as (t & -> & Ht). by apply Hints.
    - apply list_elem_of_fmap in H2 as (t & -> & Ht). by apply Hints. }
  eexists. split; [apply Hrun |]. cbn [Db.tasks Db.deps].
  split; [by rewrite length_imap |]. split.
  { intros i t Hi. exists (Db.row_of_json clock i t). split.
    - by rewrite list_lookup_imap, Hi.
    - done. }
  split; [| done]. apply (fmap_imap_row_of_json 0).
Qed.

End ImportFacts.

(** * Further properties of the graph engine *)

Lemma build_adjacency_ext (edges edges' : list Edge) :
  (∀ e, e ∈ edges ↔ e ∈ edges') → build_adjacency edges' = build_adjacency edges.
Proof.
  intros Hsame. apply map_eq. intros k.
  assert (Hends : k ∈ endpoints edges' ↔ k ∈ endpoints edges).
  { rewrite !elem_of_endpoints. by setoid_rewrite Hsame. }
  destruct (build_adjacency_lookup edges k) as [[Hk ->] | [Hk (s & -> & Hmem)]];
    destruct (build_adjacency_lookup edges' k) as [[Hk' ->] | [Hk' (s' & -> & Hmem')]];
    try done; try tauto.
  f_equal. apply set_eq. intros p. by rewrite Hmem, Hmem', Hsame.
Qed.

(** X1.  Every prerequisite recorded in the mapping is itself a key of the
    mapping, so a traversal can index [adj] with any node it meets. *)
Theorem build_adjacency_closed (edges : list Edge) (task prereq : Z) (s : gset Z) :
  build_adjacency edges !! task = Some s → prereq ∈ s →
  is_Some (build_adjacency edges !! prereq).
Proof.
  intros Hs Hin.
  destruct (build_adjacency_lookup edges task) as [[_ Hnone] | [_ (s' & Hs' & Hmem)]];
    [congruence |].
  replace s' with s in Hmem by congruence. apply Hmem in Hin.
  destruct (build_adjacency_lookup edges prereq) as [[Hk _] | [_ (s2 & -> & _)]]; [| eauto].
  destruct Hk. apply elem_of_endpoints. exists (task, prereq). auto.
Qed.

(** Adding the edge [(t, p)] to a graph in which [p] does not reach [t]
    creates no cycle. *)
Lemma tc_snoc_edge (edges : list Edge) (t p x y : Z) :
  ¬ rtc (depends_on edges) p t →
  tc (depends_on (edges ++ [(t, p)])) x y →
  tc (depends_on edges) x y ∨ (rtc (depends_on edges) x t ∧ rtc (depends_on edges) p y).
Proof.
  intros Hno Htc.
  assert (Hstep : ∀ u v, depends_on (edges ++ [(t, p)]) u v →
            depends_on edges u v ∨ (u = t ∧ v = p)).
  { intros u v Huv. unfold depends_on in *.
    apply elem_of_app in Huv as [? | Huv]; [by left |].
    apply list_elem_of_singleton in Huv. right. split; congruence. }
  induction Htc as [u v Huv | u v w Huv _ IH].
  - destruct (Hstep u v Huv) as [? | [-> ->]]; [left; by apply tc_once | by right].
  - destruct (Hstep u v Huv) as [Hold | [-> ->]].
    + destruct IH as [Htc | [Hvt Hpw]].
      * left. by eapply tc_l.
      * right. split; [by eapply rtc_l | done].
    + destruct IH as [Htc | [Hpt _]]; [| done].
      right. split; [done | by apply tc_rtc].
Qed.

Lemma edges_acyclic_snoc (edges : list Edge) (t p : Z) :
  edges_acyclic edges → ¬ rtc (depends_on edges) p t →
  edges_acyclic (edges ++ [(t, p)]).
Proof.
  intros Hacyc Hno [x Hx].
  destruct (tc_snoc_edge edges t p x x Hno Hx) as [Htc | [Hxt Hpx]].
  - apply Hacyc. eauto.
  - apply Hno. by etrans.
Qed.

Lemma tc_depends_on_app (edges extra : list Edge) (x y : Z) :
  tc (depends_on edges) x y → tc (depends_on (edges ++ extra)) x y.
Proof.
  induction 1 as [u v Huv | u v w Huv _ IH].
  - apply tc_once. unfold depends_on in *. apply elem_of_app. by left.
  - eapply tc_l; [| done]. unfold depends_on in *. apply elem_of_app. by left.
Qed.

Section EngineMore.

Context (set_iter : gset Z → list Z).
Hypothesis set_iter_perm : ∀ X, set_iter X ≡ₚ elements X.

Lemma has_path_decides (adj : gmap Z (gset Z)) (start target : Z) :
  ∃ b, Graph.has_path set_iter adj start target = Some b ∧
       (b = true ↔ rtc (adj_edge adj) start target).
Proof.
  destruct (has_path_fuel_terminates set_iter set_iter_perm adj start target
              (has_path_bound adj)) as [b Hb]; [lia |].
  exists b. split; [done |]. by eapply has_path_fuel_correct.
Qed.

Lemma would_create_cycle_decides (edges : list Edge) (task_id prereq_id : Z) :
  ∃ b, Graph.would_create_cycle set_iter edges task_id prereq_id = Some b ∧
       (b = true ↔ rtc (depends_on edges) prereq_id task_id).
Proof.
  unfold Graph.would_create_cycle. case_decide as Heq.
  - exists true. split; [done |]. by subst.
  - destruct (has_path_decides (build_adjacency edges) prereq_id task_id) as (b & Hb & Hiff).
    exists b. split; [done |]. by rewrite <- rtc_depends_on_build_adjacency.
Qed.

(** X2.  The check does what the command layer uses it for: when it answers
    [False], the graph with the proposed edge added is still acyclic (if it
    was before); when it answers [True], the graph with the edge added has a
    cycle. *)
Theorem would_create_cycle_guards (edges : list Edge) (task_id prereq_id : Z) :
  (Graph.would_create_cycle set_iter edges task_id prereq_id = Some false →
     edges_acyclic edges → edges_acyclic (edges ++ [(task_id, prereq_id)])) ∧
  (Graph.would_create_cycle set_iter edges task_id prereq_id = Some true →
     ¬ edges_acyclic (edges ++ [(task_id, prereq_id)])).
Proof.
  destruct (would_create_cycle_decides edges task_id prereq_id) as (b & Hb & Hiff).
  rewrite Hb. split.
  - intros [= ->] Hacyc. apply edges_acyclic_snoc; [done |].
    intros Hreach. by apply Hiff in Hreach.
  - intros [= ->] Hacyc. apply Hacyc. exists task_id.
    assert (Hnew : depends_on (edges ++ [(task_id, prereq_id)]) task_id prereq_id).
    { unfold depends_on. apply elem_of_app. right. apply list_elem_of_here. }
    destruct (proj1 (rtc_tc _ _) (proj1 Hiff eq_refl)) as [-> | Htc].
    + by apply tc_once.
    + eapply tc_l; [done |]. by apply tc_depends_on_app.
Qed.

(** X3.  The check looks at the edges as a set: two edge lists with the same
    members, in any order and with any repetitions, get the same answer. *)
Theorem would_create_cycle_ext (edges edges' : list Edge) (task_id prereq_id : Z) :
  (∀ e, e ∈ edges ↔ e ∈ edges') →
  Graph.would_create_cycle set_iter edges' task_id prereq_id =
  Graph.would_create_cycle set_iter edges task_id prereq_id.
Proof.
  intros Hsame. unfold Graph.would_create_cycle. by rewrite (build_adjacency_ext edges edges').
Qed.

(** X5.  Whatever the edge list, repeated edges included, a sequence that
    [topo_sort] returns holds every node of the set once and every
    prerequisite before the tasks that depend on it. *)
Theorem topo_sort_returns_order (tasks : list Z) (edges : list Edge) (out : list Z) :
  Graph.topo_sort set_iter tasks edges = Ok out →
  NoDup out ∧ (∀ x, x ∈ out ↔ x ∈ tasks) ∧
  (∀ task prereq, (task, prereq) ∈ edges → task ∈ tasks → prereq ∈ tasks →
     before out prereq task).
Proof. by apply topo_sort_Ok_sorted. Qed.

(** X6.  Whatever the edge list, [topo_sort] either returns or raises
    [ValueError]: the lookups [indegree[task]] and [indegree[dep]] never
    raise [KeyError] and the [while] loop ends within [len(tasks_set)]
    rounds.  It raises whenever the edges within the node set hold a cycle. *)
Theorem topo_sort_outcomes (tasks : list Z) (edges : list Edge) :
  ((∃ out, Graph.topo_sort set_iter tasks edges = Ok out) ∨
   Graph.topo_sort set_iter tasks edges = Raise ValueError) ∧
  (has_cycle (list_to_set tasks) edges →
   Graph.topo_sort set_iter tasks edges = Raise ValueError).
Proof.
  split; [| by apply topo_sort_cycle_raises].
  destruct (topo_sort_cases set_iter set_iter_perm tasks edges)
    as (indegree & out & _ & _ & [[_ Hok] | [_ Herr]]); eauto.
Qed.

End EngineMore.

(** X4.  The answers of [has_path] and [would_create_cycle] do not depend on
    the order in which Python happens to iterate over the sets. *)
Theorem has_path_order_independent (iter1 iter2 : gset Z → list Z)
    (adj : gmap Z (gset Z)) (edges : list Edge) (a b : Z) :
  (∀ X, iter1 X ≡ₚ elements X) → (∀ X, iter2 X ≡ₚ elements X) →
  Graph.has_path iter1 adj a b = Graph.has_path iter2 adj a b ∧
  Graph.would_create_cycle iter1 edges a b = Graph.would_create_cycle iter2 edges a b.
Proof.
  intros H1 H2. split.
  - destruct (has_path_decides iter1 H1 adj a b) as (b1 & -> & Hb1).
    destruct (has_path_decides iter2 H2 adj a b) as (b2 & -> & Hb2).
    f_equal. destruct b1, b2; try done; [symmetry |]; tauto.
  - destruct (would_create_cycle_decides iter1 H1 edges a b) as (b1 & -> & Hb1).
    destruct (would_create_cycle_decides iter2 H2 edges a b) as (b2 & -> & Hb2).
    f_equal. destruct b1, b2; try done; [symmetry |]; tauto.
Qed.

(** **** Repeated edges *)

Lemma not_NoDup_split {A} `{EqDecision A} (l : list A) :
  ¬ NoDup l → ∃ l1 x l2, l = l1 ++ x :: l2 ∧ x ∈ l1 ++ l2.
Proof.
  induction l as [|a l IH]; intros Hnd; [destruct Hnd; constructor |].
  destruct (decide (a ∈ l)) as [Hin | Hnin].
  - by exists [], a, l.
  - destruct IH as (l1 & x & l2 & -> & Hx).
    { intros Hl. apply Hnd. by constructor. }
    exists (a :: l1), x, l2. split; [done |]. simpl. by apply list_elem_of_further.
Qed.

Lemma resolved_le_mult (G : list Edge) (out : list Z) (t : Z) :
  NoDup out → (resolved G out t ≤ mult G t)%nat.
Proof.
  intros Hnd. unfold resolved, mult.
  rewrite <- (length_fmap (λ p, (t, p)) (filter _ out)).
  apply submseteq_length, NoDup_submseteq.
  - apply NoDup_fmap_2; [intros p q; congruence |]. by apply NoDup_filter.
  - intros e (p & -> & [Hp _]%list_elem_of_filter)%list_elem_of_fmap.
    by apply list_elem_of_filter.
Qed.

(** A task with an edge that is listed twice has more listed edges than it
    can ever have prerequisites output. *)
Lemma resolved_lt_mult (l1 l2 : list Edge) (t p : Z) (out : list Z) :
  NoDup out → (t, p) ∈ l1 ++ l2 →
  (resolved (l1 ++ (t, p) :: l2) out t < mult (l1 ++ (t, p) :: l2) t)%nat.
Proof.
  intros Hnd Hin.
  assert (Hres : resolved (l1 ++ (t, p) :: l2) out t = resolved (l1 ++ l2) out t).
  { unfold resolved. f_equal. apply list_filter_iff. intros q.
    rewrite !elem_of_app, elem_of_cons. rewrite elem_of_app in Hin.
    split; [| tauto]. intros [? | [[= ->] | ?]]; tauto. }
  assert (Hmult : mult (l1 ++ (t, p) :: l2) t = S (mult (l1 ++ l2) t)).
  { unfold mult. rewrite !filter_app, filter_cons_True by done.
    rewrite !length_app. simpl. lia. }
  pose proof (resolved_le_mult (l1 ++ l2) out t Hnd). lia.
Qed.

Lemma resolved_snoc (G : list Edge) (out : list Z) (n t : Z) :
  resolved G (out ++ [n]) t =
    (resolved G out t + if decide ((t, n) ∈ G) then 1 else 0)%nat.
Proof.
  unfold resolved. rewrite filter_app, length_app. f_equal.
  rewrite filter_cons, filter_nil. by case_decide.
Qed.

Section KahnCount.

Context (set_iter : gset Z → list Z).
Hypothesis set_iter_perm : ∀ X, set_iter X ≡ₚ elements X.

Context (tasks_set : gset Z) (G : list Edge) (prereq_to_dependents : gmap Z (gset Z)).
Hypothesis G_within : ∀ t p, (t, p) ∈ G → t ∈ tasks_set ∧ p ∈ tasks_set.
Hypothesis dependents_spec :
  ∀ t p, t ∈ default ∅ (prereq_to_dependents !! p) ↔ (t, p) ∈ G.

Lemma kahn_count_step indegree indegree' n q q' out :
  kahn_inv tasks_set G indegree (n :: q) out →
  kahn_count tasks_set G indegree out →
  relax (set_iter (default ∅ (prereq_to_dependents !! n))) indegree q
    = Ok (indegree', q') →
  kahn_count tasks_set G indegree' (out ++ [n]).
Proof.
  intros Hinv Hcount Hrun.
  destruct (relax_spec (set_iter (default ∅ (prereq_to_dependents !! n))) indegree q)
    as (indegree'' & Hrun' & _ & Hl).
  { apply (NoDup_set_iter set_iter set_iter_perm). }
  { intros t Ht. apply (elem_of_set_iter set_iter set_iter_perm) in Ht.
    apply dependents_spec, G_within in Ht as [Ht _].
    apply elem_of_dom. by rewrite (k_dom _ _ _ _ _ Hinv). }
  rewrite Hrun in Hrun'. injection Hrun' as -> _.
  intros t Ht. rewrite Hl, (Hcount t Ht), resolved_snoc.
  pose proof (elem_of_set_iter set_iter set_iter_perm
                (default ∅ (prereq_to_dependents !! n)) t) as Hmem.
  rewrite dependents_spec in Hmem.
  destruct (decide (t ∈ set_iter _)) as [Hin | Hout];
    destruct (decide ((t, n) ∈ G)); try tauto; simpl; f_equal; lia.
Qed.

Lemma kahn_loop_count fuel indegree q out :
  kahn_inv tasks_set G indegree q out →
  kahn_count tasks_set G indegree out →
  (size tasks_set - length out < fuel)%nat →
  ∃ indegree' out',
    Graph.kahn_loop set_iter fuel prereq_to_dependents indegree q out = Ok out' ∧
    kahn_inv tasks_set G indegree' [] out' ∧
    kahn_count tasks_set G indegree' out'.
Proof.
  revert indegree q out. induction fuel as [|fuel IH];
    intros indegree q out Hinv Hcount Hfuel; [lia |].
  simpl. destruct q as [|n q]; [eauto |].
  assert (Hlen : (length (out ++ n :: q) ≤ size tasks_set)%nat).
  { apply NoDup_length_le_size; [apply (k_nodup _ _ _ _ _ Hinv) | apply (k_sub _ _ _ _ _ Hinv)]. }
  rewrite length_app in Hlen. simpl in Hlen.
  destruct (kahn_step set_iter set_iter_perm tasks_set G prereq_to_dependents
              G_within dependents_spec indegree n q out Hinv)
    as (indegree' & q' & Hrun & Hinv').
  pose proof (kahn_count_step _ _ _ _ _ _ Hinv Hcount Hrun) as Hcount'.
  rewrite Hrun. simpl. apply (IH _ _ _ Hinv' Hcount'). rewrite length_app. simpl. lia.
Qed.

End KahnCount.

Section DuplicateEdges.

Context (set_iter : gset Z → list Z).
Hypothesis set_iter_perm : ∀ X, set_iter X ≡ₚ elements X.

Lemma topo_sort_out_count (tasks : list Z) (edges : list Edge) :
  ∃ indegree out,
    Graph.topo_sort_out set_iter tasks edges = Ok out ∧
    kahn_inv (list_to_set tasks) (restrict (list_to_set tasks) edges) indegree [] out ∧
    kahn_count (list_to_set tasks) (restrict (list_to_set tasks) edges) indegree out.
Proof.
  set (tasks_set := list_to_set tasks : gset Z).
  unfold Graph.topo_sort_out. fold tasks_set.
  destruct (record_edges_spec tasks_set edges (∅, gset_to_gmap 0 tasks_set))
    as ([p2d indegree] & Hrun & Hdom & Hdeps & Hdeg).
  { simpl. apply dom_gset_to_gmap. }
  rewrite Hrun. cbn [mbind res_bind]. simpl in Hdom, Hdeps, Hdeg.
  set (G := restrict tasks_set edges) in *.
  set (q := filter (λ t, indegree !! t = Some 0) (set_iter tasks_set)).
  assert (Hstart : ∀ t, t ∈ tasks_set → indegree !! t = Some (Z.of_nat (mult G t))).
  { intros t Ht. rewrite Hdeg.
    by rewrite (proj2 (lookup_gset_to_gmap_Some 0 tasks_set t 0)). }
  assert (Hinit : kahn_inv tasks_set G indegree q []).
  { split.
    - done.
    - simpl. apply NoDup_filter, (NoDup_set_iter set_iter set_iter_perm).
    - simpl. intros x [_ Hx]%list_elem_of_filter.
      by apply (elem_of_set_iter set_iter set_iter_perm) in Hx.
    - intros t Ht. rewrite (Hstart t Ht), pending_nil.
      eexists; split; [done |]. split; [lia | intros _; lia].
    - intros t Ht. simpl. unfold q. rewrite list_elem_of_filter.
      rewrite (elem_of_set_iter set_iter set_iter_perm). tauto.
    - intros t p _ Hin. by apply not_elem_of_nil in Hin. }
  assert (Hcount : kahn_count tasks_set G indegree []).
  { intros t Ht. rewrite (Hstart t Ht). unfold resolved. simpl. f_equal. lia. }
  destruct (kahn_loop_count set_iter set_iter_perm tasks_set G p2d) with
    (fuel := S (size tasks_set)) (indegree := indegree) (q := q) (out := @nil Z)
    as (indegree' & out & Hloop & Hinv & Hcnt).
  - intros t p Htp. apply elem_of_restrict in Htp. unfold edge_within in Htp. tauto.
  - intros t p. rewrite Hdeps, lookup_empty. simpl. set_solver.
  - done.
  - done.
  - simpl. lia.
  - by exists indegree', out.
Qed.

(** X7.  [topo_sort] counts an edge once for every time it is listed but
    releases it once, so it raises [ValueError] exactly when the edges
    within the node set hold a cycle or list some edge more than once. *)
Theorem topo_sort_raises_iff (tasks : list Z) (edges : list Edge) :
  Graph.topo_sort set_iter tasks edges = Raise ValueError ↔
  has_cycle (list_to_set tasks) edges ∨ ¬ NoDup (restrict (list_to_set tasks) edges).
Proof.
  destruct (topo_sort_out_count tasks edges) as (indegree & out & Hrun & Hinv & Hcount).
  set (tasks_set := list_to_set tasks : gset Z) in *.
  unfold Graph.topo_sort. rewrite Hrun. cbn [mbind res_bind]. fold tasks_set.
  destruct (decide (length out ≠ size tasks_set)) as [Hne | Heq]; split; try done.
  - intros _. destruct (decide (NoDup (restrict tasks_set edges))) as [Hnd | Hnd];
      [left | by right]. by eapply kahn_short_cycle.
  - intros [Hcyc | Hdup]; exfalso.
    + assert (length out = size tasks_set) as Hlen by (destruct (decide (length out = size tasks_set)); tauto).
      by apply (kahn_full_no_cycle _ _ _ _ Hinv Hlen).
    + assert (length out = size tasks_set) as Hlen by (destruct (decide (length out = size tasks_set)); tauto).
      apply not_NoDup_split in Hdup as (l1 & [t p] & l2 & HG & Hin).
      assert (Ht : t ∈ tasks_set).
      { assert ((t, p) ∈ restrict tasks_set edges) as Htp.
        { rewrite HG. apply elem_of_app. right. apply list_elem_of_here. }
        apply elem_of_restrict in Htp. unfold edge_within in Htp. tauto. }
      pose proof (kahn_exit_NoDup _ _ _ _ Hinv) as Hnd.
      pose proof (NoDup_full out _ Hnd (kahn_exit_sub _ _ _ _ Hinv) Hlen t Ht) as Hout.
      rewrite <- (app_nil_r out) in Hout.
      apply (k_zero _ _ _ _ _ Hinv t Ht) in Hout.
      rewrite (Hcount t Ht), HG in Hout. injection Hout as Hout.
      pose proof (resolved_lt_mult l1 l2 t p out Hnd Hin). lia.
Qed.

End DuplicateEdges.

(** * Further properties of the store and the command layer *)

Arguments Db._iso_now : simpl never.
Arguments Db.datetime_fromisoformat : simpl never.
Arguments Db.date_fromisoformat : simpl never.
Arguments Db.replace_Z : simpl never.

Lemma NoDup_fmap_elem_eq {A B} (f : A → B) (l : list A) (x y : A) :
  NoDup (f <$> l) → x ∈ l → y ∈ l → f x = f y → x = y.
Proof.
  intros Hnd (i & Hi)%list_elem_of_lookup (j & Hj)%list_elem_of_lookup Heq.
  assert (i = j) as ->.
  { eapply NoDup_lookup; [done | |].
    - by rewrite list_lookup_fmap, Hi.
    - rewrite list_lookup_fmap, Hj. simpl. by rewrite Heq. }
  congruence.
Qed.

Lemma get_task_found (db : Db.database) (r : Db.Row) :
  NoDup (Db.row_id <$> Db.tasks db) → r ∈ Db.tasks db → Db.sqlite_int (Db.row_id r) →
  Db.get_task db (Db.row_id r) = (t ← Db._row_to_task r; Ok (Some t)).
Proof.
  intros Hnd Hr Hint. unfold Db.get_task. rewrite decide_True by done.
  destruct (list_find_elem_of (λ r', Db.row_id r' = Db.row_id r) (Db.tasks db) r Hr eq_refl)
    as [[i r'] Hfind].
  rewrite Hfind. apply list_find_Some in Hfind as (Hi & Hid & _).
  apply list_elem_of_lookup_2 in Hi.
  by rewrite (NoDup_fmap_elem_eq Db.row_id (Db.tasks db) r' r Hnd Hi Hr Hid).
Qed.

Lemma get_task_missing (db : Db.database) (i : Z) :
  i ∉ Db.row_id <$> Db.tasks db → Db.sqlite_int i → Db.get_task db i = Ok None.
Proof.
  intros Hi Hint. unfold Db.get_task. rewrite decide_True by done.
  rewrite (proj2 (list_find_None _ _)); [done |].
  apply Forall_forall. intros r Hr Hid. apply Hi.
  apply list_elem_of_fmap. by exists r.
Qed.

(** X8.  [mark_done] answers whether a row has the id; it sets the status of
    that row to ['done'] and its [updated_at] to the reading of the clock,
    and touches nothing else: no other row, no id, no dependency.  With an
    id that no row has, the database is left as it was. *)
Theorem mark_done_spec (db : Db.database) (utcnow : Db.datetime) (task_id : Z) :
  Db.sqlite_int task_id →
  ∃ ok db', Db.mark_done db utcnow task_id = Ok (ok, db') ∧
    (ok = true ↔ task_id ∈ Db.row_id <$> Db.tasks db) ∧
    Db.deps db' = Db.deps db ∧
    Db.tasks db' =
      (λ r, if decide (Db.row_id r = task_id) then done_row (Db._iso_now utcnow) r else r)
        <$> Db.tasks db ∧
    Db.row_id <$> Db.tasks db' = Db.row_id <$> Db.tasks db ∧
    (task_id ∉ Db.row_id <$> Db.tasks db → db' = db).
Proof.
  intros Hint. unfold Db.mark_done. rewrite decide_True by done.
  eexists _, _. split; [done |]. simpl.
  assert (Hhit : (0 < length (filter (λ r, Db.row_id r = task_id) (Db.tasks db)))%nat ↔
                 task_id ∈ Db.row_id <$> Db.tasks db).
  { rewrite list_elem_of_fmap. split.
    - intros Hlen. destruct (filter _ (Db.tasks db)) as [|r l] eqn:Hf; [simpl in Hlen; lia |].
      assert (r ∈ filter (λ r, Db.row_id r = task_id) (Db.tasks db)) as Hr
        by (rewrite Hf; apply list_elem_of_here).
      apply list_elem_of_filter in Hr as [Hid Hr]. by exists r.
    - intros (r & -> & Hr).
      assert (r ∈ filter (λ r', Db.row_id r' = Db.row_id r) (Db.tasks db)) as Hf
        by (by apply list_elem_of_filter).
      destruct (filter _ (Db.tasks db)); [by apply elem_of_nil in Hf | simpl; lia]. }
  split; [| split; [done | split; [done | split]]].
  - rewrite <- Hhit. apply bool_decide_eq_true.
  - rewrite <- list_fmap_compose. apply list_fmap_ext. intros i r _. simpl.
    by case_decide.
  - intros Hmiss. destruct db as [rows ds]. simpl in *. f_equal.
    rewrite <- (list_fmap_id rows) at 2. apply list_fmap_ext. intros i r Hr. simpl.
    rewrite decide_False; [done |]. intros Hid. apply Hmiss.
    apply list_elem_of_fmap. exists r. split; [done |]. by eapply list_elem_of_lookup_2.
Qed.

Lemma add_dependency_stored (db db' : Db.database) (task_id depends_on_id : Z) :
  Db.add_dependency db task_id depends_on_id = Ok db' →
  Db.tasks db' = Db.tasks db ∧
  (∀ e, e ∈ Db.deps db' ↔ e ∈ Db.deps db ∨ e = (task_id, depends_on_id)) ∧
  (NoDup (Db.deps db) → NoDup (Db.deps db')).
Proof.
  unfold Db.add_dependency.
  destruct (decide (Db.sqlite_int task_id ∧ Db.sqlite_int depends_on_id)) as [Hint |]; [| done].
  destruct (decide ((task_id, depends_on_id) ∈ Db.deps db)) as [Hin | Hnin].
  - intros [= <-]. split; [done |]. split; [naive_solver | done].
  - destruct (decide (_ ∧ _)) as [Hfk |]; [| done]. intros [= <-]. simpl.
    split; [done |]. split.
    { intros e. rewrite elem_of_app, list_elem_of_singleton. tauto. }
    intros Hnd. apply NoDup_app. split; [done |]. split; [| apply NoDup_singleton].
    intros e He ->%list_elem_of_singleton. done.
Qed.

Lemma rtc_depends_on_mono (edges edges' : list Edge) (x y : Z) :
  (∀ e, e ∈ edges → e ∈ edges') →
  rtc (depends_on edges) x y → rtc (depends_on edges') x y.
Proof.
  intros Hsub. apply rtc_subrel. intros u v Huv. by apply Hsub.
Qed.

(** X9.  [add_dependency] returns exactly when the pair is already stored
    or both ids are ids of tasks, and raises [IntegrityError] otherwise.
    When it returns, the pair is in [deps], the tasks and the other pairs are
    as before, no pair gets listed twice, and a second call with the same
    pair changes nothing.  It makes no cycle check of its own: a pair whose
    prerequisite already reaches the task is stored all the same and leaves
    a cycle in [deps], and for an existing task it stores even the
    dependency of the task on itself. *)
Theorem add_dependency_spec (db : Db.database) (task_id depends_on_id : Z) :
  Db.sqlite_int task_id → Db.sqlite_int depends_on_id →
  ((task_id, depends_on_id) ∈ Db.deps db ∨
   (task_id ∈ Db.row_id <$> Db.tasks db ∧ depends_on_id ∈ Db.row_id <$> Db.tasks db) →
   ∃ db', Db.add_dependency db task_id depends_on_id = Ok db' ∧
     Db.tasks db' = Db.tasks db ∧
     (∀ e, e ∈ Db.deps db' ↔ e ∈ Db.deps db ∨ e = (task_id, depends_on_id)) ∧
     (NoDup (Db.deps db) → NoDup (Db.deps db')) ∧
     Db.add_dependency db' task_id depends_on_id = Ok db' ∧
     (rtc (depends_on (Db.deps db)) depends_on_id task_id →
      ¬ edges_acyclic (Db.deps db'))) ∧
  (¬ ((task_id, depends_on_id) ∈ Db.deps db ∨
      (task_id ∈ Db.row_id <$> Db.tasks db ∧
       depends_on_id ∈ Db.row_id <$> Db.tasks db)) →
   Db.add_dependency db task_id depends_on_id = Raise IntegrityError) ∧
  (task_id ∈ Db.row_id <$> Db.tasks db →
   ∃ db', Db.add_dependency db task_id task_id = Ok db' ∧
     (task_id, task_id) ∈ Db.deps db' ∧ ¬ edges_acyclic (Db.deps db')).
Proof.
  intros Ht Hd.
  assert (Hret : ∀ d, Db.sqlite_int d →
    (task_id, d) ∈ Db.deps db ∨
    (task_id ∈ Db.row_id <$> Db.tasks db ∧ d ∈ Db.row_id <$> Db.tasks db) →
    ∃ db', Db.add_dependency db task_id d = Ok db').
  { intros d Hd' Hcan. unfold Db.add_dependency. rewrite decide_True by done.
    destruct (decide ((task_id, d) ∈ Db.deps db)); [eauto |].
    rewrite decide_True by tauto. eauto. }
  assert (Hcycle : ∀ d db', Db.add_dependency db task_id d = Ok db' →
    rtc (depends_on (Db.deps db)) d task_id → ¬ edges_acyclic (Db.deps db')).
  { intros d db' Hadd Hreach Hacyc.
    destruct (add_dependency_stored db db' task_id d Hadd) as (_ & Hdeps & _).
    apply Hacyc. exists task_id. eapply tc_rtc_r.
    - apply tc_once. unfold depends_on. apply Hdeps. by right.
    - eapply rtc_depends_on_mono; [| done]. intros e He. apply Hdeps. by left. }
  split; [| split].
  - intros Hcan. destruct (Hret depends_on_id Hd Hcan) as [db' Hadd]. exists db'.
    destruct (add_dependency_stored db db' task_id depends_on_id Hadd)
      as (Htasks & Hdeps & Hnd).
    split; [done |]. split; [done |]. split; [done |]. split; [done |]. split.
    + unfold Db.add_dependency. rewrite decide_True by done.
      rewrite decide_True; [done |]. apply Hdeps. by right.
    + by apply Hcycle.
  - intros Hnot. unfold Db.add_dependency. rewrite decide_True by done.
    rewrite decide_False by tauto. rewrite decide_False by tauto. done.
  - intros Hin. destruct (Hret task_id Ht) as [db' Hadd]; [tauto |]. exists db'.
    split; [done |]. split.
    + destruct (add_dependency_stored db db' task_id task_id Hadd) as (_ & Hdeps & _).
      apply Hdeps. by right.
    + by apply (Hcycle task_id).
Qed.

Section CommandFacts.

Context (set_iter : gset Z → list Z).
Hypothesis set_iter_perm : ∀ X, set_iter X ≡ₚ elements X.

Lemma get_task_store_ok (db : Db.database) (i : Z) :
  store_ok db → Db.sqlite_int i →
  (i ∈ Db.row_id <$> Db.tasks db ∧ ∃ t, Db.get_task db i = Ok (Some t)) ∨
  (i ∉ Db.row_id <$> Db.tasks db ∧ Db.get_task db i = Ok None).
Proof.
  intros Hok Hint. destruct (decide (i ∈ Db.row_id <$> Db.tasks db)) as [Hin | Hout].
  - left. split; [done |]. apply list_elem_of_fmap in Hin as (r & -> & Hr).
    destruct (ok_readable _ Hok r Hr) as [t Ht]. exists t.
    rewrite get_task_found by (done || apply (ok_primary_key _ Hok)).
    by rewrite Ht.
  - right. split; [done |]. by apply get_task_missing.
Qed.

(** X10.  [cmd_depend] keeps the store in order, acyclic in particular.  It ends
    with code 0 exactly when both ids are ids of tasks and the prerequisite
    does not already reach the task along the dependencies (a task never
    gets to depend on itself); then the pair is in [deps], and nothing else
    has changed.  Otherwise it ends with code 1 and leaves the database as
    it was. *)
Theorem cmd_depend_spec (db : Db.database) (task_id prereq_id : Z) :
  store_ok db → Db.sqlite_int task_id → Db.sqlite_int prereq_id →
  ∃ code db', Cli.cmd_depend set_iter db task_id prereq_id = Ok (code, db') ∧
    store_ok db' ∧ Db.tasks db' = Db.tasks db ∧
    ((code = 0 ∧
      (∀ e, e ∈ Db.deps db' ↔ e ∈ Db.deps db ∨ e = (task_id, prereq_id)) ∧
      task_id ∈ Db.row_id <$> Db.tasks db ∧ prereq_id ∈ Db.row_id <$> Db.tasks db ∧
      ¬ rtc (depends_on (Db.deps db)) prereq_id task_id) ∨
     (code = 1 ∧ db' = db ∧
      (task_id ∉ Db.row_id <$> Db.tasks db ∨ prereq_id ∉ Db.row_id <$> Db.tasks db ∨
       rtc (depends_on (Db.deps db)) prereq_id task_id))).
Proof.
  intros Hok Ht Hp. unfold Cli.cmd_depend.
  destruct (get_task_store_ok db task_id Hok Ht) as [[Htin [t ->]] | [Htout ->]];
    cbn [mbind res_bind]; [| exists 1, db; split; [done |]; eauto 10].
  destruct (get_task_store_ok db prereq_id Hok Hp) as [[Hpin [p ->]] | [Hpout ->]];
    cbn [mbind res_bind]; [| exists 1, db; split; [done |]; eauto 10].
  unfold Db.get_dependencies.
  destruct (would_create_cycle_decides set_iter set_iter_perm (Db.deps db) task_id prereq_id)
    as (b & -> & Hb).
  destruct b.
  { exists 1, db. split; [done |]. split; [done |]. split; [done |].
    right. split; [done |]. split; [done |]. right. right. by apply Hb. }
  assert (Hno : ¬ rtc (depends_on (Db.deps db)) prereq_id task_id).
  { intros Hreach. by apply Hb in Hreach. }
  destruct (Db.add_dependency db task_id prereq_id) as [db' | e |] eqn:Hadd.
  2,3: unfold Db.add_dependency in Hadd; rewrite decide_True in Hadd by done;
       case_decide; [done |]; by rewrite decide_True in Hadd.
  cbn [mbind res_bind]. exists 0, db'. split; [done |].
  destruct (add_dependency_stored db db' task_id prereq_id Hadd)
    as (Htasks & Hdeps & Hnd).
  assert (Hok' : store_ok db').
  { destruct Hok as [Hpk Hints Hread Hpairs Hrefs Hacyc]. split.
    - by rewrite Htasks.
    - rewrite Htasks. done.
    - rewrite Htasks. done.
    - by apply Hnd.
    - rewrite Htasks. intros d [Hd | ->]%Hdeps; [by apply Hrefs | done].
    - unfold Db.add_dependency in Hadd. rewrite decide_True in Hadd by done.
      destruct (decide ((task_id, prereq_id) ∈ Db.deps db)).
      + by injection Hadd as <-.
      + rewrite decide_True in Hadd by done. injection Hadd as <-. simpl.
        by apply edges_acyclic_snoc. }
  split; [done |]. split; [done |]. left. done.
Qed.

End CommandFacts.

(** The ids that [ready_tasks] lists on a well-formed store. *)
Lemma ready_tasks_ids (db : Db.database) :
  wf_database db →
  ∃ ts, Db.ready_tasks db = Ok ts ∧
    ∀ i, i ∈ Db.id <$> ts ↔ ∃ r, r ∈ Db.tasks db ∧ Db.row_id r = i ∧ is_ready db r.
Proof.
  intros Hwf. unfold Db.ready_tasks.
  set (rows := filter (λ t, Db.row_status t = "todo" ∧ ¬ Db.has_unmet_prereq db t)
                 (Db.tasks db)).
  set (sorted := merge_sort Db.ready_order rows).
  assert (Hrows : ∀ r, r ∈ sorted ↔ r ∈ Db.tasks db ∧ is_ready db r).
  { intros r. unfold sorted. rewrite merge_sort_Permutation. unfold rows.
    rewrite list_elem_of_filter, ready_filter_iff. tauto. }
  destruct (rows_to_tasks_all sorted) as [ts Hts].
  { apply Forall_forall. intros r [Hr _]%Hrows. by eapply wf_row_to_task. }
  exists ts. split; [done |]. apply rows_to_tasks_Ok in Hts.
  assert (Hids : Db.id <$> ts = Db.row_id <$> sorted).
  { clear Hrows. induction Hts as [|r t l k Hrt _ IH]; [done |].
    rewrite !fmap_cons, IH. f_equal. by apply _row_to_task_fields in Hrt as [-> _]. }
  intros i. rewrite Hids, list_elem_of_fmap. split.
  - intros (r & -> & [Hr Hready]%Hrows). by exists r.
  - intros (r & Hr & <- & Hready). exists r. split; [done |]. by apply Hrows.
Qed.

Lemma _iso_now_readable (utcnow : Db.datetime) :
  Db.valid_datetime utcnow → Db.tzinfo utcnow = None →
  Db.datetime_fromisoformat (Db.replace_Z (Db._iso_now utcnow)) =
    Some (Db.mkDatetime (Db.dt_date utcnow) (Db.hour utcnow) (Db.minute utcnow)
            (Db.second utcnow) 0 (Some 0)).
Proof.
  intros (Hd & Hh & Hm & Hs & _ & _) Htz. unfold Db._iso_now.
  rewrite replace_Z_stamp, datetime_fromisoformat_stamp; [done | | done | done].
  unfold Db.valid_datetime. simpl. rewrite Htz.
  split; [done |]. split; [done |]. split; [done |]. split; [done |]. split; [lia | done].
Qed.

Lemma wf_database_mark_done (db db' : Db.database) (utcnow : Db.datetime)
    (task_id : Z) (ok : bool) :
  wf_database db → Db.valid_datetime utcnow → Db.tzinfo utcnow = None →
  Db.mark_done db utcnow task_id = Ok (ok, db') →
  wf_database db'.
Proof.
  intros [Hpk Hdue Hc Hu] Hvalid Htz. unfold Db.mark_done.
  case_decide; [| done]. intros [= _ <-].
  assert (Hrow : ∀ r', r' ∈ (λ r, if decide (Db.row_id r = task_id)
                   then Db.mkRow (Db.row_id r) (Db.row_title r) (Db.row_description r)
                          (Db.row_priority r) (Db.row_due r) "done" (Db.row_tags r)
                          (Db.row_created_at r) (Db._iso_now utcnow)
                   else r) <$> Db.tasks db →
            ∃ r, r ∈ Db.tasks db ∧
              (r' = r ∨ r' = done_row (Db._iso_now utcnow) r)).
  { intros r' (r & -> & Hr)%list_elem_of_fmap. exists r. split; [done |].
    case_decide; [by right | by left]. }
  split; simpl.
  - rewrite <- list_fmap_compose.
    erewrite list_fmap_ext; [exact Hpk |]. intros i r _. simpl. by case_decide.
  - intros r' s (r & Hr & [-> | ->])%Hrow Hs; by apply (Hdue r s).
  - intros r' (r & Hr & [-> | ->])%Hrow; by apply (Hc r).
  - intros r' (r & Hr & [-> | ->])%Hrow; [by apply Hu |].
    simpl. rewrite _iso_now_readable by done. eauto.
Qed.

(** X11.  Marking a task done is what unblocks its dependents: after
    [mark_done] on [task_id], [ready_tasks] lists exactly the ids of the
    ['todo'] rows other than [task_id] whose prerequisites, [task_id] apart,
    are all ['done']. *)
Theorem mark_done_unblocks (db db' : Db.database) (utcnow : Db.datetime)
    (task_id : Z) (ok : bool) :
  wf_database db → Db.valid_datetime utcnow → Db.tzinfo utcnow = None →
  Db.mark_done db utcnow task_id = Ok (ok, db') →
  ∃ ts, Db.ready_tasks db' = Ok ts ∧
    ∀ i, i ∈ Db.id <$> ts ↔
      ∃ r, r ∈ Db.tasks db ∧ Db.row_id r = i ∧ i ≠ task_id ∧
        Db.row_status r = "todo" ∧
        ∀ prereq, prereq ∈ Db.tasks db → (i, Db.row_id prereq) ∈ Db.deps db →
                  Db.row_id prereq = task_id ∨ Db.row_status prereq = "done".
Proof.
  intros Hwf Hvalid Htz Hrun.
  pose proof (wf_database_mark_done db db' utcnow task_id ok Hwf Hvalid Htz Hrun) as Hwf'.
  destruct (ready_tasks_ids db' Hwf') as (ts & Hts & Hids).
  exists ts. split; [done |]. intros i. rewrite Hids. clear Hids Hts.
  unfold Db.mark_done in Hrun. case_decide; [| done]. injection Hrun as _ <-.
  unfold is_ready. simpl.
  set (f := λ r, if decide (Db.row_id r = task_id)
                 then Db.mkRow (Db.row_id r) (Db.row_title r) (Db.row_description r)
                        (Db.row_priority r) (Db.row_due r) "done" (Db.row_tags r)
                        (Db.row_created_at r) (Db._iso_now utcnow)
                 else r).
  assert (Hfid : ∀ r, Db.row_id (f r) = Db.row_id r).
  { intros r. unfold f. by case_decide. }
  assert (Hfhit : ∀ r, Db.row_id r = task_id → Db.row_status (f r) = "done").
  { intros r Hr. unfold f. by rewrite decide_True. }
  assert (Hfmiss : ∀ r, Db.row_id r ≠ task_id → f r = r).
  { intros r Hr. unfold f. by rewrite decide_False. }
  split.
  - intros (r' & (r & -> & Hr)%list_elem_of_fmap & <- & Htodo & Hpre).
    exists r. rewrite Hfid. split; [done |]. split; [done |].
    destruct (decide (Db.row_id r = task_id)) as [Hhit | Hmiss].
    { rewrite (Hfhit r Hhit) in Htodo. discriminate. }
    rewrite (Hfmiss r Hmiss) in Htodo. split; [done |]. split; [done |].
    intros prereq Hin Hedge.
    destruct (decide (Db.row_id prereq = task_id)) as [? | Hpm]; [by left | right].
    rewrite <- (Hfmiss prereq Hpm). apply Hpre.
    + apply list_elem_of_fmap. by exists prereq.
    + by rewrite !Hfid.
  - intros (r & Hr & <- & Hne & Htodo & Hpre).
    exists (f r). split; [apply list_elem_of_fmap; by exists r |].
    split; [apply Hfid |]. rewrite (Hfmiss r Hne). split; [done |].
    intros prereq' (prereq & -> & Hin)%list_elem_of_fmap Hedge.
    rewrite Hfid in Hedge.
    destruct (decide (Db.row_id prereq = task_id)) as [Hhit | Hmiss]; [by apply Hfhit |].
    rewrite (Hfmiss prereq Hmiss). by destruct (Hpre prereq Hin Hedge).
Qed.

Lemma list_tasks_rows (db : Db.database) (status : option string) :
  match status with
  | Some st =>
      if decide (st = EmptyString) then Db.tasks db
      else filter (λ r, Db.row_status r = st) (Db.tasks db)
  | None => Db.tasks db
  end = filter (has_status status) (Db.tasks db).
Proof.
  assert (Hall : ∀ (P : Db.Row → Prop) `{!∀ r, Decision (P r)} (l : list Db.Row),
            (∀ r, P r) → filter P l = l).
  { intros P HP l Hall. induction l as [|r l IH]; [done |].
    rewrite filter_cons_True by done. by rewrite IH. }
  destruct status as [st|]; simpl.
  - case_decide as Hst.
    + symmetry. apply Hall. intros r. by left.
    + apply list_filter_iff. intros r. unfold has_status. tauto.
  - symmetry. by apply Hall.
Qed.

(** X12.  [list_tasks] returns one task for each row that has the requested
    status (for each row at all, without a status or with the empty one), and
    no other: the tasks read from a rearrangement of those rows, in ascending
    order of id, strictly ascending when the ids are a primary key.  Each
    task has the id, title, description, priority, status and tags of its
    row. *)
Theorem list_tasks_spec (db : Db.database) (status : option string) (ts : list Db.Task) :
  Db.list_tasks db status = Ok ts →
  ∃ rows, rows ≡ₚ filter (has_status status) (Db.tasks db) ∧
    Forall2 (λ r t, Db._row_to_task r = Ok t ∧
                    Db.id t = Db.row_id r ∧ Db.title t = Db.row_title r ∧
                    Db.description t = Db.row_description r ∧
                    Db.priority t = Db.row_priority r ∧
                    Db.status t = Db.row_status r ∧ Db.tags t = Db.row_tags r) rows ts ∧
    length ts = length (filter (has_status status) (Db.tasks db)) ∧
    StronglySorted (λ a b, Db.id a ≤ Db.id b) ts ∧
    (NoDup (Db.row_id <$> Db.tasks db) →
     StronglySorted (λ a b, Db.id a < Db.id b) ts) ∧
    ∀ t, t ∈ ts ↔
      ∃ r, r ∈ Db.tasks db ∧ Db._row_to_task r = Ok t ∧ has_status status r.
Proof.
  unfold Db.list_tasks. rewrite list_tasks_rows.
  set (selected := filter (has_status status) (Db.tasks db)).
  set (sorted := merge_sort Db.by_id selected).
  assert (Hperm : sorted ≡ₚ selected) by apply merge_sort_Permutation.
  assert (Hsorted : Sorted Db.by_id sorted).
  { apply Sorted_merge_sort. intros a b. unfold Db.by_id. lia. }
  intros Hts%rows_to_tasks_Ok. exists sorted.
  assert (Hfields : Forall2 (λ r t, Db._row_to_task r = Ok t ∧
                    Db.id t = Db.row_id r ∧ Db.title t = Db.row_title r ∧
                    Db.description t = Db.row_description r ∧
                    Db.priority t = Db.row_priority r ∧
                    Db.status t = Db.row_status r ∧ Db.tags t = Db.row_tags r) sorted ts).
  { eapply Forall2_impl; [exact Hts |]. intros r t Hrt. split; [done |].
    destruct (_row_to_task_Ok r t Hrt) as (c & u & _ & _ & _ & ->). done. }
  split; [done |]. split; [done |]. split.
  { rewrite <- (Forall2_length _ _ _ Hts). by rewrite Hperm. }
  split; [| split].
  - assert (Htrans : Transitive (λ a b : Db.Task, Db.id a ≤ Db.id b)).
    { intros a b c. lia. }
    apply Sorted_StronglySorted; [done |].
    apply (Sorted_Forall2 (λ r t, Db._row_to_task r = Ok t) Db.by_id _ sorted ts);
      [| done | done].
    intros a b ta tb Ha Hb Hab. unfold Db.by_id in Hab.
    apply _row_to_task_fields in Ha as [-> _]. by apply _row_to_task_fields in Hb as [-> _].
  - intros Hnd.
    assert (Hnd' : NoDup (Db.row_id <$> sorted)).
    { rewrite Hperm. eapply sublist_NoDup; [exact Hnd |].
      apply fmap_sublist, sublist_filter. }
    assert (Htrans : Transitive (λ a b : Db.Task, Db.id a < Db.id b)).
    { intros a b c. lia. }
    apply Sorted_StronglySorted; [done |].
    apply (Sorted_Forall2 (λ r t, Db._row_to_task r = Ok t)
             (λ a b, Db.by_id a b ∧ Db.row_id a ≠ Db.row_id b) _ sorted ts);
      [| done | by apply Sorted_distinct].
    intros a b ta tb Ha Hb [Hab Hne]. unfold Db.by_id in Hab.
    apply _row_to_task_fields in Ha as [Ha _]. apply _row_to_task_fields in Hb as [Hb _].
    lia.
  - assert (Hrows : ∀ r, r ∈ sorted ↔ r ∈ Db.tasks db ∧ has_status status r).
    { intros r. rewrite Hperm. unfold selected. rewrite list_elem_of_filter. tauto. }
    intros t. split.
    + intros (i & Hi)%list_elem_of_lookup.
      destruct (Forall2_lookup_r _ _ _ _ _ Hts Hi) as (r & Hr & Hrt).
      apply list_elem_of_lookup_2 in Hr. apply Hrows in Hr as [Hr Hst]. by exists r.
    + intros (r & Hr & Hrt & Hst).
      assert (r ∈ sorted) as (i & Hi)%list_elem_of_lookup by (by apply Hrows).
      destruct (Forall2_lookup_l _ _ _ _ _ Hts Hi) as (t' & Ht' & Hrt').
      replace t with t' by congruence. by eapply list_elem_of_lookup_2.
Qed.

Lemma foldr_max_ge (l : list Z) (x : Z) : x ∈ l → x ≤ foldr Z.max 0 l.
Proof.
  induction l as [|a l IH]; [by intros ?%elem_of_nil |].
  intros [-> | Hx%IH]%elem_of_cons; simpl; lia.
Qed.

Lemma get_task_snoc_other (db : Db.database) (row : Db.Row) (j : Z) :
  Db.row_id row ≠ j →
  Db.get_task (Db.mkDatabase (Db.tasks db ++ [row]) (Db.deps db)) j = Db.get_task db j.
Proof.
  intros Hne. unfold Db.get_task. case_decide; [| done]. cbn [Db.tasks].
  destruct (list_find (λ r, Db.row_id r = j) (Db.tasks db)) as [[i r]|] eqn:Hfind.
  - by rewrite (list_find_app_l _ _ [row] _ _ Hfind).
  - rewrite list_find_app_r by done. cbn. by rewrite decide_False.
Qed.

(** X13.  What [add_task] stores can be read back: the new id is larger than
    every id in the table (and than [seq]), [get_task] on it gives a ['todo']
    task with the title, description, priority, due date and tags that were
    passed and with both timestamps at the reading of the clock, and every
    other id reads as before. *)
Theorem add_task_get_task (db db' : Db.database) (seq : Z) (utcnow : Db.datetime)
    (title description : string) (priority : Z) (due : option Db.date) (tags : string)
    (new_id : Z) :
  (∀ d, due = Some d → Db.valid_date d) →
  Db.valid_datetime utcnow → Db.tzinfo utcnow = None →
  Db.add_task db seq utcnow title description priority due tags = Db.Added new_id db' →
  seq < new_id ∧ (∀ r, r ∈ Db.tasks db → Db.row_id r < new_id) ∧
  Db.deps db' = Db.deps db ∧
  Db.get_task db' new_id =
    Ok (Some (Db.mkTask new_id title description priority due "todo" tags
                (Db.mkDatetime (Db.dt_date utcnow) (Db.hour utcnow) (Db.minute utcnow)
                   (Db.second utcnow) 0 (Some 0))
                (Db.mkDatetime (Db.dt_date utcnow) (Db.hour utcnow) (Db.minute utcnow)
                   (Db.second utcnow) 0 (Some 0)))) ∧
  (∀ j, j ≠ new_id → Db.get_task db' j = Db.get_task db j).
Proof.
  intros Hdue Hvalid Htz. unfold Db.add_task.
  case_decide as Hprio; [| done]. case_decide as Hint; [| done].
  intros [= <- <-].
  assert (Hfresh : ∀ r, r ∈ Db.tasks db → Db.row_id r < Db.next_id seq (Db.tasks db)).
  { intros r Hr. unfold Db.next_id.
    assert (Db.row_id r ≤ foldr Z.max 0 (Db.row_id <$> Db.tasks db)).
    { apply foldr_max_ge, list_elem_of_fmap. by exists r. }
    lia. }
  split; [unfold Db.next_id; lia |]. split; [done |]. split; [done |]. split.
  - unfold Db.get_task. rewrite decide_True by done. cbn [Db.tasks].
    rewrite list_find_app_r.
    2:{ apply list_find_None, Forall_forall. intros r Hr Hid.
        specialize (Hfresh r Hr). lia. }
    cbn. rewrite decide_True by done. cbn.
    unfold Db._row_to_task. cbn [Db.row_due Db.row_created_at Db.row_updated_at
      Db.row_id Db.row_title Db.row_description Db.row_priority Db.row_status Db.row_tags].
    rewrite _iso_now_readable by done.
    destruct due as [d|]; cbn.
    + rewrite date_fromisoformat_isoformat by (by apply Hdue). done.
    + done.
  - intros j Hj. by apply get_task_snoc_other.
Qed.

(** **** What the parsers return *)

Lemma fraction_fromisoformat_dot f5 f4 f3 rest :
  Db.fraction_fromisoformat (String "." (String f5 (String f4 (String f3 rest)))) =
  ms ← Db.val3 f5 f4 f3;
  match rest with
  | String f2 (String f1 (String f0 rest')) =>
      match Db.val3 f2 f1 f0 with
      | Some us => Some (1000 * ms + us, rest')
      | None => Some (1000 * ms, rest)
      end
  | _ => Some (1000 * ms, rest)
  end.
Proof. reflexivity. Qed.

Lemma fraction_fromisoformat_range s us rest :
  Db.fraction_fromisoformat s = Some (us, rest) → 0 ≤ us ≤ 999999.
Proof.
  destruct s as [|c s]; [intros [= <- <-]; lia |].
  destruct c as [[] [] [] [] [] [] [] []]; try (intros [= <- <-]; lia).
  destruct s as [|f5 s]; [done |]. destruct s as [|f4 s]; [done |].
  destruct s as [|f3 s]; [done |].
  rewrite fraction_fromisoformat_dot.
  destruct (Db.val3 f5 f4 f3) as [ms|] eqn:Hms; cbn [mbind option_bind]; [| done].
  apply val3_range in Hms.
  destruct s as [|f2 [|f1 [|f0 s]]]; try (intros [= <- <-]; lia).
  destruct (Db.val3 f2 f1 f0) as [low|] eqn:Hlow; intros [= <- <-]; [| lia].
  apply val3_range in Hlow. lia.
Qed.

Lemma offset_fromisoformat_chars sign h1 h0 m1 m0 :
  Db.offset_fromisoformat
    (String sign (String h1 (String h0 (String ":" (String m1 (String m0 EmptyString)))))) =
  h ← Db.val2 h1 h0; m ← Db.val2 m1 m0;
  if decide (h ≤ 23 ∧ m ≤ 59) then
    if decide (sign = "+"%char) then Some (Some (60 * h + m))
    else if decide (sign = "-"%char) then Some (Some (- (60 * h + m)))
    else None
  else None.
Proof. reflexivity. Qed.

Lemma offset_fromisoformat_range s off :
  Db.offset_fromisoformat s = Some (Some off) → -1440 < off < 1440.
Proof.
  destruct s as [|sign s]; [done |]. destruct s as [|h1 s]; [done |].
  destruct s as [|h0 s]; [done |]. destruct s as [|c s]; [done |].
  destruct s as [|m1 s]; [by destruct c as [[] [] [] [] [] [] [] []] |].
  destruct s as [|m0 s]; [by destruct c as [[] [] [] [] [] [] [] []] |].
  destruct s; [| by destruct c as [[] [] [] [] [] [] [] []]].
  destruct c as [[] [] [] [] [] [] [] []]; try done.
  rewrite offset_fromisoformat_chars.
  destruct (Db.val2 h1 h0) as [h|] eqn:Hh; cbn [mbind option_bind]; [| done].
  destruct (Db.val2 m1 m0) as [m|] eqn:Hm; cbn [mbind option_bind]; [| done].
  apply val2_range in Hh, Hm.
  case_decide; [| done]. repeat case_decide; intros [= <-]; lia.
Qed.

Lemma datetime_fromisoformat_valid s t :
  Db.datetime_fromisoformat s = Some t → Db.valid_datetime t.
Proof.
  unfold Db.datetime_fromisoformat.
  destruct s as [|y3 s]; [done |]. destruct s as [|y2 s]; [done |].
  destruct s as [|y1 s]; [done |]. destruct s as [|y0 s]; [done |].
  destruct s as [|c4 s]; [done |]. destruct s as [|m1 s]; [done |].
  destruct s as [|m0 s]; [done |]. destruct s as [|c7 s]; [done |].
  destruct s as [|d1 s]; [done |]. destruct s as [|d0 s]; [done |].
  destruct s as [|sep s]; [done |]. destruct s as [|H1 s]; [done |].
  destruct s as [|H0 s]; [done |]. destruct s as [|c13 s]; [done |].
  destruct s as [|M1 s]; [by destruct c13 as [[] [] [] [] [] [] [] []] |].
  destruct s as [|M0 s]; [by destruct c13 as [[] [] [] [] [] [] [] []] |].
  destruct s as [|c16 s]; [by destruct c13 as [[] [] [] [] [] [] [] []] |].
  destruct c13 as [[] [] [] [] [] [] [] []]; try done.
  destruct s as [|S1 s]; [by destruct c16 as [[] [] [] [] [] [] [] []] |].
  destruct s as [|S0 s]; [by destruct c16 as [[] [] [] [] [] [] [] []] |].
  destruct c16 as [[] [] [] [] [] [] [] []]; try done.
  destruct (Db.date_fromisoformat _) as [d|] eqn:Hd; cbn [mbind option_bind]; [| done].
  apply date_fromisoformat_valid in Hd.
  destruct (Db.val2 H1 H0) as [h|] eqn:Hh; cbn [mbind option_bind]; [| done].
  destruct (Db.val2 M1 M0) as [m|] eqn:Hm; cbn [mbind option_bind]; [| done].
  destruct (Db.val2 S1 S0) as [sec|] eqn:Hsec; cbn [mbind option_bind]; [| done].
  apply val2_range in Hh, Hm, Hsec.
  destruct (Db.fraction_fromisoformat s) as [[us rest']|] eqn:Hus;
    cbn [mbind option_bind]; [| done].
  apply fraction_fromisoformat_range in Hus.
  destruct (Db.offset_fromisoformat rest') as [tz|] eqn:Htz; cbn [mbind option_bind]; [| done].
  case_decide; [| done]. intros [= <-].
  unfold Db.valid_datetime.
  cbn [Db.dt_date Db.hour Db.minute Db.second Db.microsecond Db.tzinfo].
  split; [done |]. split; [lia |]. split; [lia |]. split; [lia |]. split; [lia |].
  destruct tz as [off|]; [| done]. by apply (offset_fromisoformat_range rest').
Qed.

(** **** Export and import *)

#[local] Instance by_id_total : Total Db.by_id.
Proof. intros a b. unfold Db.by_id. lia. Qed.

Lemma _row_to_task_valid r t :
  Db._row_to_task r = Ok t →
  (∀ d, Db.due t = Some d → Db.valid_date d) ∧
  Db.valid_datetime (Db.created_at t) ∧ Db.valid_datetime (Db.updated_at t).
Proof.
  intros Ht. destruct (_row_to_task_Ok r t Ht) as (c & u & Hc & Hu & Hdue & ->).
  cbn [Db.due Db.created_at Db.updated_at] in *.
  apply datetime_fromisoformat_valid in Hc, Hu. split; [| done].
  intros d Hd. apply _parse_due_Ok in Hdue. rewrite Hd in Hdue.
  destruct (Db.row_due r) as [s|]; [| done]. by eapply date_fromisoformat_valid.
Qed.

(** The row that [import_json] writes for an exported task reads back as
    that task. *)
Lemma _row_to_task_row_of_json clock i t :
  (∀ d, Db.due t = Some d → Db.valid_date d) →
  Db.valid_datetime (Db.created_at t) → Db.valid_datetime (Db.updated_at t) →
  Db._row_to_task (Db.row_of_json clock i (Db.task_to_dict t)) = Ok t.
Proof.
  destruct t as [i' ti de pr du st ta c u].
  cbn [Db.due Db.created_at Db.updated_at]. intros Hdue Hc Hu.
  unfold Db._row_to_task, Db.row_of_json, Db.task_to_dict.
  cbn [Db.row_due Db.row_created_at Db.row_updated_at Db.row_id Db.row_title
       Db.row_description Db.row_priority Db.row_status Db.row_tags
       Db.j_id Db.j_title Db.j_description Db.j_priority Db.j_due Db.j_status Db.j_tags
       Db.j_created_at Db.j_updated_at Db.id Db.title Db.description Db.priority Db.due
       Db.status Db.tags Db.created_at Db.updated_at default from_option Datatypes.id].
  rewrite !replace_Z_id by apply no_Z_datetime_isoformat.
  rewrite !datetime_fromisoformat_isoformat by done.
  destruct du as [d|]; cbn.
  - rewrite date_fromisoformat_isoformat by (by apply Hdue). done.
  - done.
Qed.

Lemma rows_to_tasks_row_of_json clock (ts : list Db.Task) :
  Forall (λ t, ∃ r, Db._row_to_task r = Ok t) ts →
  Db.rows_to_tasks (imap (Db.row_of_json clock) (Db.task_to_dict <$> ts)) = Ok ts.
Proof.
  rewrite imap_fmap.
  rewrite (imap_ext _ (const (λ t, Db.row_of_json clock 0 (Db.task_to_dict t)))) by done.
  rewrite imap_const.
  induction 1 as [|t ts [r Hr] _ IH]; [done |].
  apply _row_to_task_valid in Hr as (Hdue & Hc & Hu).
  rewrite fmap_cons. cbn [Db.rows_to_tasks].
  rewrite _row_to_task_row_of_json by done. cbn [mbind res_bind]. by rewrite IH.
Qed.

(** [ORDER BY id] leaves rows that are in ascending order of distinct ids
    as they are. *)
Lemma merge_sort_by_id_sorted (l : list Db.Row) :
  Sorted Z.le (Db.row_id <$> l) → NoDup (Db.row_id <$> l) →
  merge_sort Db.by_id l = l.
Proof.
  intros Hsorted Hnd.
  pose proof (merge_sort_Permutation Db.by_id l) as Hperm.
  assert (Hids : Db.row_id <$> merge_sort Db.by_id l = Db.row_id <$> l).
  { apply (Sorted_unique Z.le); [| done | by rewrite Hperm].
    apply (Sorted_fmap Db.row_id Db.by_id Z.le); [done |]. apply Sorted_merge_sort, _. }
  apply list_eq. intros i.
  apply (f_equal (λ k, k !! i)) in Hids. rewrite !list_lookup_fmap in Hids.
  destruct (merge_sort Db.by_id l !! i) as [x|] eqn:Hx, (l !! i) as [y|] eqn:Hy;
    try done.
  injection Hids as Heq. f_equal.
  apply (NoDup_fmap_elem_eq Db.row_id l x y Hnd); [| by eapply list_elem_of_lookup_2 | done].
  rewrite <- Hperm. by eapply list_elem_of_lookup_2.
Qed.

Section ExportImport.

Context (clock : nat → string).

Lemma import_json_run (prior : Db.database) (data : Db.document) :
  wf_document data →
  Db.import_json clock prior data =
    Ok (Db.mkDatabase (imap (Db.row_of_json clock) (Db.doc_tasks data)) (Db.doc_deps data)).
Proof.
  intros [Hids Hpairs Hrefs Hints]. unfold Db.import_json. simpl.
  rewrite insert_tasks_spec by done. cbn [mbind res_bind]. simpl.
  rewrite insert_deps_spec; [done | done |].
  intros d Hd. rewrite (fmap_imap_row_of_json clock 0).
  destruct (Hrefs d Hd) as [H1 H2]. split; [done |]. split; [done |]. split.
  - apply list_elem_of_fmap in H1 as (t & -> & Ht). by apply Hints.
  - apply list_elem_of_fmap in H2 as (t & -> & Ht). by apply Hints.
Qed.

(** X14.  Importing the document that [export_json] made of a store, into any
    database, gives a store that lists the same tasks and the same
    dependencies, and that exports to the same document again. *)
Theorem export_import_round_trip (db prior : Db.database) (doc : Db.document) :
  NoDup (Db.row_id <$> Db.tasks db) →
  (∀ r, r ∈ Db.tasks db → Db.sqlite_int (Db.row_id r) ∧ Db.sqlite_int (Db.row_priority r)) →
  NoDup (Db.deps db) →
  (∀ d, d ∈ Db.deps db →
     d.1 ∈ Db.row_id <$> Db.tasks db ∧ d.2 ∈ Db.row_id <$> Db.tasks db) →
  Db.export_json db = Ok doc →
  ∃ db', Db.import_json clock prior doc = Ok db' ∧
    Db.list_tasks db' None = Db.list_tasks db None ∧
    Db.get_dependencies db' = Db.get_dependencies db ∧
    Db.export_json db' = Ok doc.
Proof.
  intros Hnd Hints Hpairs Hrefs. unfold Db.export_json, Db.get_dependencies.
  destruct (Db.list_tasks db None) as [ts | |] eqn:Hts; [| done | done].
  cbn [mbind res_bind]. intros [= <-].
  unfold Db.list_tasks in Hts. apply rows_to_tasks_Ok in Hts.
  set (sorted := merge_sort Db.by_id (Db.tasks db)) in *.
  assert (Hperm : sorted ≡ₚ Db.tasks db) by apply merge_sort_Permutation.
  assert (Hid : Db.id <$> ts = Db.row_id <$> sorted).
  { clearbody sorted. clear Hperm. induction Hts as [|r t rows ts' Hrt _ IH]; [done |].
    rewrite !fmap_cons, IH. f_equal. by apply _row_to_task_fields in Hrt as [-> _]. }
  assert (Hjid : Db.j_id <$> (Db.task_to_dict <$> ts) = Db.row_id <$> sorted).
  { rewrite <- Hid, <- list_fmap_compose. done. }
  assert (Hwf : wf_document (Db.mkDocument (Db.task_to_dict <$> ts) (Db.deps db))).
  { split; cbn [Db.doc_tasks Db.doc_deps].
    - by rewrite Hjid, Hperm.
    - done.
    - intros d Hd. rewrite Hjid, Hperm. by apply Hrefs.
    - intros jt (t & -> & (i & Hi)%list_elem_of_lookup)%list_elem_of_fmap.
      destruct (Forall2_lookup_r _ _ _ _ _ Hts Hi) as (r & Hr & Hrt).
      apply list_elem_of_lookup_2 in Hr. rewrite Hperm in Hr.
      apply _row_to_task_fields in Hrt as (Hi1 & Hi2 & _).
      cbn [Db.task_to_dict Db.j_id Db.j_priority default].
      rewrite Hi1, Hi2. by apply Hints. }
  eexists. split; [by apply import_json_run |].
  assert (Hback : Db.list_tasks
      (Db.mkDatabase (imap (Db.row_of_json clock) (Db.task_to_dict <$> ts)) (Db.deps db))
      None = Ok ts).
  { unfold Db.list_tasks. cbn [Db.tasks].
    rewrite merge_sort_by_id_sorted.
    - apply rows_to_tasks_row_of_json. apply Forall_forall.
      intros t (i & Hi)%list_elem_of_lookup.
      destruct (Forall2_lookup_r _ _ _ _ _ Hts Hi) as (r & _ & Hrt). by exists r.
    - rewrite (fmap_imap_row_of_json clock 0), Hjid.
      apply (Sorted_fmap Db.row_id Db.by_id Z.le); [done |]. apply Sorted_merge_sort, _.
    - rewrite (fmap_imap_row_of_json clock 0), Hjid. by rewrite Hperm. }
  cbn [Db.deps Db.doc_tasks Db.doc_deps]. by rewrite Hback.
Qed.

End ExportImport.

Section ImportOutcomes.

Context (clock : nat → string).

Lemma insert_tasks_cases (ts : list Db.json_task) (i : nat) (rows : list Db.Row) :
  (NoDup ((Db.row_id <$> rows) ++ (Db.j_id <$> ts)) ∧
   ∀ t, t ∈ ts → Db.sqlite_int (Db.j_id t) ∧ Db.sqlite_int (default 0 (Db.j_priority t))) ∨
  ¬ NoDup (Db.row_id <$> rows) ∨
  Db.insert_tasks clock i rows ts = Raise IntegrityError ∨
  Db.insert_tasks clock i rows ts = Raise OverflowError.
Proof.
  revert i rows. induction ts as [|t ts IH]; intros i rows.
  - destruct (decide (NoDup (Db.row_id <$> rows))) as [Hnd|]; [left | tauto].
    rewrite app_nil_r. split; [done |]. by intros t ?%elem_of_nil.
  - cbn [Db.insert_tasks]. unfold Db.insert_task.
    case_decide as Hint; [| tauto].
    rewrite row_of_json_id in *. case_decide as Hin; [tauto |].
    cbn [mbind res_bind].
    destruct (IH (S i) (rows ++ [Db.row_of_json clock i t]))
      as [[Hnd Hints] | [Hnd | Hraise]]; [left | right; left | tauto].
    + rewrite fmap_app, <- app_assoc in Hnd. split; [done |].
      intros t' [-> | Ht']%elem_of_cons; [done | by apply Hints].
    + intros Hrows. apply Hnd. rewrite fmap_app. apply NoDup_app.
      split; [done |]. split; [| apply NoDup_singleton].
      intros x Hx [-> | []%elem_of_nil]%elem_of_cons. by apply Hin.
Qed.

Lemma insert_deps_cases (rows : list Db.Row) (pairs ds : list (Z * Z)) :
  (NoDup (ds ++ pairs) ∧
   ∀ d, d ∈ pairs → d.1 ∈ Db.row_id <$> rows ∧ d.2 ∈ Db.row_id <$> rows ∧
                     Db.sqlite_int d.1 ∧ Db.sqlite_int d.2) ∨
  ¬ NoDup ds ∨
  Db.insert_deps rows ds pairs = Raise IntegrityError ∨
  Db.insert_deps rows ds pairs = Raise OverflowError.
Proof.
  revert ds. induction pairs as [|d pairs IH]; intros ds.
  - destruct (decide (NoDup ds)) as [Hnd|]; [left | tauto].
    rewrite app_nil_r. split; [done |]. by intros t ?%elem_of_nil.
  - cbn [Db.insert_deps]. unfold Db.insert_dep.
    case_decide as Hint; [| tauto]. case_decide as Hin; [tauto |].
    case_decide as Href; [| tauto]. cbn [mbind res_bind].
    destruct (IH (ds ++ [d])) as [[Hnd Hrefs] | [Hnd | Hraise]];
      [left | right; left | tauto].
    + rewrite <- app_assoc in Hnd. split; [done |].
      intros d' [-> | Hd']%elem_of_cons; [tauto | by apply Hrefs].
    + intros Hds. apply Hnd. apply NoDup_app.
      split; [done |]. split; [| apply NoDup_singleton].
      intros x Hx [-> | []%elem_of_nil]%elem_of_cons. by apply Hin.
Qed.

(** X15.  [import_json] succeeds on exactly the well-formed documents.  On any
    other one (a task id or a dependency pair listed twice, a pair that
    names an id that is not listed, an integer that does not fit the
    column) an [INSERT] raises [IntegrityError] or [OverflowError], so
    nothing is committed. *)
Theorem import_json_outcomes (prior : Db.database) (data : Db.document) :
  ((∃ db', Db.import_json clock prior data = Ok db') ↔ wf_document data) ∧
  (¬ wf_document data →
   Db.import_json clock prior data = Raise IntegrityError ∨
   Db.import_json clock prior data = Raise OverflowError).
Proof.
  assert (Hcases : wf_document data ∨
    Db.import_json clock prior data = Raise IntegrityError ∨
    Db.import_json clock prior data = Raise OverflowError).
  { unfold Db.import_json. cbn [Db.tasks Db.deps].
    destruct (insert_tasks_cases (Db.doc_tasks data) 0 [])
      as [[Hnd Hints] | [Hnd | Hraise]].
    - rewrite insert_tasks_spec by done. cbn [mbind res_bind].
      rewrite app_nil_l. change (NoDup (Db.j_id <$> Db.doc_tasks data)) in Hnd.
      destruct (insert_deps_cases (imap (λ k, Db.row_of_json clock (0 + k)) (Db.doc_tasks data))
                  (Db.doc_deps data) []) as [[Hnd' Hrefs] | [Hnd' | Hraise]].
      + left. rewrite app_nil_l in Hnd'.
        split; [done | done | | done].
        intros d Hd. destruct (Hrefs d Hd) as (H1 & H2 & _).
        by rewrite (fmap_imap_row_of_json clock 0) in H1, H2.
      + destruct Hnd'. constructor.
      + right. destruct Hraise as [-> | ->]; tauto.
    - destruct Hnd. constructor.
    - right. destruct Hraise as [-> | ->]; tauto. }
  split; [split |].
  - intros [db' Hok]. destruct Hcases as [? | [Hr | Hr]]; [done | |];
      rewrite Hr in Hok; done.
  - intros Hwf. eexists. by apply import_json_run.
  - intros Hnwf. destruct Hcases as [? | ?]; [done | done].
Qed.

End ImportOutcomes.

Lemma _row_to_task_done_row (now : string) (r : Db.Row) (t : Db.Task) :
  Db._row_to_task r = Ok t →
  is_Some (Db.datetime_fromisoformat (Db.replace_Z now)) →
  ∃ t', Db._row_to_task (done_row now r) = Ok t'.
Proof.
  intros Ht [u' Hu'].
  destruct (_row_to_task_Ok r t Ht) as (c & u & Hc & Hu & Hdue & _).
  unfold Db._row_to_task, done_row.
  cbn [Db.row_due Db.row_created_at Db.row_updated_at Db.row_id Db.row_title
       Db.row_description Db.row_priority Db.row_status Db.row_tags].
  rewrite Hdue, Hc, Hu'. cbn. eauto.
Qed.

(** X16.  [cmd_done] keeps the store in order as well.  It ends with code 0
    exactly when the id is the id of a task, and then that task is ['done'];
    otherwise it ends with code 1 and leaves the database as it was.  The
    dependencies are never touched. *)
Theorem cmd_done_spec (db : Db.database) (utcnow : Db.datetime) (task_id : Z) :
  store_ok db → Db.valid_datetime utcnow → Db.tzinfo utcnow = None →
  Db.sqlite_int task_id →
  ∃ code db', Cli.cmd_done db utcnow task_id = Ok (code, db') ∧
    store_ok db' ∧ Db.deps db' = Db.deps db ∧
    Db.row_id <$> Db.tasks db' = Db.row_id <$> Db.tasks db ∧
    ((code = 0 ∧ task_id ∈ Db.row_id <$> Db.tasks db ∧
      ∀ r, r ∈ Db.tasks db' → Db.row_id r = task_id → Db.row_status r = "done") ∨
     (code = 1 ∧ task_id ∉ Db.row_id <$> Db.tasks db ∧ db' = db)).
Proof.
  intros [Hpk Hints Hread Hpairs Hrefs Hacyc] Hvalid Htz Hint.
  unfold Cli.cmd_done, Db.mark_done. rewrite decide_True by done.
  cbn [mbind res_bind fst snd].
  set (now := Db._iso_now utcnow).
  set (upd := λ r : Db.Row,
         if decide (Db.row_id r = task_id)
         then Db.mkRow (Db.row_id r) (Db.row_title r) (Db.row_description r)
                (Db.row_priority r) (Db.row_due r) "done" (Db.row_tags r)
                (Db.row_created_at r) now
         else r).
  assert (Hids : Db.row_id <$> (upd <$> Db.tasks db) = Db.row_id <$> Db.tasks db).
  { rewrite <- list_fmap_compose. apply list_fmap_ext. intros i r _. unfold upd. simpl.
    by case_decide. }
  assert (Hrow : ∀ r', r' ∈ upd <$> Db.tasks db →
            ∃ r, r ∈ Db.tasks db ∧ Db.row_id r' = Db.row_id r ∧
              ((Db.row_id r ≠ task_id ∧ r' = r) ∨
               (Db.row_id r = task_id ∧ r' = done_row now r))).
  { intros r' (r & -> & Hr)%list_elem_of_fmap. exists r. split; [done |].
    unfold upd. case_decide; [split; [done | by right] | split; [done | by left]]. }
  assert (Hok' : store_ok (Db.mkDatabase (upd <$> Db.tasks db) (Db.deps db))).
  { split; cbn [Db.tasks Db.deps].
    - by rewrite Hids.
    - intros r' (r & Hr & -> & _)%Hrow. by apply Hints.
    - intros r' (r & Hr & _ & [[_ ->] | [_ ->]])%Hrow; [by apply Hread |].
      destruct (Hread r Hr) as [t Ht]. apply (_row_to_task_done_row now r t Ht).
      unfold now. rewrite _iso_now_readable by done. eauto.
    - done.
    - intros d Hd. rewrite Hids. by apply Hrefs.
    - done. }
  assert (Hhit : (0 < length (filter (λ r, Db.row_id r = task_id) (Db.tasks db)))%nat ↔
                 task_id ∈ Db.row_id <$> Db.tasks db).
  { rewrite list_elem_of_fmap. split.
    - intros Hlen. destruct (filter _ _) as [|r l] eqn:Hf; [simpl in Hlen; lia |].
      assert (r ∈ filter (λ r, Db.row_id r = task_id) (Db.tasks db)) as Hr
        by (rewrite Hf; apply list_elem_of_here).
      apply list_elem_of_filter in Hr as [Hid Hr]. by exists r.
    - intros (r & -> & Hr).
      assert (r ∈ filter (λ r', Db.row_id r' = Db.row_id r) (Db.tasks db)) as Hin
        by (by apply list_elem_of_filter).
      destruct (filter _ _); [by apply elem_of_nil in Hin | simpl; lia]. }
  destruct (bool_decide (0 < length _)%nat) eqn:Hb.
  - apply bool_decide_eq_true in Hb. apply Hhit in Hb.
    eexists _, _. split; [done |]. split; [done |]. split; [done |]. split; [done |].
    left. split; [done |]. split; [done |].
    intros r' (r & Hr & Hid & [[Hne ->] | [_ ->]])%Hrow Hr'; [congruence | done].
  - apply bool_decide_eq_false in Hb. rewrite Hhit in Hb.
    assert (Hsame : upd <$> Db.tasks db = Db.tasks db).
    { rewrite <- (list_fmap_id (Db.tasks db)) at 2. apply list_fmap_ext.
      intros i r Hr. unfold upd. case_decide as Hid; [| done].
      destruct Hb. apply list_elem_of_fmap. exists r.
      split; [done | by eapply list_elem_of_lookup_2]. }
    eexists _, _. split; [done |]. split; [done |]. split; [done |]. split; [done |].
    right. split; [done |]. split; [done |]. rewrite Hsame. by destruct db.
Qed.

Section StoreOrder.

Context (set_iter : gset Z → list Z).
Hypothesis set_iter_perm : ∀ X, set_iter X ≡ₚ elements X.

(** X17.  A store in the state that [cmd_depend] keeps it in can always be put
    in order: [topo_sort] on its task ids and its dependency pairs returns,
    and the sequence holds every task id once and every prerequisite before
    the tasks that depend on it. *)
Theorem store_ok_topo_sort (db : Db.database) :
  store_ok db →
  ∃ out, Graph.topo_sort set_iter (Db.row_id <$> Db.tasks db) (Db.get_dependencies db) = Ok out ∧
    out ≡ₚ Db.row_id <$> Db.tasks db ∧
    ∀ task prereq, (task, prereq) ∈ Db.deps db → before out prereq task.
Proof.
  intros [Hpk _ _ Hpairs Hrefs Hacyc]. unfold Db.get_dependencies.
  destruct (topo_sort_cases set_iter set_iter_perm (Db.row_id <$> Db.tasks db) (Db.deps db))
    as (indegree & out & _ & Hinv & [[Hlen Hok] | [Hlen _]]).
  - exists out. split; [done |].
    destruct (topo_sort_Ok_sorted set_iter set_iter_perm _ _ _ Hok) as (Hnd & Hmem & Hord).
    split; [by apply NoDup_Permutation |].
    intros task prereq Hin. destruct (Hrefs _ Hin) as [Ht Hp]. by apply Hord.
  - destruct Hacyc.
    assert (Hcyc : has_cycle (list_to_set (Db.row_id <$> Db.tasks db)) (Db.deps db)).
    { eapply kahn_short_cycle; [exact set_iter_perm | exact Hinv | | done].
      by apply NoDup_filter. }
    destruct Hcyc as [x Hx]. exists x. revert Hx. generalize x at 2 4. intros y Hx.
    induction Hx as [u v [Huv _] | u v w [Huv _] _ IH].
    + apply tc_once. exact Huv.
    + eapply tc_l; [exact Huv | exact IH].
Qed.

End StoreOrder.

(** * Worked examples *)

(** Edges that all point from a larger to a smaller id form no cycle. *)
Lemma no_cycle_decreasing (tasks_set : gset Z) (edges : list Edge) :
  Forall (λ e, e.2 < e.1) edges → ¬ has_cycle tasks_set edges.
Proof.
  intros Hdec [x Hx].
  assert (Hlt : ∀ u v, tc (edge_within tasks_set edges) u v → v < u).
  { induction 1 as [u v [Huv _] | u v w [Huv _] _ IH].
    - rewrite Forall_forall in Hdec. apply (Hdec (u, v) Huv).
    - rewrite Forall_forall in Hdec. pose proof (Hdec (u, v) Huv). simpl in *. lia. }
  specialize (Hlt x x Hx). lia.
Qed.

Lemma has_path_reachable_witness :
  (∃ b, Graph.has_path elements two_cycle 1 3 = Some b ∧
        (b = true ↔ ∃ hops : nat, nsteps (adj_edge two_cycle) hops 1 3)) ∧
  (nsteps (adj_edge two_cycle) 0 1 3 ↔ 1 = 3) ∧
  (∀ a, Graph.has_path elements two_cycle a a = Some true).
Proof. apply (has_path_reachable elements). intros X. reflexivity. Defined.

Lemma has_path_terminates_witness :
  (∃ b, Graph.has_path elements two_cycle 1 3 = Some b ∧
        ∀ fuel, (Graph.has_path_bound two_cycle ≤ fuel)%nat →
                Graph.has_path_fuel elements fuel two_cycle 1 3 = Some b) ∧
  (∀ fuel, NoDup (Graph.has_path_expansions elements fuel two_cycle 3 [1] ∅)).
Proof. apply (has_path_terminates elements). intros X. reflexivity. Defined.

Lemma would_create_cycle_spec_witness :
  ∃ b, Graph.would_create_cycle elements [(2, 1); (3, 2)] 1 3 = Some b ∧
       (1 = 3 → b = true) ∧
       (1 ≠ 3 → (b = true ↔ ∃ n, nsteps (depends_on [(2, 1); (3, 2)]) (S n) 3 1)).
Proof. apply (would_create_cycle_spec elements). intros X. reflexivity. Defined.

Lemma topo_sort_acyclic_witness :
  ∃ out, Graph.topo_sort elements [1; 2; 3] [(2, 1); (3, 2)] = Ok out ∧
    NoDup out ∧ (∀ x, x ∈ out ↔ x ∈ [1; 2; 3]) ∧
    (∀ task prereq, (task, prereq) ∈ [(2, 1); (3, 2)] →
       task ∈ [1; 2; 3] → prereq ∈ [1; 2; 3] → before out prereq task).
Proof.
  apply (topo_sort_acyclic elements).
  - intros X. reflexivity.
  - vm_compute. repeat constructor; set_solver.
  - apply no_cycle_decreasing. repeat constructor; simpl; lia.
Defined.

Lemma topo_sort_raises_iff_cycle_witness :
  ∃ out, Graph.topo_sort_out elements [1; 2; 3] [(2, 1); (3, 2); (1, 3)] = Ok out ∧
    (Nat.lt (length out) (size (list_to_set [1; 2; 3] : gset Z)) ↔
       has_cycle (list_to_set [1; 2; 3]) [(2, 1); (3, 2); (1, 3)]) ∧
    (Graph.topo_sort elements [1; 2; 3] [(2, 1); (3, 2); (1, 3)] = Raise ValueError ↔
       has_cycle (list_to_set [1; 2; 3]) [(2, 1); (3, 2); (1, 3)]) ∧
    (Graph.topo_sort elements [1; 2; 3] [(2, 1); (3, 2); (1, 3)] = Ok out ↔
       ¬ has_cycle (list_to_set [1; 2; 3]) [(2, 1); (3, 2); (1, 3)]).
Proof.
  apply (topo_sort_raises_iff_cycle elements).
  - intros X. reflexivity.
  - vm_compute. repeat constructor; set_solver.
Defined.

(** An edge that is listed twice is counted twice in [indegree] but
    recorded once in [prereq_to_dependents]: the dependent never reaches
    zero, and [topo_sort] raises on a graph without a cycle. *)
Lemma topo_sort_acyclic_counterexample :
  ¬ (¬ has_cycle (list_to_set [1; 2]) [(2, 1); (2, 1)] →
     ∃ out, Graph.topo_sort elements [1; 2] [(2, 1); (2, 1)] = Ok out ∧
       NoDup out ∧ (∀ x, x ∈ out ↔ x ∈ [1; 2]) ∧
       (∀ task prereq, (task, prereq) ∈ [(2, 1); (2, 1)] →
          task ∈ [1; 2] → prereq ∈ [1; 2] → before out prereq task)).
Proof.
  intros Hclaim. destruct Hclaim as (out & Hout & _).
  - apply no_cycle_decreasing. repeat constructor; simpl; lia.
  - vm_compute in Hout. discriminate.
Qed.

Lemma topo_sort_raises_iff_cycle_counterexample :
  ¬ (Graph.topo_sort elements [1; 2; 3] [(2, 1); (3, 2); (3, 2)] = Raise ValueError ↔
     has_cycle (list_to_set [1; 2; 3]) [(2, 1); (3, 2); (3, 2)]).
Proof.
  intros [Hraise _].
  apply (no_cycle_decreasing (list_to_set [1; 2; 3]) [(2, 1); (3, 2); (3, 2)]).
  - repeat constructor; simpl; lia.
  - apply Hraise. vm_compute. reflexivity.
Qed.



(** A store is well formed when its ids are distinct and its texts are read
    back unchanged by the parsers. *)
Lemma wf_database_by_parsing (db : Db.database) :
  NoDup (Db.row_id <$> Db.tasks db) →
  Forall (λ r,
    (∀ s, Db.row_due r = Some s →
          Db.date_isoformat <$> Db.date_fromisoformat s = Some s) ∧
    is_Some (Db.datetime_fromisoformat (Db.replace_Z (Db.row_created_at r))) ∧
    is_Some (Db.datetime_fromisoformat (Db.replace_Z (Db.row_updated_at r))))
    (Db.tasks db) →
  wf_database db.
Proof.
  intros Hnd Hall. rewrite Forall_forall in Hall. split; [done | | |].
  - intros r s Hr Hs. destruct (Hall r Hr) as (Hdue & _). specialize (Hdue s Hs).
    destruct (Db.date_fromisoformat s) as [d|] eqn:Hd; [| done].
    exists d. split; [by eapply date_fromisoformat_valid |].
    simpl in Hdue. congruence.
  - intros r Hr. by destruct (Hall r Hr) as (_ & ? & _).
  - intros r Hr. by destruct (Hall r Hr) as (_ & _ & ?).
Qed.

Lemma example_db_wf : wf_database example_db.
Proof.
  apply wf_database_by_parsing.
  - cbn. repeat (constructor; [set_solver |]). constructor.
  - repeat constructor.
    all: try (intros s Hs; cbn in Hs; try discriminate; injection Hs as Hs; subst s).
    all: vm_compute; eauto.
Qed.


(** The scenario of the specification: with B depending on A, only A (and
    the unrelated C, which has a due date and so comes first) is ready. *)
Example ready_tasks_example :
  match Db.ready_tasks example_db with
  | Ok ts => Db.id <$> ts
  | _ => []
  end = [3; 1].
Proof. by vm_compute. Qed.




Lemma example_export_wf : wf_document example_export.
Proof.
  split.
  - cbn. repeat (constructor; [set_solver |]). constructor.
  - cbn. repeat (constructor; [set_solver |]). constructor.
  - intros d Hd. cbn in Hd. apply list_elem_of_singleton in Hd as ->.
    cbn. set_solver.
  - intros t Ht. unfold Db.sqlite_int. cbn in Ht.
    repeat (apply elem_of_cons in Ht as [-> | Ht]); [| | | by apply elem_of_nil in Ht];
      cbn; lia.
Qed.

Lemma import_json_replaces_witness :
  ∃ db', Db.import_json example_clock example_db example_export = Ok db' ∧
    length (Db.tasks db') = length (Db.doc_tasks example_export) ∧
    (∀ (i : nat) t, Db.doc_tasks example_export !! i = Some t →
       ∃ r, Db.tasks db' !! i = Some r ∧
         Db.row_id r = Db.j_id t ∧
         Db.row_title r = Db.j_title t ∧
         Db.row_description r = default EmptyString (Db.j_description t) ∧
         Db.row_priority r = default 0 (Db.j_priority t) ∧
         Db.row_due r = Db.j_due t ∧
         Db.row_status r = default "todo"%string (Db.j_status t) ∧
         Db.row_tags r = default EmptyString (Db.j_tags t) ∧
         Db.row_created_at r = default (example_clock (2 * i)%nat) (Db.j_created_at t) ∧
         Db.row_updated_at r = default (example_clock (2 * i + 1)%nat) (Db.j_updated_at t)) ∧
    Db.row_id <$> Db.tasks db' = Db.j_id <$> Db.doc_tasks example_export ∧
    Db.deps db' = Db.doc_deps example_export ∧
    ∀ prior, Db.import_json example_clock prior example_export = Ok db'.
Proof.
  apply (import_json_replaces example_clock example_db example_export).
  apply example_export_wf.
Defined.

(** **** Examples for the further properties *)

Lemma edges_acyclic_decreasing (edges : list Edge) :
  Forall (λ e, e.2 < e.1) edges → edges_acyclic edges.
Proof.
  intros Hdec [x Hx].
  assert (Hlt : ∀ u v, tc (depends_on edges) u v → v < u).
  { induction 1 as [u v Huv | u v w Huv _ IH].
    - rewrite Forall_forall in Hdec. apply (Hdec (u, v) Huv).
    - rewrite Forall_forall in Hdec. pose proof (Hdec (u, v) Huv). simpl in *. lia. }
  specialize (Hlt x x Hx). lia.
Qed.

Lemma example_db_ints (r : Db.Row) :
  r ∈ Db.tasks example_db → Db.sqlite_int (Db.row_id r) ∧ Db.sqlite_int (Db.row_priority r).
Proof.
  intros Hr. unfold Db.sqlite_int. cbn in Hr.
  repeat (apply elem_of_cons in Hr as [-> | Hr]); [| | | by apply elem_of_nil in Hr];
    cbn; lia.
Qed.

Lemma example_db_refs (d : Edge) :
  d ∈ Db.deps example_db →
  d.1 ∈ Db.row_id <$> Db.tasks example_db ∧ d.2 ∈ Db.row_id <$> Db.tasks example_db.
Proof. intros Hd. cbn in Hd. apply list_elem_of_singleton in Hd as ->. cbn. set_solver. Qed.

Lemma example_db_ok : store_ok example_db.
Proof.
  split.
  - apply example_db_wf.
  - intros r Hr. by apply example_db_ints.
  - intros r Hr. by eapply wf_row_to_task, Hr; apply example_db_wf.
  - cbn. repeat (constructor; [set_solver |]). constructor.
  - apply example_db_refs.
  - apply edges_acyclic_decreasing. repeat constructor; simpl; lia.
Qed.

Lemma example_now_valid : Db.valid_datetime example_now.
Proof. repeat split; by vm_compute. Qed.

Lemma build_adjacency_closed_witness :
  is_Some (build_adjacency [(2, 1); (3, 2)] !! 1).
Proof.
  apply (build_adjacency_closed [(2, 1); (3, 2)] 2 1 {[1]}).
  - by vm_compute.
  - set_solver.
Defined.

Lemma would_create_cycle_guards_witness :
  edges_acyclic ([(2, 1)] ++ [(3, 1)]) ∧ ¬ edges_acyclic ([(2, 1)] ++ [(1, 2)]).
Proof.
  split.
  - apply (would_create_cycle_guards elements (λ X, reflexivity _) [(2, 1)] 3 1).
    + by vm_compute.
    + apply edges_acyclic_decreasing. repeat constructor; simpl; lia.
  - apply (would_create_cycle_guards elements (λ X, reflexivity _) [(2, 1)] 1 2).
    by vm_compute.
Defined.

Lemma would_create_cycle_ext_witness :
  Graph.would_create_cycle elements [(2, 1); (2, 1); (3, 2)] 1 3 =
  Graph.would_create_cycle elements [(3, 2); (2, 1)] 1 3.
Proof.
  apply (would_create_cycle_ext elements [(3, 2); (2, 1)] [(2, 1); (2, 1); (3, 2)] 1 3).
  intros e. set_solver.
Defined.

Lemma has_path_order_independent_witness :
  Graph.has_path elements two_cycle 1 3 =
    Graph.has_path (λ X, reverse (elements X)) two_cycle 1 3 ∧
  Graph.would_create_cycle elements [(2, 1); (3, 2)] 1 3 =
    Graph.would_create_cycle (λ X, reverse (elements X)) [(2, 1); (3, 2)] 1 3.
Proof.
  apply (has_path_order_independent elements (λ X, reverse (elements X))).
  - intros X. reflexivity.
  - intros X. apply reverse_Permutation.
Defined.

Lemma topo_sort_returns_order_witness :
  NoDup [1; 2; 3] ∧ (∀ x, x ∈ [1; 2; 3] ↔ x ∈ [3; 1; 2]) ∧
  (∀ task prereq, (task, prereq) ∈ [(2, 1); (3, 2); (3, 1); (4, 3)] →
     task ∈ [3; 1; 2] → prereq ∈ [3; 1; 2] → before [1; 2; 3] prereq task).
Proof.
  apply (topo_sort_returns_order elements (λ X, reflexivity _)
           [3; 1; 2] [(2, 1); (3, 2); (3, 1); (4, 3)] [1; 2; 3]).
  by vm_compute.
Defined.

Lemma topo_sort_outcomes_witness :
  ((∃ out, Graph.topo_sort elements [1; 2] [(1, 2); (2, 1)] = Ok out) ∨
   Graph.topo_sort elements [1; 2] [(1, 2); (2, 1)] = Raise ValueError) ∧
  (has_cycle (list_to_set [1; 2]) [(1, 2); (2, 1)] →
   Graph.topo_sort elements [1; 2] [(1, 2); (2, 1)] = Raise ValueError).
Proof. apply (topo_sort_outcomes elements). intros X. reflexivity. Defined.

Lemma topo_sort_raises_iff_witness :
  Graph.topo_sort elements [1; 2] [(2, 1); (2, 1)] = Raise ValueError ↔
  has_cycle (list_to_set [1; 2]) [(2, 1); (2, 1)] ∨
  ¬ NoDup (restrict (list_to_set [1; 2]) [(2, 1); (2, 1)]).
Proof. apply (topo_sort_raises_iff elements). intros X. reflexivity. Defined.

Lemma mark_done_spec_witness :
  ∃ ok db', Db.mark_done example_db example_now 1 = Ok (ok, db') ∧
    (ok = true ↔ 1 ∈ Db.row_id <$> Db.tasks example_db) ∧
    Db.deps db' = Db.deps example_db ∧
    Db.tasks db' =
      (λ r, if decide (Db.row_id r = 1) then done_row (Db._iso_now example_now) r else r)
        <$> Db.tasks example_db ∧
    Db.row_id <$> Db.tasks db' = Db.row_id <$> Db.tasks example_db ∧
    (1 ∉ Db.row_id <$> Db.tasks example_db → db' = example_db).
Proof. apply (mark_done_spec example_db example_now 1). unfold Db.sqlite_int. lia. Defined.

Lemma add_dependency_spec_witness :
  ((3, 3) ∈ Db.deps example_db ∨
   (3 ∈ Db.row_id <$> Db.tasks example_db ∧ 3 ∈ Db.row_id <$> Db.tasks example_db) →
   ∃ db', Db.add_dependency example_db 3 3 = Ok db' ∧
     Db.tasks db' = Db.tasks example_db ∧
     (∀ e, e ∈ Db.deps db' ↔ e ∈ Db.deps example_db ∨ e = (3, 3)) ∧
     (NoDup (Db.deps example_db) → NoDup (Db.deps db')) ∧
     Db.add_dependency db' 3 3 = Ok db' ∧
     (rtc (depends_on (Db.deps example_db)) 3 3 → ¬ edges_acyclic (Db.deps db'))) ∧
  (¬ ((3, 3) ∈ Db.deps example_db ∨
      (3 ∈ Db.row_id <$> Db.tasks example_db ∧
       3 ∈ Db.row_id <$> Db.tasks example_db)) →
   Db.add_dependency example_db 3 3 = Raise IntegrityError) ∧
  (3 ∈ Db.row_id <$> Db.tasks example_db →
   ∃ db', Db.add_dependency example_db 3 3 = Ok db' ∧
     (3, 3) ∈ Db.deps db' ∧ ¬ edges_acyclic (Db.deps db')).
Proof.
  apply (add_dependency_spec example_db 3 3); unfold Db.sqlite_int; lia.
Defined.

(** The store accepts the dependency of task 3 on itself, and refuses a
    pair that names a task that does not exist. *)
Example add_dependency_self_example :
  Db.add_dependency example_db 3 3 =
    Ok (Db.mkDatabase (Db.tasks example_db) [(2, 1); (3, 3)]) ∧
  Db.add_dependency example_db 3 7 = Raise IntegrityError.
Proof. split; by vm_compute. Qed.

Lemma cmd_depend_spec_witness :
  ∃ code db', Cli.cmd_depend elements example_db 3 2 = Ok (code, db') ∧
    store_ok db' ∧ Db.tasks db' = Db.tasks example_db ∧
    ((code = 0 ∧
      (∀ e, e ∈ Db.deps db' ↔ e ∈ Db.deps example_db ∨ e = (3, 2)) ∧
      3 ∈ Db.row_id <$> Db.tasks example_db ∧ 2 ∈ Db.row_id <$> Db.tasks example_db ∧
      ¬ rtc (depends_on (Db.deps example_db)) 2 3) ∨
     (code = 1 ∧ db' = example_db ∧
      (3 ∉ Db.row_id <$> Db.tasks example_db ∨ 2 ∉ Db.row_id <$> Db.tasks example_db ∨
       rtc (depends_on (Db.deps example_db)) 2 3))).
Proof.
  apply (cmd_depend_spec elements (λ X, reflexivity _) example_db 3 2).
  - apply example_db_ok.
  - unfold Db.sqlite_int. lia.
  - unfold Db.sqlite_int. lia.
Defined.

Lemma mark_done_unblocks_witness :
  ∃ ts, Db.ready_tasks example_db_done = Ok ts ∧
    ∀ i, i ∈ Db.id <$> ts ↔
      ∃ r, r ∈ Db.tasks example_db ∧ Db.row_id r = i ∧ i ≠ 1 ∧
        Db.row_status r = "todo" ∧
        ∀ prereq, prereq ∈ Db.tasks example_db →
                  (i, Db.row_id prereq) ∈ Db.deps example_db →
                  Db.row_id prereq = 1 ∨ Db.row_status prereq = "done".
Proof.
  apply (mark_done_unblocks example_db example_db_done example_now 1 true).
  - apply example_db_wf.
  - apply example_now_valid.
  - reflexivity.
  - by vm_compute.
Defined.

Lemma list_tasks_spec_witness :
  ∃ rows, rows ≡ₚ filter (has_status (Some "todo"%string)) (Db.tasks example_db_done) ∧
    Forall2 (λ r t, Db._row_to_task r = Ok t ∧
                    Db.id t = Db.row_id r ∧ Db.title t = Db.row_title r ∧
                    Db.description t = Db.row_description r ∧
                    Db.priority t = Db.row_priority r ∧
                    Db.status t = Db.row_status r ∧ Db.tags t = Db.row_tags r)
      rows example_todo ∧
    length example_todo =
      length (filter (has_status (Some "todo"%string)) (Db.tasks example_db_done)) ∧
    StronglySorted (λ a b, Db.id a ≤ Db.id b) example_todo ∧
    (NoDup (Db.row_id <$> Db.tasks example_db_done) →
     StronglySorted (λ a b, Db.id a < Db.id b) example_todo) ∧
    ∀ t, t ∈ example_todo ↔
      ∃ r, r ∈ Db.tasks example_db_done ∧ Db._row_to_task r = Ok t ∧
        has_status (Some "todo"%string) r.
Proof.
  apply (list_tasks_spec example_db_done (Some "todo"%string) example_todo). by vm_compute.
Defined.

Lemma add_task_get_task_witness :
  5 < 6 ∧ (∀ r, r ∈ Db.tasks example_db → Db.row_id r < 6) ∧
  Db.deps example_db_added = Db.deps example_db ∧
  Db.get_task example_db_added 6 =
    Ok (Some (Db.mkTask 6 "D" "" 2 (Some (Db.mkDate 2024 12 24)) "todo" "home"
                (Db.mkDatetime (Db.mkDate 2024 3 1) 12 0 0 0 (Some 0))
                (Db.mkDatetime (Db.mkDate 2024 3 1) 12 0 0 0 (Some 0)))) ∧
  (∀ j, j ≠ 6 → Db.get_task example_db_added j = Db.get_task example_db j).
Proof.
  apply (add_task_get_task example_db example_db_added 5 example_now "D" ""
           2 (Some (Db.mkDate 2024 12 24)) "home" 6).
  - intros d Hd. injection Hd as <-. repeat split; by vm_compute.
  - apply example_now_valid.
  - reflexivity.
  - by vm_compute.
Defined.

Lemma export_import_round_trip_witness :
  ∃ db', Db.import_json example_clock (Db.mkDatabase [] []) example_export = Ok db' ∧
    Db.list_tasks db' None = Db.list_tasks example_db None ∧
    Db.get_dependencies db' = Db.get_dependencies example_db ∧
    Db.export_json db' = Ok example_export.
Proof.
  apply (export_import_round_trip example_clock example_db (Db.mkDatabase [] [])
           example_export).
  - apply example_db_ok.
  - apply example_db_ints.
  - apply example_db_ok.
  - apply example_db_refs.
  - by vm_compute.
Defined.

Lemma store_ok_topo_sort_witness :
  ∃ out, Graph.topo_sort elements (Db.row_id <$> Db.tasks example_db)
           (Db.get_dependencies example_db) = Ok out ∧
    out ≡ₚ Db.row_id <$> Db.tasks example_db ∧
    ∀ task prereq, (task, prereq) ∈ Db.deps example_db → before out prereq task.
Proof.
  apply (store_ok_topo_sort elements (λ X, reflexivity _) example_db).
  apply example_db_ok.
Defined.

Lemma cmd_done_spec_witness :
  ∃ code db', Cli.cmd_done example_db example_now 1 = Ok (code, db') ∧
    store_ok db' ∧ Db.deps db' = Db.deps example_db ∧
    Db.row_id <$> Db.tasks db' = Db.row_id <$> Db.tasks example_db ∧
    ((code = 0 ∧ 1 ∈ Db.row_id <$> Db.tasks example_db ∧
      ∀ r, r ∈ Db.tasks db' → Db.row_id r = 1 → Db.row_status r = "done") ∨
     (code = 1 ∧ 1 ∉ Db.row_id <$> Db.tasks example_db ∧ db' = example_db)).
Proof.
  apply (cmd_done_spec example_db example_now 1).
  - apply example_db_ok.
  - apply example_now_valid.
  - reflexivity.
  - unfold Db.sqlite_int. lia.
Defined.

(** A document that lists an id twice is refused. *)
Example import_json_duplicate_example :
  Db.import_json example_clock example_db
    (Db.mkDocument
       [ Db.mkJsonTask 1 "A" None None None None None None None;
         Db.mkJsonTask 1 "B" None None None None None None None ] [])
  = Raise IntegrityError.
Proof. by vm_compute. Qed.
